(** * The paginated enumeration engine of [src/helpers/chain.ts]

    A shallow embedding of the four enumeration routines of [ChainHelper]
    ([getActions], [getAllActionsBatch], [getTableAll], [checkTableMore])
    and the properties the specification states about them; then of the
    routines around them ([checkTable], [checkTableRange], [checkTableItem],
    [getActionCount], [waitTx], [validateSign], [getPubKeys],
    [getTableByScope]) and of [TranscalPayload], with properties read off
    their code.

    Conventions of the embedding.
    - JavaScript numbers that the routines handle are keys, limits and
      sequence numbers; they are modelled as integers ([Z]).
    - [bignumber.js] values are modelled as [Z]; the only non-integral
      intermediate value, [x.dividedBy(2)], is immediately rounded by
      [decimalPlaces(0)] and both calls are modelled together.
    - A remote call is a parameter of the routine that performs it.
    - Loops that need not terminate take a [fuel] argument, or consume a
      schedule of events; running out of either is the outcome [Running]
      (resp. [Waiting]), never a result. *)

From Stdlib Require Import String Ascii ZArith List Bool Lia Permutation Sorted.
From Stdlib Require DecimalString.
Import ListNotations.
Open Scope Z_scope.

(** ** JavaScript values *)

Inductive JsVal : Type :=
| JUndefined
| JNull
| JBool (b : bool)
| JNum (n : Z)
| JStr (s : string).

(** ToBoolean, as used by [!x], [x ? a : b] and [x && y]. *)
Definition truthy (v : JsVal) : bool :=
  match v with
  | JUndefined | JNull => false
  | JBool b => b
  | JNum n => negb (n =? 0)
  | JStr s => negb (s =? "")%string
  end.

(** [v !== -1]: strict inequality with the number [-1]; a string is never
    strictly equal to a number. *)
Definition strict_neq_minus_one (v : JsVal) : bool :=
  match v with
  | JNum n => negb (n =? -1)
  | _ => true
  end.

(** A row is a JavaScript object: its fields in order. *)
Definition Row : Type := list (string * JsVal).

(** [row[field]]: [undefined] when the field is absent. *)
Fixpoint get_field (row : Row) (field : string) : JsVal :=
  match row with
  | [] => JUndefined
  | (k, v) :: rest => if (k =? field)%string then v else get_field rest field
  end.

Definition has_field (row : Row) (field : string) : Prop :=
  In field (map fst row).

(** Errors that the routines raise or let through. *)
Inductive Error : Type :=
| ErrGetActionsFailed (pos offset : Z)   (* "getActions failed: cannot find actions of ..." *)
| ErrCheckMore (primaryKey : string)     (* "check more error with primary key : ..." *)
| ErrRemote (msg : string)               (* a rejection of a remote call, passed on *)
| ErrTypeError.                          (* property access on undefined or null *)

(** The state of a promise once settled. *)
Inductive Settled (A : Type) : Type :=
| Fulfilled (v : A)
| Rejected (msg : string).
Arguments Fulfilled {A} v.
Arguments Rejected {A} msg.

(** What an [async] routine has done when it is observed. *)
Inductive Result (A : Type) : Type :=
| Returned (v : A)
| Thrown (e : Error)
| Running.
Arguments Returned {A} v.
Arguments Thrown {A} e.
Arguments Running {A}.

(** ** bignumber.js *)

Definition digit_of (c : ascii) : option Z :=
  let n := Z.of_N (N_of_ascii c) in
  if (48 <=? n) && (n <=? 57) then Some (n - 48) else None.

Fixpoint parse_digits (s : string) (acc : Z) : option Z :=
  match s with
  | EmptyString => Some acc
  | String c rest =>
      match digit_of c with
      | Some d => parse_digits rest (10 * acc + d)
      | None => None
      end
  end.

(** Decimal integer literals with an optional minus sign.  Other strings
    (fractions, exponents, other bases, non-numeric text) are outside the
    embedding: [None]. *)
Definition parse_int (s : string) : option Z :=
  match s with
  | EmptyString => None
  | String "-"%char EmptyString => None
  | String "-"%char rest => option_map Z.opp (parse_digits rest 0)
  | _ => parse_digits s 0
  end.

(** [new BigNumber(v)] for an integer number or an integer literal.  The
    library reads a number through its decimal text, which is the integer
    itself up to 2^53 in magnitude; beyond, the text holds the fewest
    digits that identify the double and the value read differs from the
    number, which is not modelled. *)
Definition BigNumber (v : JsVal) : option Z :=
  match v with
  | JNum n => Some n
  | JStr s => parse_int s
  | _ => None
  end.

(** [x.dividedBy(2).decimalPlaces(0)].  The division is exact (one decimal
    place, well within DECIMAL_PLACES = 20) and [decimalPlaces] rounds with
    the library's ROUNDING_MODE, by default ROUND_HALF_UP: to the nearest
    integer, a half going away from zero.  The source never configures
    another mode. *)
Definition dividedBy2_decimalPlaces0 (x : Z) : Z :=
  if 0 <=? x then (x + 1) / 2 else - ((1 - x) / 2).

Definition UINT64_MAX : Z := 18446744073709551615.

(** ** Array helpers *)

Fixpoint remove_at {A : Type} (i : nat) (l : list A) : list A :=
  match l, i with
  | [], _ => []
  | _ :: t, O => t
  | h :: t, S j => h :: remove_at j t
  end.

(** [arr.splice(start, 1)] as it leaves [arr]: a negative [start] counts
    from the end, and nothing is removed past the end. *)
Definition splice1 {A : Type} (start : Z) (l : list A) : list A :=
  let len := Z.of_nat (length l) in
  let k := if start <? 0 then Z.max (len + start) 0 else Z.min start len in
  remove_at (Z.to_nat k) l.

(** [arr.findIndex(v => v === x)], counting from [i]; [-1] when absent. *)
Fixpoint findIndex_from (x : nat) (l : list nat) (i : Z) : Z :=
  match l with
  | [] => -1
  | y :: t => if Nat.eqb y x then i else findIndex_from x t (i + 1)
  end.

Definition findIndex (x : nat) (l : list nat) : Z := findIndex_from x l 0.

(** [arr.find(v => v === x)]: the element itself, or [undefined]. *)
Definition find_same (x : nat) (l : list nat) : option nat :=
  List.find (Nat.eqb x) l.

(** ToIntegerOrInfinity of what [find_same] returns, as [splice] applies it
    to its first argument: a promise object converts to NaN, and so does
    [undefined]; NaN converts to 0. *)
Definition to_integer_of_found (found : option nat) : Z := 0.

(** ** getTableAll (RangePartitioner) *)

(** The answer of [getTableRows]: [rows] may be missing. *)
Record TableResult (R : Type) : Type := mkTableResult {
  rows : option (list R);
  more : bool
}.
Arguments mkTableResult {R} rows more.
Arguments rows {R} t.
Arguments more {R} t.

(** The remote of [getTableAll]: it is asked with [lower_bound] and
    [upper_bound] (and the fixed [limit: -1]); the promise it returns is
    fulfilled with a result, possibly a falsy one ([None]), or rejected. *)
Definition RangeRemote (R : Type) : Type :=
  Z -> Z -> Settled (option (TableResult R)).

(** A sub-query that has been sent and has not settled yet.  [q_id] names
    the promise [_promise] that [Require] pushed to [pool]. *)
Record Query : Type := mkQuery {
  q_id : nat;
  q_lower : Z;
  q_upper : Z
}.

(** The variables that the closures of one [getTableAll] call share:
    [pool] and [ret] are the arrays of the source; [inflight] is the set of
    remote requests that the runtime still has to settle; [unhandled]
    collects the rejections of promises that nothing awaits. *)
Record Scan (R : Type) : Type := mkScan {
  pool : list nat;
  inflight : list Query;
  ret : list R;
  next_id : nat;
  unhandled : list string
}.
Arguments mkScan {R} pool inflight ret next_id unhandled.
Arguments pool {R} s.
Arguments inflight {R} s.
Arguments ret {R} s.
Arguments next_id {R} s.
Arguments unhandled {R} s.

Definition scan_init (R : Type) : Scan R :=
  mkScan [] [] [] 0 [].

(** [Require(_l, _u)]: nothing for [_l >= _u]; otherwise the request is
    sent and its promise pushed to [pool]. *)
Definition Require {R : Type} (l u : Z) (st : Scan R) : Scan R :=
  if u <=? l then st
  else mkScan (pool st ++ [next_id st])
              (inflight st ++ [mkQuery (next_id st) l u])
              (ret st)
              (S (next_id st))
              (unhandled st).

(** [_u.minus(_l).dividedBy(2).decimalPlaces(0).plus(_l)] *)
Definition bisect_mid (l u : Z) : Z :=
  dividedBy2_decimalPlaces0 (u - l) + l.

(** The [.then] callback of the promise of query [q]. *)
Definition on_fulfilled {R : Type} (q : Query) (result : option (TableResult R))
    (st : Scan R) : Scan R :=
  let _myInd := findIndex (q_id q) (pool st) in
  let st1 := mkScan (splice1 _myInd (pool st)) (inflight st) (ret st)
                    (next_id st) (unhandled st) in
  match result with
  | None => st1
  | Some r =>
      if more r then
        let _mid := bisect_mid (q_lower q) (q_upper q) in
        Require _mid (q_upper q) (Require (q_lower q) (_mid - 1) st1)
      else
        match rows r with
        | Some rs => mkScan (pool st1) (inflight st1) (ret st1 ++ rs)
                            (next_id st1) (unhandled st1)
        | None => st1
        end
  end.

(** The [.catch] callback of the promise of query [q].  It looks the
    promise up with [find], not [findIndex], and hands the result to
    [splice]; then it throws again, which rejects [_promise], a promise
    that nothing awaits. *)
Definition on_rejected {R : Type} (q : Query) (err : string) (st : Scan R) : Scan R :=
  let _myInd := to_integer_of_found (find_same (q_id q) (pool st)) in
  mkScan (splice1 _myInd (pool st)) (inflight st) (ret st) (next_id st)
         (unhandled st ++ [err]).

(** What the event loop does while [getTableAll] sleeps in [forMs(50)]:
    the remote settles the [i]-th outstanding request, or the timer fires. *)
Inductive Event : Type :=
| Settle (i : nat)
| Tick.

Definition settle {R : Type} (remote : RangeRemote R) (i : nat) (st : Scan R) : Scan R :=
  match nth_error (inflight st) i with
  | None => st
  | Some q =>
      let st' := mkScan (pool st) (remove_at i (inflight st)) (ret st)
                        (next_id st) (unhandled st) in
      match remote (q_lower q) (q_upper q) with
      | Fulfilled result => on_fulfilled q result st'
      | Rejected err => on_rejected q err st'
      end
  end.

Inductive Outcome (R : Type) : Type :=
| Done (st : Scan R)       (* [return ret], with the shared variables as they are then *)
| Waiting (st : Scan R).   (* still inside the polling loop *)
Arguments Done {R} st.
Arguments Waiting {R} st.

(** Inside [await forMs(50)]; when the timer fires the loop condition
    [pool.length > 0] is tested again. *)
Fixpoint await_forMs {R : Type} (remote : RangeRemote R) (sched : list Event)
    (st : Scan R) : Outcome R :=
  match sched with
  | [] => Waiting st
  | Settle i :: rest => await_forMs remote rest (settle remote i st)
  | Tick :: rest =>
      match pool st with
      | [] => Done st
      | _ :: _ => await_forMs remote rest st
      end
  end.

(** [while (pool.length > 0) { await forMs(50); }  return ret;] *)
Definition poll_pool {R : Type} (remote : RangeRemote R) (sched : list Event)
    (st : Scan R) : Outcome R :=
  match pool st with
  | [] => Done st
  | _ :: _ => await_forMs remote sched st
  end.

(** [[...hint, upper].reduce((_l, _m) => { Require(_l, _m); return _m; }, lower)] *)
Definition require_hinted {R : Type} (lower : Z) (bounds : list Z) (st : Scan R)
    : Z * Scan R :=
  fold_left (fun acc _m => (_m, Require (fst acc) _m (snd acc))) bounds (lower, st).

(** [if (!hint || hint.length <= 0) { Require(lower, upper); } else { ... }]:
    the requests sent before the first test of the polling loop. *)
Definition first_requests (R : Type) (lower upper : Z) (hint : list Z) : Scan R :=
  match hint with
  | [] => Require lower upper (scan_init R)
  | _ :: _ => snd (require_hinted lower (hint ++ [upper]) (scan_init R))
  end.

(** The body of [getTableAll] once [lower], [upper] and the hints are
    BigNumbers. *)
Definition getTableAll_from {R : Type} (remote : RangeRemote R) (lower upper : Z)
    (hint : list Z) (sched : list Event) : Outcome R :=
  poll_pool remote sched (first_requests R lower upper hint).

(** [lowerNum ? new BigNumber(lowerNum) : new BigNumber(0)] *)
Definition lower_of (lowerNum : JsVal) : option Z :=
  if truthy lowerNum then BigNumber lowerNum else Some 0.

(** [upperNum && upperNum !== -1 ? new BigNumber(upperNum)
                                 : new BigNumber('18446744073709551615')] *)
Definition upper_of (upperNum : JsVal) : option Z :=
  if truthy upperNum && strict_neq_minus_one upperNum
  then BigNumber upperNum
  else Some UINT64_MAX.

Fixpoint BigNumbers (vs : list JsVal) : option (list Z) :=
  match vs with
  | [] => Some []
  | v :: rest =>
      match BigNumber v, BigNumbers rest with
      | Some z, Some zs => Some (z :: zs)
      | _, _ => None
      end
  end.

(** [getTableAll(code, tableName, scope, lowerNum, upperNum, ...hint)];
    [None] when an argument is not an integer in the sense of [BigNumber]. *)
Definition getTableAll {R : Type} (remote : RangeRemote R) (lowerNum upperNum : JsVal)
    (hint : list JsVal) (sched : list Event) : option (Outcome R) :=
  match lower_of lowerNum, upper_of upperNum, BigNumbers hint with
  | Some lower, Some upper, Some hs =>
      Some (getTableAll_from remote lower upper hs sched)
  | _, _, _ => None
  end.

(** Whether the key [k] lies between the bounds.  The lower bound belongs
    to the range; whether the upper bound does is left to
    [upper_inclusive], since the spec writes the range both as
    "[lower, upper] bounds" and as "half-open by convention". *)
Definition in_bounds (upper_inclusive : bool) (l u k : Z) : bool :=
  (l <=? k) && (if upper_inclusive then k <=? u else k <? u).

(** The rows of [table] whose key lies between the bounds. *)
Definition rows_between {R : Type} (upper_inclusive : bool) (key : R -> Z)
    (table : list R) (l u : Z) : list R :=
  filter (fun r => in_bounds upper_inclusive l u (key r)) table.

(** Modelled from the spec: the RemoteRangeReader behind [getTableRows],
    a service outside the sources.  It holds a [table] of rows, finds those
    whose key lies between the bounds, and returns at most [maxPageSize] of
    them, reporting truncation when there are more. *)
Definition range_reader {R : Type} (upper_inclusive : bool) (key : R -> Z)
    (table : list R) (maxPageSize : nat) : RangeRemote R :=
  fun l u =>
    let hits := rows_between upper_inclusive key table l u in
    Fulfilled (Some (mkTableResult (Some (firstn maxPageSize hits))
                                   (Nat.ltb maxPageSize (length hits)))).

(** ** getActions (SequenceScanner) *)

(** An entry of the action log; only [account_action_seq] is inspected. *)
Record Action : Type := mkAction {
  account_action_seq : Z;
  action_data : nat
}.

(** What [this._eos.getActions] resolves to: a falsy value, an object
    without [actions], or an object with the array [actions]. *)
Inductive Reply : Type :=
| NoReply
| NoActionsField
| Actions (acts : list Action).

(** What [await timeoutPromise(fetchTimeout, request)] does: it yields the
    reply, or throws because the timer won, or throws because the request
    itself was rejected. *)
Inductive Fetch : Type :=
| Replied (r : Reply)
| TimedOut
| Failed (msg : string).

(** The remote of [getActions].  Its answer may change from one call to the
    next: the first argument counts the calls already made. *)
Definition ActionsRemote : Type := nat -> Z -> Z -> Fetch.

(** The parameters [pos] and [offset] of one remote call. *)
Record Request : Type := mkRequest {
  r_pos : Z;
  r_offset : Z
}.

(** [acts[acts.length - 1]] *)
Definition last_action (acts : list Action) : option Action :=
  match acts with
  | [] => None
  | a :: rest => Some (last rest a)
  end.

(** The [while (true)] loop of [getActions], started at the [n]-th remote
    call.  [offset] is the parameter of that name, which only the error
    message mentions.  The second component lists the requests sent. *)
Fixpoint getActions_loop (fuel : nat) (remote : ActionsRemote) (n : nat)
    (offset pos endPos : Z) (actions : list Action)
    : Result (list Action) * list Request :=
  match fuel with
  | O => (Running, [])
  | S fuel' =>
      let request := mkRequest pos (endPos - pos) in
      match remote n pos (endPos - pos) with
      | TimedOut | Failed _ =>                                    (* catch (ex) { continue; } *)
          let next := getActions_loop fuel' remote (S n) offset pos endPos actions in
          (fst next, request :: snd next)
      | Replied NoReply | Replied NoActionsField =>
          (Thrown (ErrGetActionsFailed pos offset), [request])
      | Replied (Actions acts) =>
          let maxActionInd :=
            match last_action acts with
            | None => pos - 1
            | Some a => account_action_seq a
            end in
          if maxActionInd <? pos then (Returned actions, [request])
          else if endPos <=? maxActionInd then (Returned (actions ++ acts), [request])
          else
            let next := getActions_loop fuel' remote (S n) offset
                          (maxActionInd + 1) endPos (actions ++ acts) in
            (fst next, request :: snd next)
      end
  end.

Definition getActions (fuel : nat) (remote : ActionsRemote) (startPos offset : Z)
    : Result (list Action) * list Request :=
  getActions_loop fuel remote 0 offset startPos (startPos + offset) [].

(** Whether the sequence number of [a] lies in [[pos, pos + offset]]. *)
Definition in_window (pos offset : Z) (a : Action) : bool :=
  (pos <=? account_action_seq a) && (account_action_seq a <=? pos + offset).

(** Modelled from the spec: the RemoteSequenceReader behind
    [this._eos.getActions], a service outside the sources.  It holds the
    [log] in ascending sequence order and answers a request with the
    entries whose sequence number lies in [[pos, pos + offset]], at most
    [maxPageSize] of them (a short read). *)
Definition sequence_reader (log : list Action) (maxPageSize : nat) : ActionsRemote :=
  fun _ pos offset =>
    Replied (Actions (firstn maxPageSize (filter (in_window pos offset) log))).

(** ** getAllActionsBatch (BatchDispatcher) *)

(** A page of a batch: the position it was requested at and what [req]
    resolved to.  [cbReceive] is only given the actions. *)
Definition Page : Type := (Z * list Action)%type.

(** [i % concurrent === 0]; the remainder by zero is NaN. *)
Definition is_batch_end (i concurrent : Z) : bool :=
  if concurrent =? 0 then false else Z.rem i concurrent =? 0.

(** [req] applied to every position of [ranges] and joined by
    [Promise.all]: no value as long as one of them has none. *)
Fixpoint request_all (req : Z -> option (list Action)) (ranges : list Z)
    : option (list Page) :=
  match ranges with
  | [] => Some []
  | pos :: rest =>
      match req pos, request_all req rest with
      | Some acts, Some pages => Some ((pos, acts) :: pages)
      | _, _ => None
      end
  end.

Definition non_empty (p : Page) : bool := negb (Nat.eqb (length (snd p)) 0).

(** The callback of [reduce]: [cbReceive(acts)] while [full], which then
    becomes [full && acts.length >= count].  The calls of [cbReceive] are
    recorded in the second component. *)
Definition deliver_step (count : Z) (acc : bool * list Page) (p : Page)
    : bool * list Page :=
  let (full, received) := acc in
  (full && (count <=? Z.of_nat (length (snd p))),
   if full then received ++ [p] else received).

(** The [for (let i = 0; ; i++)] loop of [getAllActionsBatch].  [req pos]
    is what the retrying closure [req] resolves to for [pos], if it ever
    does; [received] lists the pages handed to [cbReceive] so far.  With
    [concurrent = 0] no batch ever ends: the source's loop then never
    awaits and stops when [ranges.push] fails (RangeError: Invalid array
    length); the embedding, whose list is unbounded, shows this as running
    out of fuel and is not used for that case. *)
Fixpoint batch_loop (fuel : nat) (req : Z -> option (list Action))
    (startPos count concurrent : Z) (i : Z) (ranges : list Z)
    (received : list Page) : Result bool * list Page :=
  match fuel with
  | O => (Running, received)
  | S fuel' =>
      let ranges1 := ranges ++ [startPos + i * count] in
      if is_batch_end i concurrent then
        match request_all req ranges1 with
        | None => (Running, received)
        | Some results =>
            let nonEmptyResults := filter non_empty results in
            match nonEmptyResults with
            | [] => (Returned true, received)
            | _ :: _ =>
                let (allFull, received1) :=
                  fold_left (deliver_step count) (filter non_empty results)
                            (true, received) in
                if negb allFull then (Returned true, received1)
                else batch_loop fuel' req startPos count concurrent (i + 1) [] received1
            end
        end
      else batch_loop fuel' req startPos count concurrent (i + 1) ranges1 received
  end.

(** [getAllActionsBatch(account_name, cbReceive, startPos, count, concurrent)];
    [has_cbReceive] tells whether a callback was passed. *)
Definition getAllActionsBatch (fuel : nat) (req : Z -> option (list Action))
    (has_cbReceive : bool) (startPos count concurrent : Z)
    : Result bool * list Page :=
  if negb has_cbReceive then (Returned false, [])
  else batch_loop fuel req startPos count concurrent 0 [] [].

(** The closure [req] of [getAllActionsBatch]: [getActions(account_name,
    pos, offset)] again and again until it does not throw.  The remote
    calls made on behalf of one page are counted from [n]. *)
Fixpoint req_loop (retries fuel : nat) (remote : ActionsRemote) (n : nat)
    (pos offset : Z) : option (list Action) :=
  match retries with
  | O => None
  | S retries' =>
      let run := getActions_loop fuel remote n offset pos (pos + offset) [] in
      match fst run with
      | Returned acts => Some acts
      | Thrown _ => req_loop retries' fuel remote (n + length (snd run)) pos offset
      | Running => None
      end
  end.

Definition req (retries fuel : nat) (remote : ActionsRemote) (count : Z) (pos : Z)
    : option (list Action) :=
  req_loop retries fuel remote 0 pos (count - 1).

(** The property of the dispatcher as the specification words it: no page
    positioned after a short page is ever delivered. *)
Definition nothing_after_short_page (rq : Z -> option (list Action))
    (startPos count concurrent : Z) : Prop :=
  forall fuel j short q acts,
    0 <= j ->
    rq (startPos + j * count) = Some short ->
    Z.of_nat (length short) < count ->
    In (q, acts) (snd (getAllActionsBatch fuel rq true startPos count concurrent)) ->
    q <= startPos + j * count.

(** ** checkTableMore (CursorPaginator) *)

(** The parameters of [getTableRows] that [checkTableMore] varies. *)
Record TableQuery : Type := mkTableQuery {
  tq_limit : Z;
  tq_lower_bound : JsVal;
  tq_upper_bound : JsVal;
  tq_index_position : Z
}.

Definition TableRemote : Type := TableQuery -> Settled (option (TableResult Row)).

(** [ret[ret.length - 1]] of a non-empty array with first element [first]. *)
Definition last_row (first : Row) (rest : list Row) : Row := last rest first.

(** [checkTableMore(code, tableName, scope, primaryKey, limit, lower_bound,
    upper_bound, index_position)]; [getAbi] is what [this.getAbi(code)]
    settles to when the error path awaits it. *)
Fixpoint checkTableMore (fuel : nat) (getTableRows : TableRemote)
    (getAbi : Settled unit) (primaryKey : string) (limit : Z)
    (lower_bound upper_bound : JsVal) (index_position : Z) : Result (list Row) :=
  match fuel with
  | O => Running
  | S fuel' =>
      match getTableRows (mkTableQuery limit lower_bound upper_bound index_position) with
      | Rejected msg => Thrown (ErrRemote msg)
      | Fulfilled None => Thrown ErrTypeError               (* [result.more] of a falsy result *)
      | Fulfilled (Some result) =>
          let ret := match rows result with Some rs => rs | None => [] end in
          if more result &&
             ((limit <=? 0) ||
              match rows result with
              | Some rs => Z.of_nat (length rs) <? limit
              | None => false
              end)
          then
            match ret with
            | [] => Thrown ErrTypeError                      (* [ret[0][primaryKey]] *)
            | first :: rest =>
                let from := get_field first primaryKey in
                let to := get_field (last_row first rest) primaryKey in
                if negb (truthy from) || negb (truthy to) then
                  match getAbi with
                  | Rejected msg => Thrown (ErrRemote msg)
                  | Fulfilled _ => Thrown (ErrCheckMore primaryKey)
                  end
                else
                  match checkTableMore fuel' getTableRows getAbi primaryKey
                          (limit - Z.of_nat (length ret) + 1) to upper_bound
                          index_position with
                  | Returned partResult => Returned (ret ++ tl partResult)  (* [partResult.splice(1)] *)
                  | Thrown e => Thrown e
                  | Running => Running
                  end
            end
          else Returned ret
      end
  end.

(** The numeric primary key of a row; 0 when the field is not a number. *)
Definition key_of (primaryKey : string) (row : Row) : Z :=
  match BigNumber (get_field row primaryKey) with
  | Some k => k
  | None => 0
  end.

(** The rows at or after the lower bound. *)
Definition cursor_hits (primaryKey : string) (table : list Row) (from : Z) : list Row :=
  filter (fun r => from <=? key_of primaryKey r) table.

(** The most rows that one answer may carry. *)
Definition cursor_page_size (truncateEvery : nat) (limit : Z) : nat :=
  if limit <=? 0 then truncateEvery else Nat.min (Z.to_nat limit) truncateEvery.

(** Modelled from the spec: the RemoteRangeReader as [checkTableMore] uses
    it, a service outside the sources.  A query returns the rows of
    [table] from [lower_bound] on, in the order of the table, at most
    [limit] of them (when [limit] is positive) and at most [truncateEvery],
    and reports [more] when rows remain. *)
Definition cursor_reader (primaryKey : string) (table : list Row)
    (truncateEvery : nat) : TableRemote :=
  fun q =>
    let from := match BigNumber (tq_lower_bound q) with Some k => k | None => 0 end in
    let hits := cursor_hits primaryKey table from in
    let page_size := cursor_page_size truncateEvery (tq_limit q) in
    Fulfilled (Some (mkTableResult (Some (firstn page_size hits))
                                   (Nat.ltb page_size (length hits)))).

(** The order of a table by its primary key. *)
Definition row_lt (primaryKey : string) (r1 r2 : Row) : Prop :=
  key_of primaryKey r1 < key_of primaryKey r2.

(** The primary key of the row is a number other than zero. *)
Definition has_cursor_key (primaryKey : string) (r : Row) : Prop :=
  exists k, get_field r primaryKey = JNum k /\ k <> 0.

(** What a caller asks for with [limit]: everything when it is not
    positive, the first [limit] rows otherwise. *)
Definition up_to_limit (limit : Z) (hits : list Row) : list Row :=
  if limit <=? 0 then hits else firstn (Z.to_nat limit) hits.

(** ** Invariants of the range scan *)

(** The rows that the outstanding queries [qs] stand for, with both bounds
    of a query belonging to its range. *)
Definition span {R : Type} (key : R -> Z) (table : list R) (qs : list Query) : list R :=
  flat_map (fun q => rows_between true key table (q_lower q) (q_upper q)) qs.

(** A bound on the number of answers still to come. *)
Definition weight (qs : list Query) : nat :=
  fold_right (fun q acc => (Z.to_nat (2 * (q_upper q - q_lower q) + 1) + acc)%nat) 0%nat qs.

(** [pool] holds exactly the promises of the outstanding queries, none of
    which is degenerate, and no rejection has happened. *)
Definition well_formed {R : Type} (st : Scan R) : Prop :=
  pool st = map q_id (inflight st) /\
  NoDup (pool st) /\
  Forall (fun id => (id < next_id st)%nat) (pool st) /\
  Forall (fun q => q_lower q < q_upper q) (inflight st) /\
  unhandled st = [].

(** A remote that answers every query, in full unless it reports
    truncation, and truncates only ranges of four keys or more. *)
Definition faithful_reader {R : Type} (key : R -> Z) (table : list R)
    (remote : RangeRemote R) : Prop :=
  forall l u, l < u ->
    exists r, remote l u = Fulfilled (Some r) /\
      (more r = false -> rows r = Some (rows_between true key table l u)) /\
      (more r = true -> 3 <= u - l).

(** The rows of the ranges that the hinted start requires: consecutive
    bounds, degenerate pieces left out. *)
Fixpoint chain_rows {R : Type} (key : R -> Z) (table : list R) (l : Z)
    (bounds : list Z) : list R :=
  match bounds with
  | [] => []
  | m :: rest =>
      (if l <? m then rows_between true key table l m else [])
        ++ chain_rows key table m rest
  end.

(** [l <= b1 <= b2 <= ...] *)
Fixpoint ascending_from (l : Z) (bounds : list Z) : Prop :=
  match bounds with
  | [] => True
  | m :: rest => l <= m /\ ascending_from m rest
  end.

(** Every outstanding query is over an [allowed] range and every row
    returned so far is [good]. *)
Definition confined {R : Type} (allowed : Z -> Z -> Prop) (good : R -> Prop)
    (st : Scan R) : Prop :=
  Forall (fun q => allowed (q_lower q) (q_upper q)) (inflight st) /\
  Forall good (ret st).

(** The answers of [remote] over the [allowed] ranges only carry [good]
    rows, and the halves of an [allowed] range that is truncated are
    [allowed] again. *)
Definition confining {R : Type} (remote : RangeRemote R)
    (allowed : Z -> Z -> Prop) (good : R -> Prop) : Prop :=
  forall l u, allowed l u ->
    match remote l u with
    | Fulfilled (Some r) =>
        if more r then
          (l < bisect_mid l u - 1 -> allowed l (bisect_mid l u - 1)) /\
          (bisect_mid l u < u -> allowed (bisect_mid l u) u)
        else
          match rows r with
          | Some rs => Forall good rs
          | None => True
          end
    | _ => True
    end.

(** The shared variables as an outcome shows them. *)
Definition final {R : Type} (o : Outcome R) : Scan R :=
  match o with
  | Done st => st
  | Waiting st => st
  end.

Definition is_done {R : Type} (o : Outcome R) : bool :=
  match o with
  | Done _ => true
  | Waiting _ => false
  end.

(** ** Inputs of the scenarios *)

(** Rows that are nothing but their key. *)
Definition key_id (k : Z) : Z := k.

Definition keys_0_9 : list Z := [0; 1; 2; 3; 4; 5; 6; 7; 8; 9].

(** A schedule that answers the oldest outstanding query [n] times and
    then lets the timer fire. *)
Definition answer_all (n : nat) : list Event := repeat (Settle 0) n ++ [Tick].

(** A remote that answers the query from 0 with two rows and rejects the
    query from 5. *)
Definition rejecting_reader : RangeRemote Z :=
  fun l u =>
    if l =? 5 then Rejected "connection reset"%string
    else Fulfilled (Some (mkTableResult (Some [1; 2]) false)).

(** A remote that reports truncation for every query. *)
Definition truncating_reader : RangeRemote Z :=
  fun l u => Fulfilled (Some (mkTableResult (Some []) true)).

(** The ranges that the scan of [[0, 10]] over [keys_0_9] goes through when
    a page holds four rows and the upper bound is excluded, and the keys
    that none of them yields. *)
Definition scenario_ranges (l u : Z) : Prop :=
  In (l, u) [(0, 10); (0, 4); (5, 10); (5, 7); (8, 10)].

Definition not_4_nor_7 (k : Z) : Prop := k <> 4 /\ k <> 7.

(** The ranges that the scan of [[0, 2]] over the keys 0, 1, 2 goes through
    when a page holds two rows and the upper bound is included. *)
Definition small_ranges (l u : Z) : Prop := In (l, u) [(0, 2); (1, 2)].

Definition not_0 (k : Z) : Prop := k <> 0.

(** The bounds of the outstanding queries, oldest first. *)
Definition bounds_of (qs : list Query) : list (Z * Z) :=
  map (fun q => (q_lower q, q_upper q)) qs.

(** The order of the action log. *)
Definition seq_lt (a b : Action) : Prop :=
  account_action_seq a < account_action_seq b.

(** The request did not produce a reply: [await] threw into the [catch]. *)
Definition is_rejection (f : Fetch) : bool :=
  match f with
  | TimedOut | Failed _ => true
  | Replied _ => false
  end.

(** The reply carries no [actions]. *)
Definition is_application_error (f : Fetch) : bool :=
  match f with
  | Replied NoReply | Replied NoActionsField => true
  | _ => false
  end.

(** [entry n] is the log entry with sequence number [n]. *)
Definition entry (n : Z) : Action := mkAction n 0.

(** A remote whose first call fails with a transport error, whose second
    call times out, and which then answers from the log 0, 1, ..., 9. *)
Definition flaky_reader : ActionsRemote :=
  fun n pos offset =>
    match n with
    | O => Failed "connection reset"%string
    | S O => TimedOut
    | _ => sequence_reader (map entry keys_0_9) 100 n pos offset
    end.

(** ** Invariants of the batch dispatcher *)

Definition page_lt (p q : Page) : Prop := fst p < fst q.

(** [acts.length >= count] *)
Definition is_full (count : Z) (p : Page) : Prop :=
  count <= Z.of_nat (length (snd p)).

(** The page is what [req] resolved to at its position, and it passed the
    filter of the non-empty results. *)
Definition answered_by (rq : Z -> option (list Action)) (p : Page) : Prop :=
  rq (fst p) = Some (snd p) /\ snd p <> [].

(** At the head of the loop: the positions collected for the next batch
    ascend and lie below the next position; everything received lies below
    them, in ascending order, and was a full page. *)
Definition batch_invariant (rq : Z -> option (list Action)) (startPos count i : Z)
    (ranges : list Z) (received : list Page) : Prop :=
  StronglySorted Z.lt ranges /\
  Forall (fun x => x < startPos + i * count) ranges /\
  (forall p x, In p received -> In x ranges -> fst p < x) /\
  Forall (fun p => fst p < startPos + i * count) received /\
  StronglySorted page_lt received /\
  Forall (answered_by rq) received /\
  Forall (is_full count) received.

(** What the dispatcher guarantees about the pages it has handed over:
    ascending positions, non-empty answers of [req], and all of them full
    except possibly the last one, after which the scan has ended. *)
Definition delivered_in_order (rq : Z -> option (list Action)) (count : Z)
    (r : Result bool) (received : list Page) : Prop :=
  StronglySorted page_lt received /\
  Forall (answered_by rq) received /\
  (Forall (is_full count) received \/
   exists before p, received = before ++ [p] /\ Forall (is_full count) before /\
                    r = Returned true).

(** [acts.length >= count], as a test. *)
Definition is_fullb (count : Z) (p : Page) : bool :=
  count <=? Z.of_nat (length (snd p)).

(** The pages of a batch that are handed over, in the words of the
    specification: each page as long as all pages before it were full. *)
Fixpoint handed_over (count : Z) (pages : list Page) : list Page :=
  match pages with
  | [] => []
  | p :: rest => p :: (if is_fullb count p then handed_over count rest else [])
  end.

(** The log 0, 1, 4, 5: nothing at the positions 2 and 3. *)
Definition gap_log : list Action := map entry [0; 1; 4; 5].

(** A table row with the numeric primary key [id] and a payload. *)
Definition row_of_key (k : Z) : Row :=
  [("id"%string, JNum k); ("owner"%string, JStr "alice")].

Definition keys_1_20 : list Z :=
  [1; 2; 3; 4; 5; 6; 7; 8; 9; 10; 11; 12; 13; 14; 15; 16; 17; 18; 19; 20].

Definition rows_1_20 : list Row := map row_of_key keys_1_20.



(** Twenty rows whose first primary key is 0. *)
Definition rows_0_19 : list Row := map (fun k => row_of_key (k - 1)) keys_1_20.

(** ** Completions with an error type of their own *)

(** What a routine outside the enumeration engine has done when it is
    observed: it returned, it threw, or it still runs. *)
Inductive Completion (E A : Type) : Type :=
| Normal (v : A)
| Abrupt (e : E)
| Unfinished.
Arguments Normal {E A} v.
Arguments Abrupt {E A} e.
Arguments Unfinished {E A}.

(** ** TranscalPayload ([src/utils/transcalPayload.js], as listed in
    [doc/src_utils_transcalPayload.js.html]) *)

(** A JavaScript string as the sequence of its characters. *)
Definition JsString : Type := list ascii.

Fixpoint indexOf_from (c : ascii) (s : JsString) (i : Z) : Z :=
  match s with
  | [] => -1
  | x :: t => if Ascii.eqb x c then i else indexOf_from c t (i + 1)
  end.

(** [s.indexOf(c, position)] for a one-character [c]; [position] is
    clamped to [[0, s.length]]. *)
Definition indexOf (c : ascii) (s : JsString) (position : Z) : Z :=
  let p := Z.min (Z.max position 0) (Z.of_nat (length s)) in
  indexOf_from c (skipn (Z.to_nat p) s) p.

(** [s.substr(start, length)]: a negative [start] counts from the end, and
    a [length] that is not positive gives the empty string. *)
Definition substr (s : JsString) (start len : Z) : JsString :=
  let size := Z.of_nat (length s) in
  let from := if start <? 0 then Z.max (size + start) 0 else Z.min start size in
  let n := Z.min (Z.max len 0) (size - from) in
  firstn (Z.to_nat n) (skipn (Z.to_nat from) s).

(** [parts.join(sep)] *)
Fixpoint join (sep : ascii) (parts : list JsString) : JsString :=
  match parts with
  | [] => []
  | p :: rest =>
      match rest with
      | [] => p
      | _ :: _ => p ++ sep :: join sep rest
      end
  end.

(** [s[i] === c]; [s[i]] is [undefined] past the end. *)
Definition char_at_is (s : JsString) (i : nat) (c : ascii) : bool :=
  match nth_error s i with
  | Some x => Ascii.eqb x c
  | None => false
  end.

(** The fields of a [TranscalPayload]. *)
Record TranscalPayload : Type := mkPayload {
  func : JsString;
  args : list JsString
}.

(** [memo()]: [`@[${this.func}:${this.args.join(',')}]`] *)
Definition memo (p : TranscalPayload) : JsString :=
  "@"%char :: "["%char :: func p ++ ":"%char :: join ","%char (args p) ++ ["]"%char].

Inductive ParseError : Type :=
| MemoTooShort      (* "parse transcal error: the memo is too short." *)
| FormationError    (* "parse transcal error: formation error." *)
| BadTypeMark       (* "parse transcal error: type mark must be @ or #." *)
| NoEndMark.        (* "parse transcal error: cannot find end mark ']'." *)

(** The [while (true)] loop of [parseMemo], which cuts the arguments at the
    commas before [posEnd]. *)
Fixpoint parseMemo_loop (fuel : nat) (memo : JsString) (posEnd pos posPrev : Z)
    (args : list JsString) : option (list JsString) :=
  match fuel with
  | O => None
  | S fuel' =>
      let pos1 := indexOf ","%char memo pos in
      if (posEnd <=? pos1) || (pos1 <? 0)
      then Some (args ++ [substr memo posPrev (posEnd - posPrev)])
      else parseMemo_loop fuel' memo posEnd (pos1 + 1) (pos1 + 1)
             (args ++ [substr memo posPrev (pos1 - posPrev)])
  end.

(** [parseMemo(memo)], and [TranscalPayload.parse(memo)], which calls it on
    a fresh payload: the fields it sets, or the error it throws. *)
Definition parseMemo (fuel : nat) (memo : JsString)
    : Completion ParseError TranscalPayload :=
  if Z.of_nat (length memo) <? 4 then Abrupt MemoTooShort
  else if negb (char_at_is memo 1 "["%char) || char_at_is memo 2 "]"%char
  then Abrupt FormationError
  else if negb (char_at_is memo 0 "@"%char) && negb (char_at_is memo 0 "#"%char)
  then Abrupt BadTypeMark
  else
    let posCol := indexOf ":"%char memo 0 in
    let posEnd := indexOf "]"%char memo 0 in
    if posEnd <? 0 then Abrupt NoEndMark
    else if posCol <? 0 then Normal (mkPayload (substr memo 2 (posEnd - 2)) [])
    else
      match parseMemo_loop fuel memo posEnd (posCol + 1) (posCol + 1) [] with
      | Some args => Normal (mkPayload (substr memo 2 (posCol - 2)) args)
      | None => Unfinished
      end.

(** A string without the character [c]. *)
Definition free_of (c : ascii) (s : JsString) : Prop := ~ In c s.

(** A payload that [memo] writes unambiguously: no [:] and no closing
    bracket in the function name, at least one argument, no comma and no
    closing bracket in an argument. *)
Definition plain_payload (p : TranscalPayload) : Prop :=
  free_of ":"%char (func p) /\ free_of "]"%char (func p) /\
  args p <> [] /\
  Forall (fun a => free_of ","%char a /\ free_of "]"%char a) (args p).

(** What [parseMemo] accepts: four characters at least, a type mark [@] or
    [#], an opening bracket, something else than a closing bracket, and a
    closing bracket somewhere. *)
Definition well_marked (memo : JsString) : Prop :=
  (4 <= length memo)%nat /\
  (nth_error memo 0 = Some "@"%char \/ nth_error memo 0 = Some "#"%char) /\
  nth_error memo 1 = Some "["%char /\
  nth_error memo 2 <> Some "]"%char /\
  In "]"%char memo.

(** ** Failures of the account routines *)

Inductive Failure : Type :=
| RemoteFailure (msg : string)          (* a rejection of a remote call, passed on *)
| TypeFailure                           (* property access on undefined or null *)
| RecoverFailure (msg : string)         (* [Ecc.recover] threw *)
| ValidatorFailure (msg : string)       (* a plugin's validator threw or was rejected *)
| PermissionNotFound (account_name : string)     (* "cannot find the permission of ..." *)
| RecentActionsNotFound.                (* "getActionCount failed: cannot find recent actions of ..." *)

(** ** Numbers beyond 2^53 *)

(** The double nearest to the integer [x], a tie going to the even
    significand: what an arithmetic operation on numbers yields when its
    exact result is [x].  Integers up to 2^53 in magnitude are doubles and
    are left as they are.  (Doubles end at 2^1024; the routines do not get
    there.) *)
Definition round_double (x : Z) : Z :=
  let a := Z.abs x in
  let e := Z.log2 a - 52 in
  if e <=? 0 then x
  else
    let q := a / 2 ^ e in
    let r := a mod 2 ^ e in
    let half := 2 ^ (e - 1) in
    let q1 := if r <? half then q
              else if half <? r then q + 1
              else if Z.even q then q else q + 1 in
    Z.sgn x * (q1 * 2 ^ e).

(** ** waitTx *)

(** What [await this._eos.getTransaction(_txID)] does: it yields a value,
    [None] standing for a falsy one, or it throws the reason of the
    rejection, [None] standing for [null] or [undefined], the reasons of
    which [err.message] cannot be read. *)
Inductive TxAnswer (T : Type) : Type :=
| TxFulfilled (tx : option T)
| TxRejected (reason : option string).
Arguments TxFulfilled {T} tx.
Arguments TxRejected {T} reason.

(** [checkTx(_txID, round)], the closure of [waitTx], entered when [calls]
    requests have been made.  [getTransaction n] is what the [n]-th call of
    [this._eos.getTransaction(_txID)] does.  The result is the transaction
    or [null], or the [TypeError] of [err.message] in the [catch] block,
    with the number of requests made. *)
Fixpoint checkTx {T : Type} (fuel : nat) (getTransaction : nat -> TxAnswer T)
    (maxRound round : Z) (calls : nat) : Completion Failure (option T) * nat :=
  match fuel with
  | O => (Unfinished, calls)
  | S fuel' =>
      match getTransaction calls with
      | TxFulfilled (Some tx) => (Normal (Some tx), S calls)      (* if (tx) return tx *)
      | TxRejected None => (Abrupt TypeFailure, S calls)          (* err.message *)
      | TxFulfilled None | TxRejected (Some _) =>
          if maxRound <=? round then (Normal None, S calls)       (* round >= maxRound *)
          else checkTx fuel' getTransaction maxRound (round_double (round + 1))
                 (S calls)
      end
  end.

(** [waitTx(txID, maxRound, timeSpanMS)] *)
Definition waitTx {T : Type} (fuel : nat) (getTransaction : nat -> TxAnswer T)
    (maxRound : Z) : Completion Failure (option T) * nat :=
  checkTx fuel getTransaction maxRound 0 0.

(** The request yielded no transaction, and the routine goes on: a falsy
    answer, or a rejection with a reason. *)
Definition no_transaction {T : Type} (a : TxAnswer T) : Prop :=
  match a with
  | TxFulfilled None | TxRejected (Some _) => True
  | _ => False
  end.

(** ** Accounts and signatures *)

(** [{actor, permission}] of an entry of [required_auth.accounts]. *)
Record PermissionLevel : Type := mkPermissionLevel {
  actor : string;
  permission : string
}.

(** [required_auth]; of an entry of [keys] only its field [key] is kept. *)
Record Authority : Type := mkAuthority {
  accounts : list PermissionLevel;
  keys : list string
}.

Record Permission : Type := mkPermission {
  perm_name : string;
  required_auth : Authority
}.

(** What [getAccountInfo] resolves to; [permissions] may be missing. *)
Record AccountInfo : Type := mkAccountInfo {
  permissions : option (list Permission)
}.

(** [this._eos.getAccount], whose answer may change from one call to the
    next: the first argument counts the calls already made. *)
Definition AccountRemote : Type := nat -> string -> Settled AccountInfo.

(** [(account_name, recoverKey, chain) => ...]: whether the value that the
    validator resolves to is truthy, or the message it fails with. *)
Definition Validator : Type := string -> string -> Settled bool.

(** An [ISignPlugin]: [validatorProvider[account]], if there is one. *)
Record ISignPlugin : Type := mkSignPlugin {
  validatorProvider : string -> option Validator
}.

(** [`${acc.permission.actor}@${acc.permission.permission}`] *)
Definition accStr (acc : PermissionLevel) : string :=
  (actor acc ++ "@" ++ permission acc)%string.

(** [permissions.find(p => p.perm_name === authority)] *)
Definition find_permission (authority : string) (ps : list Permission)
    : option Permission :=
  find (fun p => (perm_name p =? authority)%string) ps.

(** The inner [for] loop of [validateSign] over [accStrs], for the plugin
    of index [iPlg].  [invoked] lists the validators called so far, by
    plugin index and account string. *)
Fixpoint try_accounts (provider : string -> option Validator)
    (account_name recoverKey : string) (iPlg : nat) (accStrs : list string)
    (invoked : list (nat * string))
    : Completion Failure (bool * list (nat * string)) :=
  match accStrs with
  | [] => Normal (false, invoked)
  | account :: rest =>
      match provider account with
      | None => try_accounts provider account_name recoverKey iPlg rest invoked
      | Some validator =>
          match validator account_name recoverKey with
          | Rejected msg => Abrupt (ValidatorFailure msg)
          | Fulfilled true => Normal (true, invoked ++ [(iPlg, account)])
          | Fulfilled false =>
              try_accounts provider account_name recoverKey iPlg rest
                (invoked ++ [(iPlg, account)])
          end
      end
  end.

(** The outer [for] loop of [validateSign] over [signPlugins]. *)
Fixpoint try_plugins (signPlugins : list ISignPlugin)
    (account_name recoverKey : string) (iPlg : nat) (accStrs : list string)
    (invoked : list (nat * string))
    : Completion Failure (option string * list (nat * string)) :=
  match signPlugins with
  | [] => Normal (None, invoked)
  | signPlugin :: rest =>
      match try_accounts (validatorProvider signPlugin) account_name recoverKey
              iPlg accStrs invoked with
      | Normal (true, invoked1) => Normal (Some recoverKey, invoked1)
      | Normal (false, invoked1) =>
          try_plugins rest account_name recoverKey (S iPlg) accStrs invoked1
      | Abrupt e => Abrupt e
      | Unfinished => Unfinished
      end
  end.

(** [validateSign(signature, message, account_name, authority,
    ...signPlugins)]: the key returned, or [None] for [undefined], with the
    validators invoked.  [recoverSign] is [Ecc.recover], which returns a
    key or throws. *)
Definition validateSign (recoverSign : string -> string -> Settled string)
    (getAccountInfo : AccountRemote) (signature message account_name authority : string)
    (signPlugins : list ISignPlugin)
    : Completion Failure (option string * list (nat * string)) :=
  match recoverSign signature message with
  | Rejected msg => Abrupt (RecoverFailure msg)
  | Fulfilled recoverKey =>
      match getAccountInfo O account_name with
      | Rejected msg => Abrupt (RemoteFailure msg)
      | Fulfilled info =>
          match permissions info with
          | None => Normal (None, [])                       (* if (!permissions) return *)
          | Some ps =>
              match find_permission authority ps with
              | None => Abrupt TypeFailure                  (* [perm.required_auth] *)
              | Some perm =>
                  match find (fun k => (k =? recoverKey)%string)
                             (keys (required_auth perm)) with
                  | Some key => Normal (Some key, [])
                  | None =>
                      match signPlugins with
                      | [] => Normal (None, [])
                      | _ :: _ =>
                          try_plugins signPlugins account_name recoverKey O
                            (map accStr (accounts (required_auth perm))) []
                      end
                  end
              end
          end
      end
  end.

(** [getPubKeys(account_name, authority)] at the [n]-th call of the remote. *)
Definition getPubKeys (getAccountInfo : AccountRemote) (n : nat)
    (account_name authority : string) : Completion Failure (list string) :=
  match getAccountInfo n account_name with
  | Rejected msg => Abrupt (RemoteFailure msg)
  | Fulfilled accountInfo =>
      match permissions accountInfo with
      | None => Abrupt TypeFailure                          (* [accountInfo.permissions.find] *)
      | Some ps =>
          match find_permission authority ps with
          | None => Abrupt (PermissionNotFound account_name)
          | Some permission => Normal (keys (required_auth permission))
          end
      end
  end.

(** What entitles [account_name] to the recovered key: the authority lists
    the key, or a plugin has a validator for one of the authority's
    accounts that accepts it. *)
Definition entitled (perm : Permission) (signPlugins : list ISignPlugin)
    (account_name recoverKey : string) : Prop :=
  In recoverKey (keys (required_auth perm)) \/
  exists signPlugin acc validator,
    In signPlugin signPlugins /\
    In acc (accounts (required_auth perm)) /\
    validatorProvider signPlugin (accStr acc) = Some validator /\
    validator account_name recoverKey = Fulfilled true.

(** No validator of the plugins fails for the accounts of the authority. *)
Definition validators_answer (perm : Permission) (signPlugins : list ISignPlugin)
    (account_name recoverKey : string) : Prop :=
  forall signPlugin acc validator msg,
    In signPlugin signPlugins ->
    In acc (accounts (required_auth perm)) ->
    validatorProvider signPlugin (accStr acc) = Some validator ->
    validator account_name recoverKey <> Rejected msg.

(** ** getActionCount *)

(** [getActionMaxSeq(account_name)]; [getRecentActions] is what
    [this._eos.getActions({account_name})] settles to. *)
Definition getActionMaxSeq (getRecentActions : Settled Reply) : Completion Failure Z :=
  match getRecentActions with
  | Rejected msg => Abrupt (RemoteFailure msg)
  | Fulfilled NoReply | Fulfilled NoActionsField => Abrupt RecentActionsNotFound
  | Fulfilled (Actions acts) =>
      Normal match last_action acts with
             | None => -1
             | Some a => account_action_seq a
             end
  end.

(** [getActionCount(account_name)] *)
Definition getActionCount (getRecentActions : Settled Reply) : Completion Failure Z :=
  match getActionMaxSeq getRecentActions with
  | Normal maxSeq => Normal (maxSeq + 1)
  | Abrupt e => Abrupt e
  | Unfinished => Unfinished
  end.

(** ** checkTable *)

(** [checkTable(code, tableName, scope, limit, lower_bound, upper_bound,
    index_position)]: the rows of the one page it reads, and whether it
    warned that [more] was set. *)
Definition checkTable (getTableRows : TableRemote) (limit : Z)
    (lower_bound upper_bound : JsVal) (index_position : Z)
    : Result (list Row * bool) :=
  match getTableRows (mkTableQuery limit lower_bound upper_bound index_position) with
  | Rejected msg => Thrown (ErrRemote msg)
  | Fulfilled None => Thrown ErrTypeError                   (* [result.more] of a falsy result *)
  | Fulfilled (Some result) =>
      let ret := match rows result with Some rs => rs | None => [] end in
      Returned (ret,
                more result &&
                ((limit <=? 0) ||
                 match rows result with
                 | Some rs => Z.of_nat (length rs) <? limit
                 | None => false
                 end))
  end.

(** ** getTableByScope *)

(** The body of the request, which is built once. *)
Record ScopeParams : Type := mkScopeParams {
  sp_code : string;
  sp_table : string;
  sp_lower_bound : JsVal;
  sp_upper_bound : JsVal;
  sp_limit : Z
}.

(** [rsp.data]: the rows, opaque here, and the field [more]. *)
Record ScopeData : Type := mkScopeData {
  scope_rows : list Row;
  scope_more : JsVal
}.

(** [req.post(api, params)]: what the [n]-th call settles to, [None]
    standing for a response without [data]. *)
Definition ScopeRemote : Type := nat -> ScopeParams -> Settled (option ScopeData).

(** [rsp.data.more === ''] *)
Definition no_more (d : ScopeData) : bool :=
  match scope_more d with
  | JStr s => (s =? "")%string
  | _ => false
  end.

(** The [while (true)] loop of [getTableByScope], entered when [n] requests
    have been made and [ret] holds their answers.  The second component
    lists the request bodies sent. *)
Fixpoint getTableByScope_loop (fuel : nat) (post : ScopeRemote) (params : ScopeParams)
    (n : nat) (ret : list ScopeData) : Result (list ScopeData) * list ScopeParams :=
  match fuel with
  | O => (Running, [])
  | S fuel' =>
      match post n params with
      | Rejected msg => (Thrown (ErrRemote msg), [params])
      | Fulfilled None => (Thrown ErrTypeError, [params])   (* [rsp.data.more] *)
      | Fulfilled (Some data) =>
          if no_more data then (Returned (ret ++ [data]), [params])
          else
            let next := getTableByScope_loop fuel' post params (S n) (ret ++ [data]) in
            (fst next, params :: snd next)
      end
  end.

(** [getTableByScope(host, code, table, lower_bound, upper_bound, limit)] *)
Definition getTableByScope (fuel : nat) (post : ScopeRemote) (code table : string)
    (lower_bound upper_bound : JsVal) (limit : Z)
    : Result (list ScopeData) * list ScopeParams :=
  getTableByScope_loop fuel post (mkScopeParams code table lower_bound upper_bound limit)
    0 [].

(** ** An account whose authority names a contract *)

(** The authority [active] of the account: one key, and the permission
    [dapp@eosio.code]. *)
Definition active_permission : Permission :=
  mkPermission "active"
    (mkAuthority [mkPermissionLevel "dapp" "eosio.code"] ["EOS5owner"%string]).

Definition account_reader : AccountRemote :=
  fun _ _ => Fulfilled (mkAccountInfo (Some [active_permission])).

(** A plugin that accepts every key on behalf of [dapp@eosio.code]. *)
Definition dapp_plugin : ISignPlugin :=
  mkSignPlugin (fun account =>
    if (account =? "dapp@eosio.code")%string
    then Some (fun _ _ => Fulfilled true)
    else None).

(** [Ecc.recover] yielding a key that the authority does not list. *)
Definition recover_session_key : string -> string -> Settled string :=
  fun _ _ => Fulfilled "EOS7session"%string.

(** ** The pages of a scan over a dense log *)

(** The integers [b, b + 1, ..., b + n - 1]. *)
Fixpoint indices (b : Z) (n : nat) : list Z :=
  match n with
  | O => []
  | S n' => b :: indices (b + 1) n'
  end.

(** The position of the [j]-th page of [getAllActionsBatch]. *)
Definition page_pos (startPos count j : Z) : Z := startPos + j * count.

(** The log holds the actions of sequence numbers 0, 1, 2, ... in this
    order, as an account's log does. *)
Definition dense (log : list Action) : Prop :=
  map account_action_seq log = map Z.of_nat (seq 0 (length log)).

(** The entries of the log from [startPos] on. *)
Definition actions_from (startPos : Z) (log : list Action) : list Action :=
  filter (fun a => startPos <=? account_action_seq a) log.

(** The [j]-th page of a scan whose answers are [L 0], [L 1], ... *)
Definition batch_page (startPos count : Z) (L : Z -> list Action) (j : Z) : Page :=
  (page_pos startPos count j, L j).

Definition batch_pages (startPos count : Z) (L : Z -> list Action) (b : Z) (n : nat)
    : list Page :=
  map (batch_page startPos count L) (indices b n).

(** The non-empty pages up to the page of index [K]. *)
Definition expected_pages (startPos count : Z) (L : Z -> list Action) (K : Z)
    : list Page :=
  filter non_empty (batch_pages startPos count L 0 (Z.to_nat (K + 1))).

(** At the head of the loop of [getAllActionsBatch], when the pages before
    the index [K] are full and those after it empty: the batch being
    collected starts at [b], a batch end [e] lies ahead within [concurrent]
    steps of [b], and what has been received are the non-empty pages before
    [b]. *)
Definition scanning (startPos count concurrent : Z) (L : Z -> list Action) (K : Z)
    (i : Z) (ranges : list Z) (received : list Page) : Prop :=
  exists b n e,
    0 <= b /\ i = b + Z.of_nat n /\
    ranges = map (page_pos startPos count) (indices b n) /\
    received = filter non_empty (batch_pages startPos count L 0 (Z.to_nat b)) /\
    i <= e < b + concurrent /\ is_batch_end e concurrent = true /\
    b <= K + concurrent.

(** ** checkTableRange and checkTableItem *)

Inductive RangeFailure : Type :=
| InvalidRange (length : Z)             (* "range error: length(...) must larger than 0" *)
| EncodeNameFailure (msg : string)      (* [encodeName] threw *)
| CheckTableFailure (e : Error).        (* what [checkTable] threw *)

(** [x.toString()] of an integer below 1e21: its decimal digits. *)
Definition to_decimal (z : Z) : string :=
  DecimalString.NilZero.string_of_int (Z.to_int z).

(** [new BigNumber(n)] of a number, which the library reads through its
    decimal text: the integer itself up to 2^53 in magnitude; beyond, the
    text is not modelled ([None]). *)
Definition BigNumber_of_number (n : Z) : option Z :=
  if Z.abs n <=? 2 ^ 53 then Some n else None.

(** The upper bound that [checkTableRange] passes on: [from + length],
    an addition of doubles, for a number, and otherwise
    [new BigNumber(Eos.modules.format.encodeName(from, false)).plus(length).toString()].
    [encodeName] is the function of eosjs: the 64-bit number whose digits
    it returns, or the message it throws with.  There is no result where
    the embedding does not follow the library ([None]). *)
Definition range_upper (encodeName : JsVal -> Settled Z) (from : JsVal) (length : Z)
    : option (Completion RangeFailure JsVal) :=
  match from with
  | JNum n => Some (Normal (JNum (round_double (n + length))))
  | _ =>
      match encodeName from with
      | Rejected msg => Some (Abrupt (EncodeNameFailure msg))
      | Fulfilled name =>
          if (0 <=? name) && (name <? 2 ^ 64) then
            match BigNumber_of_number length with
            | Some len => Some (Normal (JStr (to_decimal (name + len))))
            | None => None
            end
          else None
      end
  end.

(** [checkTableRange(code, tableName, scope, from, length, index_position)] *)
Definition checkTableRange (encodeName : JsVal -> Settled Z) (getTableRows : TableRemote)
    (from : JsVal) (length index_position : Z)
    : option (Completion RangeFailure (list Row)) :=
  if length <? 0 then Some (Abrupt (InvalidRange length))
  else
    match range_upper encodeName from length with
    | None => None
    | Some (Abrupt e) => Some (Abrupt e)
    | Some Unfinished => Some Unfinished
    | Some (Normal upper) =>
        match checkTable getTableRows length from upper index_position with
        | Returned (rows, _) => Some (Normal rows)
        | Thrown e => Some (Abrupt (CheckTableFailure e))
        | Running => Some Unfinished
        end
    end.

(** [checkTableItem(code, tableName, scope, key)]: [rows[0]], which is
    [undefined] when no row came back. *)
Definition checkTableItem (encodeName : JsVal -> Settled Z) (getTableRows : TableRemote)
    (key : JsVal) : option (Completion RangeFailure (option Row)) :=
  match checkTableRange encodeName getTableRows key 1 1 with
  | None => None
  | Some (Normal rows) => Some (Normal (hd_error rows))
  | Some (Abrupt e) => Some (Abrupt e)
  | Some Unfinished => Some Unfinished
  end.

(** Modelled from the spec: the RemoteRangeReader as [checkTable] uses it
    ([fetchRange] with bounds and a row limit), a service outside the
    sources.  A query returns the rows of [table] whose key lies between
    the bounds, in the order of the table, at most [limit] of them (when
    [limit] is positive) and at most [truncateEvery], and reports [more]
    when rows remain.  Whether the upper bound belongs to the range is left
    to [upper_inclusive], as for [range_reader]. *)
Definition bounded_reader (upper_inclusive : bool) (primaryKey : string)
    (table : list Row) (truncateEvery : nat) : TableRemote :=
  fun q =>
    let l := match BigNumber (tq_lower_bound q) with Some k => k | None => 0 end in
    let u := match BigNumber (tq_upper_bound q) with Some k => k | None => 0 end in
    let hits := rows_between upper_inclusive (key_of primaryKey) table l u in
    let page_size := cursor_page_size truncateEvery (tq_limit q) in
    Fulfilled (Some (mkTableResult (Some (firstn page_size hits))
                                   (Nat.ltb page_size (length hits)))).


(** ** The dispatcher, batch by batch *)

(** Modelled from the spec: the algorithm of the BatchDispatcher in the
    words of the specification, one batch at a time.  The [n] consecutive
    pages from the page of index [b] on are requested and awaited together;
    the empty results are discarded; when none is left the scan ends;
    otherwise the batch is walked in the order of submission and each page
    is handed over as long as all the pages before it were full, and the
    scan goes on, with a batch of [size] pages, only when all of them were
    full.  [batches] bounds the number of batches looked at. *)
Fixpoint scanAllBatches (batches : nat) (rq : Z -> option (list Action))
    (startPos count : Z) (size : nat) (b : Z) (n : nat) (received : list Page)
    : Result bool * list Page :=
  match batches with
  | O => (Running, received)
  | S batches' =>
      match request_all rq (map (page_pos startPos count) (indices b n)) with
      | None => (Running, received)
      | Some results =>
          match filter non_empty results with
          | [] => (Returned true, received)
          | first :: others =>
              let delivered := received ++ handed_over count (first :: others) in
              if forallb (is_fullb count) (first :: others)
              then scanAllBatches batches' rq startPos count size
                     (b + Z.of_nat n) size delivered
              else (Returned true, delivered)
          end
      end
  end.

(** A remote that answers every request with the action 7, whatever the
    window asked for. *)
Definition deaf_reader : ActionsRemote :=
  fun _ _ _ => Replied (Actions [mkAction 7 0]).

(** A node that rejects the first request with a reason and the second
    without one. *)
Definition reasonless_node : nat -> TxAnswer nat :=
  fun k =>
    match k with
    | O => TxRejected (Some "timeout"%string)
    | S O => TxRejected None
    | S (S _) => TxFulfilled (Some k)
    end.

(** * Properties *)

(** ** Arrays *)

Lemma remove_at_app (A : Type) (l1 l2 : list A) (x : A) :
  remove_at (length l1) (l1 ++ x :: l2) = l1 ++ l2.
Proof.
  induction l1 as [|h t IH]; simpl; [reflexivity | now rewrite IH].
Qed.

Lemma splice1_at (A : Type) (l1 l2 : list A) (x : A) :
  splice1 (Z.of_nat (length l1)) (l1 ++ x :: l2) = l1 ++ l2.
Proof.
  unfold splice1.
  assert (Hlt : (Z.of_nat (length l1) <? 0) = false) by (apply Z.ltb_ge; lia).
  rewrite Hlt, Z.min_l, Nat2Z.id by (rewrite length_app; simpl; lia).
  apply remove_at_app.
Qed.

Lemma findIndex_from_app (x : nat) (l1 l2 : list nat) (k : Z) :
  ~ In x l1 ->
  findIndex_from x (l1 ++ x :: l2) k = k + Z.of_nat (length l1).
Proof.
  revert k; induction l1 as [|h t IH]; intros k Hnot; simpl.
  - rewrite Nat.eqb_refl. lia.
  - destruct (Nat.eqb_spec h x) as [->|Hne].
    + exfalso. apply Hnot. now left.
    + rewrite IH by (intro Hin; apply Hnot; now right). lia.
Qed.

Lemma splice1_findIndex (x : nat) (l1 l2 : list nat) :
  ~ In x l1 ->
  splice1 (findIndex x (l1 ++ x :: l2)) (l1 ++ x :: l2) = l1 ++ l2.
Proof.
  intro Hnot. unfold findIndex.
  rewrite findIndex_from_app by assumption. simpl. apply splice1_at.
Qed.

(** ** The rounding of the midpoint *)

Lemma dividedBy2_decimalPlaces0_ceil (x : Z) :
  0 <= x -> dividedBy2_decimalPlaces0 x = (x + 1) / 2.
Proof.
  intro H. unfold dividedBy2_decimalPlaces0.
  destruct (Z.leb_spec 0 x); [reflexivity | lia].
Qed.

Lemma bisect_mid_ceil (l u : Z) :
  l <= u -> bisect_mid l u = l + (u - l + 1) / 2.
Proof.
  intro H. unfold bisect_mid.
  rewrite dividedBy2_decimalPlaces0_ceil by lia. lia.
Qed.

Lemma bisect_mid_inside (l u : Z) :
  3 <= u - l -> l < bisect_mid l u - 1 /\ bisect_mid l u < u.
Proof.
  intro H. rewrite bisect_mid_ceil by lia.
  pose proof (Z.div_mod (u - l + 1) 2 ltac:(lia)) as Hdm.
  pose proof (Z.mod_pos_bound (u - l + 1) 2 ltac:(lia)) as Hb.
  lia.
Qed.

(** ** The rows of a range *)

Section Rows.
Variable R : Type.
Variable key : R -> Z.

Lemma filter_split (f g h : R -> bool) (t : list R) :
  (forall r, In r t -> f r = xorb (g r) (h r)) ->
  (forall r, In r t -> g r && h r = false) ->
  Permutation (filter f t) (filter g t ++ filter h t).
Proof.
  induction t as [|r t IH]; intros Hx Hd; simpl; [constructor|].
  assert (IH' : Permutation (filter f t) (filter g t ++ filter h t)).
  { apply IH; intros; [apply Hx | apply Hd]; now right. }
  specialize (Hx r (or_introl eq_refl)). specialize (Hd r (or_introl eq_refl)).
  destruct (g r), (h r), (f r); simpl in *; try discriminate.
  - now constructor.
  - now apply Permutation_cons_app.
  - assumption.
Qed.

Lemma rows_between_split (table : list R) (l m u : Z) :
  l <= m -> m - 1 <= u ->
  Permutation (rows_between true key table l u)
              (rows_between true key table l (m - 1)
                 ++ rows_between true key table m u).
Proof.
  intros Hl Hu. unfold rows_between. apply filter_split; intros r _;
    unfold in_bounds;
    destruct (Z.leb_spec l (key r)), (Z.leb_spec (key r) u),
             (Z.leb_spec (key r) (m - 1)), (Z.leb_spec m (key r));
    simpl; try reflexivity; lia.
Qed.

Lemma rows_between_all (table : list R) (l u : Z) :
  (forall r, In r table -> l <= key r <= u) ->
  rows_between true key table l u = table.
Proof.
  intro Hin. unfold rows_between. induction table as [|r t IH]; simpl.
  - reflexivity.
  - assert (Hb : in_bounds true l u (key r) = true).
    { unfold in_bounds. specialize (Hin r (or_introl eq_refl)).
      apply andb_true_intro; split; apply Z.leb_le; lia. }
    rewrite Hb, IH; [reflexivity | intros; apply Hin; now right].
Qed.

Lemma NoDup_map_filter (f : R -> bool) (t : list R) :
  NoDup (map key t) -> NoDup (map key (filter f t)).
Proof.
  induction t as [|r t IH]; simpl; intro H; [constructor|].
  inversion H as [|? ? Hnot Hnd]; subst.
  destruct (f r); simpl; [constructor|]; auto.
  intro Hin. apply Hnot. apply in_map_iff in Hin as (x & Hx & Hf).
  apply in_map_iff. exists x. split; [assumption|].
  apply filter_In in Hf. tauto.
Qed.

(** Distinct integer keys between [l] and [u]: at most [u - l + 1] rows. *)
Lemma rows_between_length (table : list R) (l u : Z) :
  NoDup (map key table) -> l <= u ->
  Z.of_nat (length (rows_between true key table l u)) <= u - l + 1.
Proof.
  intros Hnd Hlu.
  set (hits := rows_between true key table l u).
  set (slots := map (fun i => l + Z.of_nat i) (seq 0 (Z.to_nat (u - l + 1)))).
  assert (Hincl : incl (map key hits) slots).
  { intros k Hk. apply in_map_iff in Hk as (r & <- & Hr).
    apply filter_In in Hr as [_ Hb]. unfold in_bounds in Hb.
    apply andb_prop in Hb as [H1 H2]. apply Z.leb_le in H1, H2.
    apply in_map_iff. exists (Z.to_nat (key r - l)). split; [lia|].
    apply in_seq. lia. }
  pose proof (NoDup_incl_length (NoDup_map_filter _ table Hnd) Hincl) as Hlen.
  unfold slots in Hlen. rewrite !length_map, length_seq in Hlen.
  unfold hits, rows_between in *. lia.
Qed.

(** The page-capped reader with inclusive bounds is faithful as soon as a
    page holds three rows. *)
Lemma range_reader_faithful (table : list R) (maxPageSize : nat) :
  NoDup (map key table) -> (3 <= maxPageSize)%nat ->
  faithful_reader key table (range_reader true key table maxPageSize).
Proof.
  intros Hnd Hcap l u Hlu. unfold range_reader.
  eexists. split; [reflexivity|]. simpl. split.
  - intro Hmore. apply Nat.ltb_ge in Hmore.
    now rewrite firstn_all2.
  - intro Hmore. apply Nat.ltb_lt in Hmore.
    pose proof (rows_between_length table l u Hnd (Z.lt_le_incl _ _ Hlu)). lia.
Qed.

Lemma span_app (table : list R) (qs1 qs2 : list Query) :
  span key table (qs1 ++ qs2) = span key table qs1 ++ span key table qs2.
Proof. unfold span. apply flat_map_app. Qed.

End Rows.

Lemma weight_app (qs1 qs2 : list Query) :
  weight (qs1 ++ qs2) = (weight qs1 + weight qs2)%nat.
Proof.
  induction qs1 as [|q qs IH]; simpl; [reflexivity|]. rewrite IH. lia.
Qed.

(** ** One answer of a faithful remote *)

Section ScanSteps.
Variable R : Type.
Variable key : R -> Z.
Variable table : list R.
Variable remote : RangeRemote R.
Hypothesis Hremote : faithful_reader key table remote.

Lemma well_formed_init : well_formed (scan_init R).
Proof.
  unfold well_formed, scan_init; simpl.
  repeat split; constructor.
Qed.

Lemma Require_skip (l u : Z) (st : Scan R) :
  u <= l -> Require l u st = st.
Proof.
  intro H. unfold Require. destruct (Z.leb_spec u l); [reflexivity | lia].
Qed.

Lemma Require_send (l u : Z) (st : Scan R) :
  l < u ->
  Require l u st =
    mkScan (pool st ++ [next_id st]) (inflight st ++ [mkQuery (next_id st) l u])
           (ret st) (S (next_id st)) (unhandled st).
Proof.
  intro H. unfold Require. destruct (Z.leb_spec u l); [lia | reflexivity].
Qed.

Lemma Require_well_formed (l u : Z) (st : Scan R) :
  well_formed st -> well_formed (Require l u st).
Proof.
  intros (Hpool & Hnd & Hlt & Hrange & Hun).
  destruct (Z.le_gt_cases u l) as [Hle|Hgt].
  - rewrite Require_skip by assumption. repeat split; assumption.
  - rewrite Require_send by assumption. unfold well_formed; simpl.
    repeat split.
    + rewrite map_app, Hpool. reflexivity.
    + apply NoDup_app; [assumption | repeat constructor; intros [] | ].
      intros a Ha [<-|[]]. rewrite Forall_forall in Hlt.
      specialize (Hlt _ Ha). lia.
    + apply Forall_app; split.
      * eapply Forall_impl; [|exact Hlt]. simpl. intros; lia.
      * repeat constructor.
    + apply Forall_app; split; [assumption | repeat constructor; assumption].
    + assumption.
Qed.

Lemma Require_ret (l u : Z) (st : Scan R) : ret (Require l u st) = ret st.
Proof. unfold Require. destruct (u <=? l); reflexivity. Qed.

Lemma Require_span (l u : Z) (st : Scan R) :
  span key table (inflight (Require l u st)) =
    span key table (inflight st)
      ++ (if l <? u then rows_between true key table l u else []).
Proof.
  destruct (Z.le_gt_cases u l) as [Hle|Hgt].
  - rewrite Require_skip by assumption.
    destruct (Z.ltb_spec l u); [lia | now rewrite app_nil_r].
  - rewrite Require_send by assumption. simpl.
    destruct (Z.ltb_spec l u); [|lia].
    rewrite span_app. simpl. now rewrite app_nil_r.
Qed.

Lemma Require_weight (l u : Z) (st : Scan R) :
  weight (inflight (Require l u st)) =
    (weight (inflight st) + (if (l <? u)%Z then Z.to_nat (2 * (u - l) + 1)%Z else 0))%nat.
Proof.
  destruct (Z.le_gt_cases u l) as [Hle|Hgt].
  - rewrite Require_skip by assumption.
    destruct (Z.ltb_spec l u); lia.
  - rewrite Require_send by assumption. simpl.
    destruct (Z.ltb_spec l u); [|lia].
    rewrite weight_app. simpl. lia.
Qed.

(** The answer to the [i]-th outstanding query keeps the invariant, keeps
    the rows accounted for, and uses up some of the weight. *)
Lemma settle_step (i : nat) (q : Query) (st : Scan R) :
  well_formed st ->
  nth_error (inflight st) i = Some q ->
  well_formed (settle remote i st) /\
  Permutation (ret (settle remote i st) ++ span key table (inflight (settle remote i st)))
              (ret st ++ span key table (inflight st)) /\
  (weight (inflight (settle remote i st)) < weight (inflight st))%nat.
Proof.
  intros (Hpool & Hnd & Hlt & Hrange & Hun) Hnth.
  destruct st as [pl fl rt nx uh]; simpl in *.
  destruct (nth_error_split _ _ Hnth) as (f1 & f2 & -> & Hlen).
  unfold settle; simpl. rewrite Hnth. subst i. rewrite remove_at_app.
  assert (Hq : q_lower q < q_upper q).
  { apply Forall_app in Hrange as [_ Hr]. now inversion Hr. }
  destruct (Hremote _ _ Hq) as (r & -> & Hfull & Htrunc).
  unfold on_fulfilled; simpl.
  rewrite map_app in Hpool. simpl in Hpool. subst pl.
  assert (Hnot : ~ In (q_id q) (map q_id f1)).
  { intro Hin. apply NoDup_remove_2 in Hnd. apply Hnd, in_or_app. now left. }
  rewrite splice1_findIndex by assumption.
  assert (Hwf1 : well_formed (mkScan (map q_id f1 ++ map q_id f2) (f1 ++ f2) rt nx uh)).
  { unfold well_formed; simpl. repeat split.
    - now rewrite map_app.
    - now apply NoDup_remove_1 in Hnd.
    - apply Forall_app in Hlt as [H1 H2]. inversion H2; subst.
      apply Forall_app; now split.
    - apply Forall_app in Hrange as [H1 H2]. inversion H2; subst.
      apply Forall_app; now split.
    - assumption. }
  assert (Hw : weight (f1 ++ q :: f2) =
               (weight (f1 ++ f2) + Z.to_nat (2 * (q_upper q - q_lower q) + 1))%nat).
  { rewrite !weight_app. simpl. lia. }
  assert (Hs : Permutation (rt ++ span key table (f1 ++ q :: f2))
                 ((rt ++ span key table (f1 ++ f2))
                    ++ rows_between true key table (q_lower q) (q_upper q))).
  { rewrite !span_app. unfold span at 2. simpl. fold (span key table f2).
    rewrite <- !app_assoc. apply Permutation_app_head, Permutation_app_head.
    apply Permutation_app_comm. }
  destruct (more r) eqn:Hmore.
  - (* truncated: both halves are required *)
    specialize (Htrunc eq_refl).
    destruct (bisect_mid_inside _ _ Htrunc) as [Hlo Hhi].
    set (m := bisect_mid (q_lower q) (q_upper q)) in *.
    set (st1 := mkScan (map q_id f1 ++ map q_id f2) (f1 ++ f2) rt nx uh) in *.
    split; [|split].
    + now apply Require_well_formed, Require_well_formed.
    + rewrite !Require_ret, !Require_span.
      destruct (Z.ltb_spec (q_lower q) (m - 1)); [|lia].
      destruct (Z.ltb_spec m (q_upper q)); [|lia].
      simpl. rewrite Hs, <- !app_assoc.
      apply Permutation_app_head, Permutation_app_head.
      symmetry. apply rows_between_split; lia.
    + rewrite !Require_weight.
      destruct (Z.ltb_spec (q_lower q) (m - 1)); [|lia].
      destruct (Z.ltb_spec m (q_upper q)); [|lia].
      unfold st1; cbn [inflight]. rewrite Hw. lia.
  - (* complete: its rows are appended *)
    rewrite (Hfull eq_refl). simpl. split; [|split].
    + apply Hwf1.
    + rewrite Hs, <- !app_assoc. apply Permutation_app_head.
      apply Permutation_app_comm.
    + rewrite Hw. lia.
Qed.

End ScanSteps.

(** ** The polling loop *)

Section Polling.
Variable R : Type.
Variable remote : RangeRemote R.

Lemma await_forMs_app_done (s e : list Event) (st st' : Scan R) :
  await_forMs remote s st = Done st' ->
  await_forMs remote (s ++ e) st = Done st'.
Proof.
  revert st; induction s as [|[i|] s IH]; intros st H; simpl in *.
  - discriminate.
  - now apply IH.
  - destruct (pool st); [assumption | now apply IH].
Qed.

Lemma await_forMs_app_waiting (s e : list Event) (st st1 : Scan R) :
  await_forMs remote s st = Waiting st1 ->
  await_forMs remote (s ++ e) st = await_forMs remote e st1.
Proof.
  revert st; induction s as [|[i|] s IH]; intros st H; simpl in *.
  - now inversion H.
  - now apply IH.
  - destruct (pool st); [discriminate | now apply IH].
Qed.

Variable key : R -> Z.
Variable table : list R.
Hypothesis Hremote : faithful_reader key table remote.

Lemma settle_any (i : nat) (st : Scan R) :
  well_formed st ->
  well_formed (settle remote i st) /\
  Permutation (ret (settle remote i st) ++ span key table (inflight (settle remote i st)))
              (ret st ++ span key table (inflight st)).
Proof.
  intro Hwf. destruct (nth_error (inflight st) i) as [q|] eqn:Hnth.
  - destruct (settle_step _ _ _ _ Hremote i _ _ Hwf Hnth) as (H1 & H2 & _). now split.
  - unfold settle. rewrite Hnth. now split.
Qed.

(** Whatever the schedule, the loop keeps the invariant and the rows
    accounted for; it only returns once [pool] is empty. *)
Lemma await_forMs_invariant (s : list Event) (st : Scan R) :
  well_formed st ->
  let o := await_forMs remote s st in
  well_formed (final o) /\
  Permutation (ret (final o) ++ span key table (inflight (final o)))
              (ret st ++ span key table (inflight st)) /\
  (is_done o = true -> pool (final o) = []).
Proof.
  revert st; induction s as [|[i|] s IH]; intros st Hwf; simpl.
  - repeat split; [apply Hwf.. | reflexivity | discriminate].
  - destruct (settle_any i _ Hwf) as [Hwf' Hperm].
    destruct (IH _ Hwf') as (H1 & H2 & H3).
    split; [assumption | split; [|assumption]].
    now rewrite H2.
  - destruct (pool st) eqn:Hpool.
    + simpl. split; [assumption | split; [reflexivity | now intros _]].
    + now apply IH.
Qed.

Lemma well_formed_drained (st : Scan R) :
  well_formed st -> pool st = [] -> span key table (inflight st) = [].
Proof.
  intros (Hpool & _) Hnil. rewrite Hnil in Hpool.
  symmetry in Hpool. apply map_eq_nil in Hpool. now rewrite Hpool.
Qed.

(** From any reachable state the answers run out: some continuation of
    the schedule makes the loop return. *)
Lemma await_forMs_returns (st : Scan R) :
  well_formed st -> exists ext st', await_forMs remote ext st = Done st'.
Proof.
  remember (weight (inflight st)) as n eqn:Hn.
  revert st Hn. induction n as [n IH] using lt_wf_ind. intros st Hn Hwf.
  destruct (inflight st) as [|q qs] eqn:Hfl.
  - exists [Tick], st. simpl.
    destruct Hwf as (Hpool & _). rewrite Hfl in Hpool. simpl in Hpool.
    now rewrite Hpool.
  - assert (Hnth : nth_error (inflight st) 0%nat = Some q) by now rewrite Hfl.
    destruct (settle_step _ _ _ _ Hremote 0%nat _ _ Hwf Hnth) as (Hwf' & _ & Hless).
    rewrite Hfl, <- Hn in Hless.
    destruct (IH _ Hless _ eq_refl Hwf') as (ext & st' & Hext).
    exists (Settle 0 :: ext), st'. exact Hext.
Qed.

Lemma poll_pool_sound (s : list Event) (st st' : Scan R) :
  well_formed st ->
  poll_pool remote s st = Done st' ->
  Permutation (ret st') (ret st ++ span key table (inflight st)) /\
  unhandled st' = [].
Proof.
  intros Hwf Hdone. unfold poll_pool in Hdone.
  destruct (pool st) eqn:Hpool.
  - inversion Hdone; subst st'.
    rewrite (well_formed_drained _ Hwf Hpool), app_nil_r.
    split; [reflexivity | apply Hwf].
  - pose proof (await_forMs_invariant s _ Hwf) as Hinv.
    rewrite Hdone in Hinv. simpl in Hinv. destruct Hinv as (Hwf' & Hperm & Hnil).
    rewrite (well_formed_drained _ Hwf' (Hnil eq_refl)), app_nil_r in Hperm.
    split; [assumption | apply Hwf'].
Qed.

Lemma poll_pool_returns (s : list Event) (st : Scan R) :
  well_formed st ->
  exists ext st', poll_pool remote (s ++ ext) st = Done st'.
Proof.
  intro Hwf. unfold poll_pool. destruct (pool st) eqn:Hpool.
  - exists [], st. reflexivity.
  - destruct (await_forMs remote s st) as [st1|st1] eqn:Hrun.
    + exists [], st1. now apply await_forMs_app_done.
    + pose proof (await_forMs_invariant s _ Hwf) as Hinv.
      rewrite Hrun in Hinv. simpl in Hinv. destruct Hinv as (Hwf1 & _).
      destruct (await_forMs_returns _ Hwf1) as (ext & st' & Hext).
      exists ext, st'. now rewrite (await_forMs_app_waiting s ext st st1 Hrun).
Qed.

End Polling.

(** ** What a scan can return *)

Section Confinement.
Variable R : Type.
Variable remote : RangeRemote R.
Variable allowed : Z -> Z -> Prop.
Variable good : R -> Prop.
Hypothesis Hremote : confining remote allowed good.

Lemma Forall_remove_at (A : Type) (P : A -> Prop) (i : nat) (l : list A) :
  Forall P l -> Forall P (remove_at i l).
Proof.
  revert i; induction l as [|x l IH]; intros i H; [destruct i; constructor|].
  inversion H; subst. destruct i; simpl; [assumption|].
  constructor; auto.
Qed.

Lemma Require_confined (l u : Z) (st : Scan R) :
  (l < u -> allowed l u) ->
  confined allowed good st -> confined allowed good (Require l u st).
Proof.
  intros Hlu [Hq Hr]. unfold Require.
  destruct (Z.leb_spec u l); [now split|].
  split; simpl; [|assumption].
  apply Forall_app. split; [assumption|]. repeat constructor. simpl. apply Hlu. lia.
Qed.

Lemma settle_confined (i : nat) (st : Scan R) :
  confined allowed good st -> confined allowed good (settle remote i st).
Proof.
  intros [Hq Hr]. unfold settle.
  destruct (nth_error (inflight st) i) as [q|] eqn:Hnth; [|now split].
  assert (Hallowed : allowed (q_lower q) (q_upper q)).
  { rewrite Forall_forall in Hq. apply (Hq q). eapply nth_error_In; eassumption. }
  pose proof (Hremote _ _ Hallowed) as Hanswer.
  assert (Hrest : Forall (fun q => allowed (q_lower q) (q_upper q))
                         (remove_at i (inflight st)))
    by now apply Forall_remove_at.
  destruct (remote (q_lower q) (q_upper q)) as [[r|]|msg].
  - unfold on_fulfilled; simpl. destruct (more r).
    + destruct Hanswer as [Hlow Hhigh].
      apply Require_confined; [assumption|].
      apply Require_confined; [assumption|]. now split.
    + destruct (rows r) as [rs|]; split; simpl; try assumption.
      apply Forall_app. now split.
  - unfold on_fulfilled; simpl. now split.
  - unfold on_rejected; simpl. now split.
Qed.

Lemma await_forMs_confined (s : list Event) (st : Scan R) :
  confined allowed good st -> confined allowed good (final (await_forMs remote s st)).
Proof.
  revert st; induction s as [|[i|] s IH]; intros st H; simpl.
  - assumption.
  - apply IH. now apply settle_confined.
  - destruct (pool st); [assumption | now apply IH].
Qed.

(** Whatever the order of the answers, a scan that starts from allowed
    ranges only returns good rows. *)
Lemma getTableAll_from_confined (l u : Z) (s : list Event) (st : Scan R) :
  (l < u -> allowed l u) ->
  getTableAll_from remote l u [] s = Done st ->
  Forall good (ret st).
Proof.
  intros Hlu Hrun. unfold getTableAll_from, first_requests, poll_pool in Hrun.
  assert (Hstart : confined allowed good (Require l u (scan_init R))).
  { apply Require_confined; [assumption|]. split; constructor. }
  destruct (pool (Require l u (scan_init R))).
  - inversion Hrun; subst. apply Hstart.
  - pose proof (await_forMs_confined s _ Hstart) as Hend.
    rewrite Hrun in Hend. apply Hend.
Qed.

End Confinement.

(** ** The first requests *)

Lemma BigNumbers_numbers (hs : list Z) : BigNumbers (map JNum hs) = Some hs.
Proof.
  induction hs as [|h hs IH]; simpl; [reflexivity | now rewrite IH].
Qed.

Lemma lower_of_number (l : Z) : lower_of (JNum l) = Some l.
Proof.
  unfold lower_of; simpl. destruct (Z.eqb_spec l 0); simpl; congruence.
Qed.

Lemma upper_of_positive (u : Z) : 0 < u -> upper_of (JNum u) = Some u.
Proof.
  intro H. unfold upper_of; simpl.
  destruct (Z.eqb_spec u 0); [lia|]. destruct (Z.eqb_spec u (-1)); [lia|].
  reflexivity.
Qed.

Lemma getTableAll_numbers (R : Type) (remote : RangeRemote R) (l u : Z)
    (hs : list Z) (sched : list Event) :
  0 < u ->
  getTableAll remote (JNum l) (JNum u) (map JNum hs) sched =
    Some (getTableAll_from remote l u hs sched).
Proof.
  intro Hu. unfold getTableAll.
  now rewrite lower_of_number, upper_of_positive, BigNumbers_numbers.
Qed.

Section FirstRequests.
Variable R : Type.
Variable key : R -> Z.
Variable table : list R.

Lemma In_rows_between (x : R) (l u : Z) :
  In x (rows_between true key table l u) <-> In x table /\ l <= key x <= u.
Proof.
  unfold rows_between. rewrite filter_In. unfold in_bounds.
  rewrite andb_true_iff, !Z.leb_le. tauto.
Qed.

Lemma require_hinted_spec (bounds : list Z) (l : Z) (st : Scan R) :
  well_formed st ->
  let st' := snd (require_hinted l bounds st) in
  well_formed st' /\ ret st' = ret st /\
  span key table (inflight st') =
    span key table (inflight st) ++ chain_rows key table l bounds.
Proof.
  unfold require_hinted.
  revert l st; induction bounds as [|m rest IH]; intros l st Hwf; simpl.
  - repeat split; try apply Hwf. now rewrite app_nil_r.
  - destruct (IH m (Require l m st) (Require_well_formed _ l m st Hwf))
      as (H1 & H2 & H3).
    split; [exact H1 | split].
    + now rewrite H2, Require_ret.
    + rewrite H3, Require_span, <- app_assoc. reflexivity.
Qed.

Lemma ascending_from_last (hs : list Z) (l u : Z) :
  ascending_from l (hs ++ [u]) -> l <= u.
Proof.
  revert l; induction hs as [|h hs IH]; intros l; simpl.
  - tauto.
  - intros [Hlh Hrest]. specialize (IH _ Hrest). lia.
Qed.

(** Consecutive pieces with inclusive bounds cover what the whole range
    covers, a row at a shared bound being covered twice. *)
Lemma chain_rows_cover (hs : list Z) (l u : Z) (x : R) :
  ascending_from l (hs ++ [u]) ->
  In x (chain_rows key table l (hs ++ [u])) <->
  In x (if l <? u then rows_between true key table l u else []).
Proof.
  revert l; induction hs as [|h hs IH]; intros l Hasc; simpl.
  - now rewrite app_nil_r.
  - destruct Hasc as [Hlh Hrest].
    pose proof (ascending_from_last _ _ _ Hrest) as Hhu.
    rewrite in_app_iff, (IH _ Hrest).
    destruct (Z.ltb_spec l h), (Z.ltb_spec h u), (Z.ltb_spec l u);
      rewrite ?In_rows_between; simpl; try lia.
    all: destruct (Z.le_gt_cases (key x) h); intuition lia.
Qed.

(** The start of a scan: the invariant holds, nothing is returned yet,
    and the requests stand for the rows of the range. *)
Lemma first_requests_spec (l u : Z) (hs : list Z) :
  ascending_from l (hs ++ [u]) ->
  let st0 := first_requests R l u hs in
  well_formed st0 /\ ret st0 = [] /\
  forall x, In x (span key table (inflight st0)) <->
            In x (if l <? u then rows_between true key table l u else []).
Proof.
  intro Hasc. unfold first_requests. destruct hs as [|h hs].
  - split; [apply Require_well_formed, well_formed_init | split].
    + now rewrite Require_ret.
    + intro x. now rewrite (Require_span _ key table).
  - destruct (require_hinted_spec ((h :: hs) ++ [u]) l (scan_init R)
                (well_formed_init R)) as (H1 & H2 & H3).
    split; [exact H1 | split; [exact H2|]].
    intro x. rewrite H3. simpl span at 1. rewrite app_nil_l.
    now apply chain_rows_cover.
Qed.

End FirstRequests.

(** ** getTableAll: complete enumeration *)

Ltac nodup_list :=
  repeat (constructor; [simpl; intuition discriminate|]); constructor.

(** A sufficient condition for a complete enumeration.  Against a reader
    whose bounds are both inclusive and whose pages hold at least three
    rows, a table of rows with distinct keys, all within [[l, u]] with
    [0 <= l < u <= 2^53], is enumerated completely: whenever the scan
    returns, it returns the rows of the table, each exactly once and with
    no rejection left behind, and every schedule has a continuation after
    which the scan has returned.  The bounds are passed as numbers, which
    [new BigNumber] reads exactly up to 2^53. *)
Theorem getTableAll_complete (R : Type) (key : R -> Z) (table : list R)
    (maxPageSize : nat) (l u : Z) :
  NoDup (map key table) ->
  (forall r, In r table -> l <= key r <= u) ->
  0 <= l < u -> u <= 2 ^ 53 ->
  (3 <= maxPageSize)%nat ->
  let scan := getTableAll (range_reader true key table maxPageSize) (JNum l) (JNum u) [] in
  (forall sched st, scan sched = Some (Done st) ->
     Permutation (ret st) table /\ NoDup (map key (ret st)) /\ unhandled st = []) /\
  (forall sched, exists ext st, scan (sched ++ ext) = Some (Done st)).
Proof.
  intros Hnd Hin Hlu _ Hcap scan.
  pose proof (range_reader_faithful R key table maxPageSize Hnd Hcap) as Hremote.
  assert (Hasc : ascending_from l ([] ++ [u])) by (simpl; lia).
  destruct (first_requests_spec R key table l u [] Hasc) as (Hwf & Hret & Hspan).
  assert (Hscan : forall sched, scan sched =
            Some (poll_pool (range_reader true key table maxPageSize) sched
                            (first_requests R l u []))).
  { intro sched. unfold scan.
    now rewrite (getTableAll_numbers R _ l u [] sched) by lia. }
  split.
  - intros sched st Hrun. rewrite Hscan in Hrun. inversion Hrun as [Hdone].
    destruct (poll_pool_sound R _ key table Hremote sched _ st Hwf Hdone)
      as [Hperm Hun].
    assert (Hall : Permutation (ret st) table).
    { rewrite Hperm, Hret. simpl.
      unfold first_requests. rewrite Require_send by lia. simpl.
      rewrite app_nil_r, rows_between_all by assumption. reflexivity. }
    repeat split; [assumption | | assumption].
    eapply Permutation_NoDup; [|exact Hnd].
    symmetry. now apply Permutation_map.
  - intro sched.
    destruct (poll_pool_returns R _ key table Hremote sched _ Hwf) as (ext & st & Hrun).
    exists ext, st. now rewrite Hscan, Hrun.
Qed.

(** Keys 0 to 9, pages of four rows, [lower] 0 and [upper] 10, the upper
    bound being included. *)
Lemma getTableAll_complete_witness :
  let scan := getTableAll (range_reader true key_id keys_0_9 4) (JNum 0) (JNum 10) [] in
  (forall sched st, scan sched = Some (Done st) ->
     Permutation (ret st) keys_0_9 /\ NoDup (map key_id (ret st)) /\ unhandled st = []) /\
  (forall sched, exists ext st, scan (sched ++ ext) = Some (Done st)).
Proof.
  apply (getTableAll_complete Z key_id keys_0_9 4 0 10).
  - unfold keys_0_9, key_id. simpl. nodup_list.
  - unfold keys_0_9, key_id. simpl. intros r H.
    repeat (destruct H as [<-|H]; [lia|]). destruct H.
  - lia.
  - vm_compute. discriminate.
  - lia.
Defined.

Lemma scenario_confining :
  confining (range_reader false key_id keys_0_9 4) scenario_ranges not_4_nor_7.
Proof.
  intros l u H. unfold scenario_ranges in H. simpl in H.
  repeat (destruct H as [H|H]; [inversion H; subst; clear H|]); try destruct H.
  - vm_compute. split; intros _; tauto.
  - vm_compute. repeat constructor; discriminate.
  - vm_compute. split; intros _; tauto.
  - vm_compute. repeat constructor; discriminate.
  - vm_compute. repeat constructor; discriminate.
Qed.

Lemma small_confining :
  confining (range_reader true key_id [0; 1; 2] 2) small_ranges not_0.
Proof.
  intros l u H. unfold small_ranges in H. simpl in H.
  repeat (destruct H as [H|H]; [inversion H; subst; clear H|]); try destruct H.
  - vm_compute. split; [intro Hlt; discriminate Hlt | intros _; tauto].
  - vm_compute. repeat constructor; discriminate.
Qed.

Lemma scenario_misses_4_and_7 (sched : list Event) (st : Scan Z) :
  getTableAll (range_reader false key_id keys_0_9 4) (JNum 0) (JNum 10) [] sched
    = Some (Done st) ->
  ~ In 4 (ret st) /\ ~ In 7 (ret st).
Proof.
  intro Hrun.
  change (@nil JsVal) with (map JNum []) in Hrun.
  rewrite getTableAll_numbers in Hrun by lia. inversion Hrun as [Hdone].
  pose proof (getTableAll_from_confined Z _ scenario_ranges not_4_nor_7
                scenario_confining 0 10 sched st) as Hgood.
  rewrite Forall_forall in Hgood.
  split; intro Hin; apply Hgood in Hin; try assumption;
    try (intros _; left; reflexivity); destruct Hin; congruence.
Qed.

Lemma small_misses_0 (sched : list Event) (st : Scan Z) :
  getTableAll (range_reader true key_id [0; 1; 2] 2) (JNum 0) (JNum 2) [] sched
    = Some (Done st) ->
  ~ In 0 (ret st).
Proof.
  intro Hrun.
  change (@nil JsVal) with (map JNum []) in Hrun.
  rewrite getTableAll_numbers in Hrun by lia. inversion Hrun as [Hdone].
  pose proof (getTableAll_from_confined Z _ small_ranges not_0
                small_confining 0 2 sched st) as Hgood.
  rewrite Forall_forall in Hgood.
  intro Hin; apply Hgood in Hin; try assumption;
    try (intros _; left; reflexivity); congruence.
Qed.

(** C1 at its failing input, the scenario of the specification: keys 0 to
    9, pages of four rows, [lower] 0 and [upper] 10, the upper bound of a
    query being excluded as the specification has it.  The range is
    truncated and bisected at 5 into [[0, 4)] and [[5, 10)], the latter at
    8 into [[5, 7)] and [[8, 10)]: whatever the order of the answers, the
    keys 4 and 7 are not returned.  Were the upper bound included, the
    scenario would be enumerated, but a page of two rows over the keys 0, 1,
    2 would not: the bisection of [[0, 2]] requires [[0, 0]], which is
    skipped, and key 0 is never returned. *)
Theorem getTableAll_loses_rows :
  (forall sched st,
     getTableAll (range_reader false key_id keys_0_9 4) (JNum 0) (JNum 10) [] sched
       = Some (Done st) ->
     ~ In 4 (ret st) /\ ~ In 7 (ret st)) /\
  (exists st,
     getTableAll (range_reader false key_id keys_0_9 4) (JNum 0) (JNum 10) []
                 (answer_all 5) = Some (Done st) /\
     ret st = [0; 1; 2; 3; 5; 6; 8; 9]) /\
  (forall sched st,
     getTableAll (range_reader true key_id [0; 1; 2] 2) (JNum 0) (JNum 2) [] sched
       = Some (Done st) ->
     ~ In 0 (ret st)) /\
  (exists st,
     getTableAll (range_reader true key_id [0; 1; 2] 2) (JNum 0) (JNum 2) []
                 (answer_all 2) = Some (Done st) /\
     ret st = [1; 2]).
Proof.
  split; [|split; [|split]].
  - exact scenario_misses_4_and_7.
  - eexists. split; vm_compute; reflexivity.
  - exact small_misses_0.
  - eexists. split; vm_compute; reflexivity.
Qed.

(** ** getTableAll: hints *)

(** A sufficient condition for hints not to matter.  Against a reader
    whose bounds are both inclusive and whose pages hold at least three
    rows, over a table with distinct keys, a scan with ascending hints
    inside [[l, u]] returns the same set of rows as the scan without hints
    (a row whose key is a hint is returned twice), and it does return. *)
Theorem getTableAll_hints_same_set (R : Type) (key : R -> Z) (table : list R)
    (maxPageSize : nat) (l u : Z) (hs : list Z) :
  NoDup (map key table) ->
  (3 <= maxPageSize)%nat ->
  0 <= l -> 0 < u ->
  ascending_from l (hs ++ [u]) ->
  let remote := range_reader true key table maxPageSize in
  (forall s1 s2 st1 st2,
     getTableAll remote (JNum l) (JNum u) (map JNum hs) s1 = Some (Done st1) ->
     getTableAll remote (JNum l) (JNum u) [] s2 = Some (Done st2) ->
     forall x, In x (ret st1) <-> In x (ret st2)) /\
  (forall sched, exists ext st,
     getTableAll remote (JNum l) (JNum u) (map JNum hs) (sched ++ ext) = Some (Done st)).
Proof.
  intros Hnd Hcap Hl Hu Hasc remote.
  pose proof (range_reader_faithful R key table maxPageSize Hnd Hcap) as Hremote.
  fold remote in Hremote.
  assert (Hplain : ascending_from l ([] ++ [u])).
  { simpl. split; [|exact I]. exact (ascending_from_last hs l u Hasc). }
  destruct (first_requests_spec R key table l u hs Hasc) as (Hwf1 & Hret1 & Hspan1).
  destruct (first_requests_spec R key table l u [] Hplain) as (Hwf2 & Hret2 & Hspan2).
  split.
  - intros s1 s2 st1 st2 Hrun1 Hrun2 x.
    rewrite getTableAll_numbers in Hrun1 by assumption.
    change (@nil JsVal) with (map JNum []) in Hrun2.
    rewrite getTableAll_numbers in Hrun2 by assumption.
    inversion Hrun1 as [Hdone1]. inversion Hrun2 as [Hdone2].
    destruct (poll_pool_sound R _ key table Hremote s1 _ st1 Hwf1 Hdone1) as [Hp1 _].
    destruct (poll_pool_sound R _ key table Hremote s2 _ st2 Hwf2 Hdone2) as [Hp2 _].
    rewrite Hret1 in Hp1. rewrite Hret2 in Hp2. simpl in Hp1, Hp2.
    split; intro Hx.
    + apply (Permutation_in _ Hp1), Hspan1, Hspan2 in Hx.
      exact (Permutation_in _ (Permutation_sym Hp2) Hx).
    + apply (Permutation_in _ Hp2), Hspan2, Hspan1 in Hx.
      exact (Permutation_in _ (Permutation_sym Hp1) Hx).
  - intro sched.
    destruct (poll_pool_returns R _ key table Hremote sched _ Hwf1) as (ext & st & Hrun).
    exists ext, st. rewrite getTableAll_numbers by assumption.
    unfold getTableAll_from. now rewrite Hrun.
Qed.

(** Keys 0 to 9, pages of four rows, hints 4 and 8 inside [[0, 10]]. *)
Lemma getTableAll_hints_same_set_witness :
  let remote := range_reader true key_id keys_0_9 4 in
  (forall s1 s2 st1 st2,
     getTableAll remote (JNum 0) (JNum 10) (map JNum [4; 8]) s1 = Some (Done st1) ->
     getTableAll remote (JNum 0) (JNum 10) [] s2 = Some (Done st2) ->
     forall x, In x (ret st1) <-> In x (ret st2)) /\
  (forall sched, exists ext st,
     getTableAll remote (JNum 0) (JNum 10) (map JNum [4; 8]) (sched ++ ext) = Some (Done st)).
Proof.
  apply (getTableAll_hints_same_set Z key_id keys_0_9 4 0 10 [4; 8]).
  - unfold keys_0_9, key_id. simpl. nodup_list.
  - lia.
  - lia.
  - lia.
  - simpl. lia.
Defined.

(** C7 at its failing input: keys 0 to 9, pages of four rows, the range
    [[0, 10]] with the hints 4 and 8, the upper bound of a query being
    excluded as the specification has it.  With the hints no query is
    truncated and all ten keys are returned; without them the bisection
    comes into play and, whatever the order of the answers, the keys 4 and
    7 are not returned.  Were the upper bound included, the same would
    happen to key 0 of the keys 0, 1, 2 read in pages of two rows over
    [[0, 2]] with the hint 1. *)
Theorem getTableAll_hints_change_set :
  (exists st1,
     getTableAll (range_reader false key_id keys_0_9 4) (JNum 0) (JNum 10)
                 [JStr "4"; JStr "8"] (answer_all 3) = Some (Done st1) /\
     ret st1 = keys_0_9) /\
  (forall s2 st2,
     getTableAll (range_reader false key_id keys_0_9 4) (JNum 0) (JNum 10) [] s2
       = Some (Done st2) ->
     ~ In 4 (ret st2) /\ ~ In 7 (ret st2)) /\
  (exists st1,
     getTableAll (range_reader true key_id [0; 1; 2] 2) (JNum 0) (JNum 2) [JNum 1]
                 (answer_all 2) = Some (Done st1) /\
     ret st1 = [0; 1; 1; 2]) /\
  (forall s2 st2,
     getTableAll (range_reader true key_id [0; 1; 2] 2) (JNum 0) (JNum 2) [] s2
       = Some (Done st2) ->
     ~ In 0 (ret st2)).
Proof.
  split; [|split; [|split]].
  - eexists. split; vm_compute; reflexivity.
  - exact scenario_misses_4_and_7.
  - eexists. split; vm_compute; reflexivity.
  - exact small_misses_0.
Qed.

(** ** getTableAll: bisection *)

(** C6, as amended.  When the answer to an outstanding query over
    [[l, u]] reports truncation, the midpoint is [l] plus half of [u - l]
    rounded up, nothing is added to the result, and the sub-queries sent
    are [[l, mid - 1]] and [[mid, u]], each only if its lower bound is
    below its upper bound. *)
Theorem on_fulfilled_bisects (R : Type) (q : Query) (r : TableResult R) (st : Scan R) :
  more r = true ->
  q_lower q < q_upper q ->
  let l := q_lower q in
  let u := q_upper q in
  let mid := l + (u - l + 1) / 2 in
  let st' := on_fulfilled q (Some r) st in
  bisect_mid l u = mid /\
  ret st' = ret st /\
  bounds_of (inflight st') =
    bounds_of (inflight st)
      ++ (if l <? mid - 1 then [(l, mid - 1)] else [])
      ++ (if mid <? u then [(mid, u)] else []).
Proof.
  intros Hmore Hlu l u mid st'.
  assert (Hmid : bisect_mid l u = mid) by (apply bisect_mid_ceil; lia).
  split; [exact Hmid|].
  unfold st', on_fulfilled. rewrite Hmore. fold l u. rewrite Hmid.
  set (st1 := mkScan _ _ _ _ _).
  split.
  - now rewrite !Require_ret.
  - destruct (Z.ltb_spec l (mid - 1)); destruct (Z.ltb_spec mid u);
      rewrite ?(Require_send R mid u), ?(Require_skip R mid u) by lia;
      rewrite ?(Require_send R l (mid - 1)), ?(Require_skip R l (mid - 1)) by lia;
      simpl; unfold bounds_of; rewrite ?map_app, ?app_nil_r, <- ?app_assoc;
      reflexivity.
Qed.

(** A truncated answer to the query over [[0, 10]]. *)
Lemma on_fulfilled_bisects_witness :
  let st := Require 0 10 (scan_init Z) in
  let st' := on_fulfilled (mkQuery 0 0 10) (Some (mkTableResult (Some []) true)) st in
  bisect_mid 0 10 = 0 + (10 - 0 + 1) / 2 /\
  ret st' = ret st /\
  bounds_of (inflight st') =
    bounds_of (inflight st)
      ++ (if 0 <? 0 + (10 - 0 + 1) / 2 - 1 then [(0, 0 + (10 - 0 + 1) / 2 - 1)] else [])
      ++ (if 0 + (10 - 0 + 1) / 2 <? 10 then [(0 + (10 - 0 + 1) / 2, 10)] else []).
Proof.
  apply (on_fulfilled_bisects Z (mkQuery 0 0 10) (mkTableResult (Some []) true)
           (Require 0 10 (scan_init Z))).
  - reflexivity.
  - simpl. lia.
Defined.

(** C6, as stated, fails.  For the truncated range [[0, 3]] the midpoint is
    2, not [0 + floor(3 / 2) = 1], and the sub-queries are [[0, 1]] and
    [[2, 3]], not [[0, 0]] and [[1, 3]].  For the truncated range [[0, 2]]
    the midpoint is 1 and the only sub-query is [[1, 2]]: the lower half
    [[0, 0]] is not sent. *)
Lemma bisect_mid_not_floor :
  bisect_mid 0 3 = 2 /\
  bisect_mid 0 3 <> 0 + (3 - 0) / 2 /\
  bounds_of (inflight (settle truncating_reader 0 (Require 0 3 (scan_init Z))))
    = [(0, 1); (2, 3)] /\
  bounds_of (inflight (settle truncating_reader 0 (Require 0 3 (scan_init Z))))
    <> [(0, 0 + (3 - 0) / 2 - 1); (0 + (3 - 0) / 2, 3)] /\
  bounds_of (inflight (settle truncating_reader 0 (Require 0 2 (scan_init Z))))
    = [(1, 2)].
Proof.
  repeat split; try (vm_compute; reflexivity); vm_compute; discriminate.
Qed.

(** ** getTableAll: a rejected sub-query *)

(** C3 at its failing input: the range [[0, 10]] with the hint 5, the
    query over [[5, 10]] being rejected.  The [catch] callback of that
    query removes the first promise of [pool], which is the promise of the
    other query, and leaves its own; the rejection reaches nobody; and
    once the other query is answered [getTableAll] returns its rows as if
    nothing had happened. *)
Theorem getTableAll_rejection_unreported :
  let st0 := first_requests Z 0 10 [5] in
  pool st0 = [0; 1]%nat /\
  bounds_of (inflight st0) = [(0, 5); (5, 10)] /\
  pool (settle rejecting_reader 1 st0) = [1%nat] /\
  (forall (q : Query) (err : string) (st : Scan Z),
     pool (on_rejected q err st) = tl (pool st) /\
     ret (on_rejected q err st) = ret st /\
     unhandled (on_rejected q err st) = unhandled st ++ [err]) /\
  exists st,
    getTableAll rejecting_reader (JNum 0) (JNum 10) [JNum 5]
                [Settle 1; Tick; Settle 0; Tick] = Some (Done st) /\
    ret st = [1; 2] /\
    unhandled st = ["connection reset"%string].
Proof.
  split; [reflexivity | split; [reflexivity | split; [reflexivity | split]]].
  - intros q err st. repeat split. simpl. unfold splice1. simpl.
    destruct (pool st); reflexivity.
  - eexists. repeat split; vm_compute; reflexivity.
Qed.

(** ** getTableAll: the sentinel of the upper bound *)

(** C9 at its failing input: the sentinel passed as the string "-1".  The
    number -1 and the falsy values give 2^64 - 1, but the string "-1" is
    truthy and not strictly equal to the number -1, so that the upper
    bound is -1; the range is then empty, no query is sent and the scan
    returns no row. *)
Theorem upper_of_string_sentinel :
  upper_of (JNum (-1)) = Some UINT64_MAX /\
  upper_of JUndefined = Some UINT64_MAX /\
  upper_of (JNum 0) = Some UINT64_MAX /\
  upper_of (JStr "-1") = Some (-1) /\
  forall (R : Type) (remote : RangeRemote R) (sched : list Event),
    getTableAll remote (JNum 0) (JStr "-1") [] sched = Some (Done (scan_init R)).
Proof.
  repeat split.
Qed.

(** ** getActions: retries *)

Lemma getActions_loop_retry (fuel : nat) (remote : ActionsRemote) (n : nat)
    (offset pos endPos : Z) (actions : list Action) :
  is_rejection (remote n pos (endPos - pos)) = true ->
  getActions_loop (S fuel) remote n offset pos endPos actions =
    (fst (getActions_loop fuel remote (S n) offset pos endPos actions),
     mkRequest pos (endPos - pos)
       :: snd (getActions_loop fuel remote (S n) offset pos endPos actions)).
Proof.
  intro H. simpl. destruct (remote n pos (endPos - pos)) as [r| |msg];
    [discriminate | reflexivity | reflexivity].
Qed.

(** C8, as amended.  As long as the request produces no reply, because it
    times out or because it is rejected for any other reason, it is sent
    again unchanged: after [k] such attempts the loop is where it started,
    whatever [k], so that none of them is escalated; and a reply without
    [actions] that comes then is raised at once, not retried. *)
Theorem getActions_retries (remote : ActionsRemote) (n k fuel : nat)
    (offset pos endPos : Z) (actions : list Action) :
  (forall j, (j < k)%nat -> is_rejection (remote (n + j)%nat pos (endPos - pos)) = true) ->
  let request := mkRequest pos (endPos - pos) in
  let rest := getActions_loop fuel remote (n + k) offset pos endPos actions in
  getActions_loop (k + fuel) remote n offset pos endPos actions =
    (fst rest, repeat request k ++ snd rest) /\
  getActions_loop k remote n offset pos endPos actions = (Running, repeat request k) /\
  (is_application_error (remote (n + k)%nat pos (endPos - pos)) = true ->
   getActions_loop (k + S fuel) remote n offset pos endPos actions =
     (Thrown (ErrGetActionsFailed pos offset), repeat request k ++ [request])).
Proof.
  intros Hrej request rest. subst rest.
  assert (Hgen : forall f,
    getActions_loop (k + f) remote n offset pos endPos actions =
      (fst (getActions_loop f remote (n + k) offset pos endPos actions),
       repeat request k
         ++ snd (getActions_loop f remote (n + k) offset pos endPos actions))).
  { revert n Hrej. induction k as [|k IH]; intros n Hrej f.
    - rewrite Nat.add_0_r. simpl. now destruct (getActions_loop f _ _ _ _ _ _).
    - change (S k + f)%nat with (S (k + f)).
      rewrite getActions_loop_retry
        by (specialize (Hrej 0%nat); rewrite Nat.add_0_r in Hrej; apply Hrej; lia).
      rewrite (IH (S n)).
      + replace (S n + k)%nat with (n + S k)%nat by lia. reflexivity.
      + intros j Hj. replace (S n + j)%nat with (n + S j)%nat by lia.
        apply Hrej. lia. }
  split; [apply Hgen | split].
  - specialize (Hgen 0%nat). rewrite Nat.add_0_r in Hgen. rewrite Hgen.
    simpl. now rewrite app_nil_r.
  - intro Happ. rewrite Hgen. simpl.
    destruct (remote (n + k)%nat pos (endPos - pos)) as [[| |acts]| |msg];
      try discriminate; reflexivity.
Qed.

(** Two attempts without a reply, then the answer. *)
Lemma getActions_retries_witness :
  let request := mkRequest 5 (7 - 5) in
  let rest := getActions_loop 3 flaky_reader (0 + 2) 2 5 7 [] in
  getActions_loop (2 + 3) flaky_reader 0 2 5 7 [] =
    (fst rest, repeat request 2 ++ snd rest) /\
  getActions_loop 2 flaky_reader 0 2 5 7 [] = (Running, repeat request 2) /\
  (is_application_error (flaky_reader (0 + 2)%nat 5 (7 - 5)) = true ->
   getActions_loop (2 + 4) flaky_reader 0 2 5 7 [] =
     (Thrown (ErrGetActionsFailed 5 2), repeat request 2 ++ [request])).
Proof.
  apply (getActions_retries flaky_reader 0 2 3 2 5 7 []).
  intros j Hj. destruct j as [|[|j]]; [reflexivity | reflexivity | lia].
Defined.

(** C8, as stated, fails: the request is not only retried when it times
    out.  The first call of [flaky_reader] fails with a transport error,
    and the same request is sent again. *)
Lemma retry_after_transport_failure :
  flaky_reader 0%nat 5 2 = Failed "connection reset"%string /\
  flaky_reader 0%nat 5 2 <> TimedOut /\
  getActions 3 flaky_reader 5 2 =
    (Returned [entry 5; entry 6; entry 7],
     [mkRequest 5 2; mkRequest 5 2; mkRequest 5 2]).
Proof.
  repeat split; try (vm_compute; reflexivity). discriminate.
Qed.

(** ** getActions: the window *)

Section SortedLog.

Lemma filter_compose (A : Type) (f g h : A -> bool) (l : list A) :
  (forall x, In x l -> f x = g x && h x) ->
  filter f l = filter g (filter h l).
Proof.
  induction l as [|x l IH]; intro H; simpl; [reflexivity|].
  rewrite (H x (or_introl eq_refl)).
  rewrite IH by (intros; apply H; now right).
  destruct (h x); simpl; [now rewrite andb_true_r | now rewrite andb_false_r].
Qed.

Lemma filter_none (A : Type) (f : A -> bool) (l : list A) :
  (forall x, In x l -> f x = false) -> filter f l = [].
Proof.
  induction l as [|x l IH]; intro H; simpl; [reflexivity|].
  rewrite (H x (or_introl eq_refl)). apply IH. intros; apply H; now right.
Qed.

Lemma filter_every (A : Type) (f : A -> bool) (l : list A) :
  (forall x, In x l -> f x = true) -> filter f l = l.
Proof.
  induction l as [|x l IH]; intro H; simpl; [reflexivity|].
  rewrite (H x (or_introl eq_refl)). f_equal. apply IH.
  intros; apply H; now right.
Qed.

Lemma StronglySorted_filter (A : Type) (lt : A -> A -> Prop) (f : A -> bool)
    (l : list A) :
  StronglySorted lt l -> StronglySorted lt (filter f l).
Proof.
  induction 1 as [|x l Hs IH Hall]; simpl; [constructor|].
  destruct (f x); [|assumption]. constructor; [assumption|].
  rewrite Forall_forall in *. intros y Hy. apply Hall.
  apply filter_In in Hy. tauto.
Qed.

Lemma StronglySorted_app_lt (A : Type) (lt : A -> A -> Prop) (l1 l2 : list A) :
  StronglySorted lt (l1 ++ l2) ->
  forall x y, In x l1 -> In y l2 -> lt x y.
Proof.
  induction l1 as [|h t IH]; simpl; intros Hs x y Hx Hy; [destruct Hx|].
  inversion Hs as [|? ? Hs' Hall]; subst.
  destruct Hx as [<-|Hx].
  - rewrite Forall_forall in Hall. apply Hall, in_or_app. now right.
  - now apply IH.
Qed.

Lemma StronglySorted_app_l (A : Type) (lt : A -> A -> Prop) (l1 l2 : list A) :
  StronglySorted lt (l1 ++ l2) -> StronglySorted lt l1.
Proof.
  induction l1 as [|h t IH]; simpl; intro Hs; [constructor|].
  inversion Hs as [|? ? Hs' Hall]; subst. constructor; [now apply IH|].
  apply Forall_app in Hall. tauto.
Qed.

Lemma last_cons (A : Type) (t : list A) (y h : A) : last (y :: t) h = last t y.
Proof.
  revert y h; induction t as [|a t IH]; intros y h; [reflexivity|].
  change (last (y :: a :: t) h) with (last (a :: t) h).
  now rewrite (IH a h), (IH a y).
Qed.

Lemma last_In (A : Type) (t : list A) (h : A) : In (last t h) (h :: t).
Proof.
  revert h; induction t as [|x t IH]; intro h; [now left|].
  rewrite last_cons. right. apply IH.
Qed.

(** In a log in ascending order the last entry of a page carries its
    greatest sequence number. *)
Lemma last_is_greatest (t : list Action) (h x : Action) :
  StronglySorted seq_lt (h :: t) -> In x (h :: t) ->
  account_action_seq x <= account_action_seq (last t h).
Proof.
  revert h x; induction t as [|y t IH]; intros h x Hs Hx.
  - destruct Hx as [<-|[]]. simpl. lia.
  - inversion Hs as [|? ? Hs' Hall]; subst.
    rewrite last_cons.
    destruct Hx as [<-|Hx].
    + rewrite Forall_forall in Hall.
      specialize (Hall _ (last_In _ t y)). unfold seq_lt in Hall. lia.
    + now apply IH.
Qed.

Variable log : list Action.
Variable maxPageSize : nat.
Hypothesis Hsorted : StronglySorted seq_lt log.
Hypothesis Hpage : (1 <= maxPageSize)%nat.

(** The entries that a page leaves over are those of the window that
    starts after the last entry of the page. *)
Lemma window_after_page (pos endPos : Z) (p : Action) (ps : list Action) :
  firstn maxPageSize (filter (in_window pos (endPos - pos)) log) = p :: ps ->
  let m := account_action_seq (last ps p) in
  pos <= m <= endPos /\
  filter (in_window (m + 1) (endPos - (m + 1))) log =
    skipn maxPageSize (filter (in_window pos (endPos - pos)) log).
Proof.
  intros Hfirst m.
  set (X := filter (in_window pos (endPos - pos)) log) in *.
  pose proof (firstn_skipn maxPageSize X) as Hsplit. rewrite Hfirst in Hsplit.
  assert (HsX : StronglySorted seq_lt X) by now apply StronglySorted_filter.
  rewrite <- Hsplit in HsX.
  assert (Hlast : In (last ps p) X).
  { rewrite <- Hsplit. apply in_or_app. left. apply last_In. }
  assert (Hm : pos <= m <= endPos).
  { apply filter_In in Hlast as [_ Hw]. unfold in_window in Hw.
    apply andb_prop in Hw as [H1 H2]. apply Z.leb_le in H1, H2.
    unfold m. lia. }
  split; [exact Hm|].
  rewrite (filter_compose _ _ (fun a => m <? account_action_seq a)
             (in_window pos (endPos - pos))).
  - fold X. rewrite <- Hsplit at 1. rewrite filter_app.
    rewrite filter_none, filter_every; [reflexivity | |].
    + intros y Hy. apply Z.ltb_lt.
      exact (StronglySorted_app_lt _ _ _ _ HsX _ _ (last_In _ ps p) Hy).
    + intros x Hx. apply Z.ltb_ge.
      apply last_is_greatest; [|assumption].
      exact (StronglySorted_app_l _ _ _ _ HsX).
  - intros a _. unfold in_window.
    destruct (Z.leb_spec (m + 1) (account_action_seq a)),
             (Z.leb_spec (account_action_seq a) (m + 1 + (endPos - (m + 1)))),
             (Z.ltb_spec m (account_action_seq a)),
             (Z.leb_spec pos (account_action_seq a)),
             (Z.leb_spec (account_action_seq a) (pos + (endPos - pos)));
      simpl; try reflexivity; lia.
Qed.

(** A page that reaches the end of the window leaves nothing over. *)
Lemma page_reaches_end (pos endPos : Z) (p : Action) (ps : list Action) :
  firstn maxPageSize (filter (in_window pos (endPos - pos)) log) = p :: ps ->
  endPos <= account_action_seq (last ps p) ->
  filter (in_window pos (endPos - pos)) log = p :: ps.
Proof.
  intros Hfirst Hend.
  destruct (window_after_page pos endPos p ps Hfirst) as [_ Hrest].
  pose proof (firstn_skipn maxPageSize (filter (in_window pos (endPos - pos)) log))
    as Hsplit.
  rewrite <- Hrest, Hfirst in Hsplit. rewrite <- Hsplit.
  rewrite filter_none; [now rewrite app_nil_r|].
  intros a _. unfold in_window.
  destruct (Z.leb_spec (account_action_seq (last ps p) + 1) (account_action_seq a)),
           (Z.leb_spec (account_action_seq a)
              (account_action_seq (last ps p) + 1
                + (endPos - (account_action_seq (last ps p) + 1))));
    simpl; try reflexivity; lia.
Qed.

Lemma getActions_loop_window (offset endPos : Z) (fuel n : nat) (pos : Z)
    (actions : list Action) :
  (length (filter (in_window pos (endPos - pos)) log) < fuel)%nat ->
  fst (getActions_loop fuel (sequence_reader log maxPageSize) n offset pos endPos actions)
    = Returned (actions ++ filter (in_window pos (endPos - pos)) log).
Proof.
  revert n pos actions; induction fuel as [|fuel IH]; intros n pos actions Hlen;
    [lia|].
  simpl. unfold sequence_reader at 1.
  destruct (firstn maxPageSize (filter (in_window pos (endPos - pos)) log))
    as [|p ps] eqn:Hfirst.
  - simpl. destruct (Z.ltb_spec (pos - 1) pos); [|lia]. simpl.
    destruct (filter (in_window pos (endPos - pos)) log) as [|x X].
    + now rewrite app_nil_r.
    + destruct maxPageSize; [lia | discriminate].
  - destruct (window_after_page pos endPos p ps Hfirst) as [Hm Hrest].
    cbn [last_action].
    destruct (Z.ltb_spec (account_action_seq (last ps p)) pos); [lia|].
    destruct (Z.leb_spec endPos (account_action_seq (last ps p))) as [Hend|Hmore].
    + simpl. now rewrite (page_reaches_end pos endPos p ps Hfirst Hend).
    + cbn [fst]. rewrite IH.
      * rewrite Hrest, <- app_assoc, <- Hfirst, firstn_skipn. reflexivity.
      * rewrite Hrest.
        pose proof (firstn_skipn maxPageSize
                      (filter (in_window pos (endPos - pos)) log)) as Hsplit.
        apply (f_equal (@length Action)) in Hsplit.
        rewrite length_app, Hfirst in Hsplit. simpl in Hsplit. lia.
Qed.

End SortedLog.

(** C5.  Against a sequence reader that holds a log in ascending order and
    returns at least one entry per page, [getActions] returns, for every
    [startPos] and [offset], the entries of the log with sequence numbers
    from [startPos] to [startPos + offset], in the order of the log; and
    against any remote one round of its loop does what the specification
    says: an empty page or a page whose last sequence number is below the
    cursor ends the scan with nothing appended, a page whose last sequence
    number reaches the end of the window is appended and ends the scan,
    and any other page is appended and moves the cursor just after its
    last sequence number. *)
Theorem getActions_covers_window (log : list Action) (maxPageSize : nat)
    (startPos offset : Z) :
  StronglySorted seq_lt log ->
  (1 <= maxPageSize)%nat ->
  let window := filter (in_window startPos offset) log in
  (forall fuel, (length log < fuel)%nat ->
     fst (getActions fuel (sequence_reader log maxPageSize) startPos offset)
       = Returned window) /\
  StronglySorted seq_lt window /\
  (forall a, In a window <->
     In a log /\ startPos <= account_action_seq a <= startPos + offset) /\
  (forall (remote : ActionsRemote) (fuel n : nat) (off pos endPos : Z)
          (actions acts : list Action),
     remote n pos (endPos - pos) = Replied (Actions acts) ->
     let request := mkRequest pos (endPos - pos) in
     let round := getActions_loop (S fuel) remote n off pos endPos actions in
     match last_action acts with
     | None => round = (Returned actions, [request])
     | Some a =>
         let m := account_action_seq a in
         (m < pos -> round = (Returned actions, [request])) /\
         (pos <= m -> endPos <= m -> round = (Returned (actions ++ acts), [request])) /\
         (pos <= m < endPos ->
          round = (fst (getActions_loop fuel remote (S n) off (m + 1) endPos (actions ++ acts)),
                   request :: snd (getActions_loop fuel remote (S n) off (m + 1) endPos
                                                  (actions ++ acts))))
     end).
Proof.
  intros Hsorted Hpage window. repeat split.
  - intros fuel Hfuel. unfold getActions.
    rewrite (getActions_loop_window log maxPageSize Hsorted Hpage).
    + simpl. unfold window. now replace (startPos + offset - startPos) with offset by lia.
    + pose proof (filter_length_le (in_window startPos (startPos + offset - startPos)) log).
      lia.
  - now apply StronglySorted_filter.
  - unfold window in H. now apply filter_In in H.
  - unfold window in H. apply filter_In in H as [_ H]. unfold in_window in H.
    apply andb_prop in H as [H _]. now apply Z.leb_le.
  - unfold window in H. apply filter_In in H as [_ H]. unfold in_window in H.
    apply andb_prop in H as [_ H]. now apply Z.leb_le.
  - intros (Hin & H1 & H2). unfold window. apply filter_In. split; [assumption|].
    unfold in_window. apply andb_true_intro. split; now apply Z.leb_le.
  - intros remote fuel n off pos endPos actions acts Hreply request round.
    unfold round. cbn [getActions_loop]. rewrite Hreply.
    destruct (last_action acts) as [a|].
    + repeat split.
      * intro Hlow. destruct (Z.ltb_spec (account_action_seq a) pos); [reflexivity | lia].
      * intros Hlow Hend.
        destruct (Z.ltb_spec (account_action_seq a) pos); [lia|].
        destruct (Z.leb_spec endPos (account_action_seq a)); [reflexivity | lia].
      * intros [Hlow Hend].
        destruct (Z.ltb_spec (account_action_seq a) pos); [lia|].
        destruct (Z.leb_spec endPos (account_action_seq a)); [lia | reflexivity].
    + destruct (Z.ltb_spec (pos - 1) pos); [reflexivity | lia].
Qed.

(** The log 0, 1, ..., 9 read in pages of three entries from position 2
    with offset 5. *)
Lemma getActions_covers_window_witness :
  (forall fuel, (length (map entry keys_0_9) < fuel)%nat ->
     fst (getActions fuel (sequence_reader (map entry keys_0_9) 3) 2 5)
       = Returned (filter (in_window 2 5) (map entry keys_0_9))) /\
  filter (in_window 2 5) (map entry keys_0_9) =
    [entry 2; entry 3; entry 4; entry 5; entry 6; entry 7].
Proof.
  split; [|reflexivity].
  apply (getActions_covers_window (map entry keys_0_9) 3 2 5).
  - unfold keys_0_9; simpl.
    repeat (constructor; [|repeat constructor; unfold seq_lt; simpl; lia]).
    constructor.
  - lia.
Defined.

(** ** getAllActionsBatch: delivery *)

Section Delivery.
Variable rq : Z -> option (list Action).
Variable startPos count concurrent : Z.
Hypothesis Hcount : 0 < count.

Lemma StronglySorted_app_intro (A : Type) (lt : A -> A -> Prop) (l1 l2 : list A) :
  StronglySorted lt l1 -> StronglySorted lt l2 ->
  (forall x y, In x l1 -> In y l2 -> lt x y) ->
  StronglySorted lt (l1 ++ l2).
Proof.
  induction l1 as [|h t IH]; simpl; intros H1 H2 Hcross; [assumption|].
  inversion H1 as [|? ? Ht Hall]; subst. constructor.
  - apply IH; auto.
  - apply Forall_app. split; [assumption|].
    rewrite Forall_forall. intros y Hy. apply Hcross; auto.
Qed.

Lemma StronglySorted_positions (pages : list Page) :
  StronglySorted page_lt pages <-> StronglySorted Z.lt (map fst pages).
Proof.
  induction pages as [|p ps IH]; simpl; split; intro H; try constructor;
    inversion H as [|? ? Hs Hall]; subst.
  - now apply IH.
  - rewrite Forall_forall in *. intros x Hx.
    apply in_map_iff in Hx as (q & <- & Hq). now apply Hall.
  - now apply IH.
  - rewrite Forall_forall in *. intros q Hq. apply Hall. now apply in_map.
Qed.

Lemma request_all_spec (ranges : list Z) (results : list Page) :
  request_all rq ranges = Some results ->
  map fst results = ranges /\
  Forall (fun p => rq (fst p) = Some (snd p)) results.
Proof.
  revert results; induction ranges as [|x xs IH]; simpl; intros results H.
  - inversion H; subst. split; constructor.
  - destruct (rq x) as [acts|] eqn:Hx; [|discriminate].
    destruct (request_all rq xs) as [pages|]; [|discriminate].
    inversion H; subst. destruct (IH _ eq_refl) as [Hmap Hall].
    simpl. split; [now rewrite Hmap | now constructor].
Qed.

Lemma deliver_after_short (pages received : list Page) :
  fold_left (deliver_step count) pages (false, received) = (false, received).
Proof.
  induction pages as [|p ps IH]; simpl; [reflexivity | assumption].
Qed.

(** The [reduce] hands over a prefix of the pages: all of them when all
    are full, and otherwise the full ones that come first and the page
    after them. *)
Lemma deliver_spec (pages received : list Page) :
  let out := fold_left (deliver_step count) pages (true, received) in
  exists delivered rest,
    pages = delivered ++ rest /\
    snd out = received ++ delivered /\
    (fst out = true -> rest = [] /\ Forall (is_full count) delivered) /\
    (fst out = false ->
     exists before p, delivered = before ++ [p] /\ Forall (is_full count) before).
Proof.
  revert received; induction pages as [|p ps IH]; intros received; simpl.
  - exists [], []. repeat split; simpl; try constructor;
      [now rewrite app_nil_r | discriminate].
  - destruct (Z.leb_spec count (Z.of_nat (length (snd p)))) as [Hfull|Hshort].
    + destruct (IH (received ++ [p])) as (d & rest & Hsplit & Hsnd & Ht & Hf).
      exists (p :: d), rest. split; [now rewrite Hsplit | split].
      * rewrite Hsnd, <- app_assoc. reflexivity.
      * split.
        -- intro H. destruct (Ht H) as [Hrest Hall]. split; [assumption|].
           now constructor.
        -- intro H. destruct (Hf H) as (before & q & -> & Hall).
           exists (p :: before), q. split; [reflexivity | now constructor].
    + rewrite deliver_after_short. simpl.
      exists [p], ps. repeat split; try discriminate.
      intros _. exists [], p. split; [reflexivity | constructor].
Qed.

Lemma batch_loop_delivers (fuel : nat) (i : Z) (ranges : list Z)
    (received : list Page) :
  batch_invariant rq startPos count i ranges received ->
  let run := batch_loop fuel rq startPos count concurrent i ranges received in
  delivered_in_order rq count (fst run) (snd run).
Proof.
  revert i ranges received; induction fuel as [|fuel IH];
    intros i ranges received (Hranges & Hbelow & Hcross & Hrecv & Hsorted & Hans & Hfull).
  - simpl. split; [assumption | split; [assumption | now left]].
  - cbn [batch_loop].
    set (b := startPos + i * count).
    assert (Hranges1 : StronglySorted Z.lt (ranges ++ [b])).
    { apply StronglySorted_app_intro; [assumption | repeat constructor |].
      intros x y Hx [<-|[]]. rewrite Forall_forall in Hbelow. now apply Hbelow. }
    assert (Hcross1 : forall p x, In p received -> In x (ranges ++ [b]) -> fst p < x).
    { intros p x Hp Hx. apply in_app_or in Hx as [Hx|[<-|[]]]; [now apply Hcross|].
      rewrite Forall_forall in Hrecv. now apply Hrecv. }
    assert (Hbelow1 : Forall (fun x => x < startPos + (i + 1) * count) (ranges ++ [b])).
    { apply Forall_app. split.
      - eapply Forall_impl; [|exact Hbelow]. simpl. intros; lia.
      - repeat constructor. unfold b. lia. }
    assert (Hrecv1 : Forall (fun p => fst p < startPos + (i + 1) * count) received).
    { eapply Forall_impl; [|exact Hrecv]. simpl. intros; lia. }
    destruct (is_batch_end i concurrent).
    + destruct (request_all rq (ranges ++ [b])) as [results|] eqn:Hreq.
      * destruct (request_all_spec _ _ Hreq) as [Hpos Hgot].
        destruct (filter non_empty results) as [|p0 ps0] eqn:Hne.
        { simpl. split; [assumption | split; [assumption | now left]]. }
        rewrite <- Hne.
        destruct (deliver_spec (filter non_empty results) received)
          as (d & rest & Hsplit & Hsnd & Ht & Hf).
        destruct (fold_left (deliver_step count) (filter non_empty results)
                            (true, received)) as [allFull received1].
        simpl in Hsnd, Ht, Hf. subst received1.
        assert (Hd : forall p, In p d ->
                       In (fst p) (ranges ++ [b]) /\ answered_by rq p).
        { intros p Hp.
          assert (Hin : In p (filter non_empty results))
            by (rewrite Hsplit; apply in_or_app; now left).
          apply filter_In in Hin as [Hin Hnon]. split.
          - rewrite <- Hpos. now apply in_map.
          - rewrite Forall_forall in Hgot. split; [now apply Hgot|].
            unfold non_empty in Hnon. destruct (snd p); [discriminate|].
            discriminate. }
        assert (Hsorted1 : StronglySorted page_lt (received ++ d)).
        { apply StronglySorted_app_intro; [assumption | |].
          - apply StronglySorted_app_l with (l2 := rest). rewrite <- Hsplit.
            apply StronglySorted_filter, StronglySorted_positions.
            now rewrite Hpos.
          - intros x y Hx Hy. unfold page_lt. apply Hcross1; [assumption|].
            now apply Hd. }
        assert (Hans1 : Forall (answered_by rq) (received ++ d)).
        { apply Forall_app. split; [assumption|].
          rewrite Forall_forall. intros p Hp. now apply Hd. }
        destruct allFull; simpl.
        -- destruct (Ht eq_refl) as [_ Hall].
           apply IH. repeat split; try assumption; try constructor.
           ++ intros p x _ [].
           ++ apply Forall_app. split; [assumption|].
              rewrite Forall_forall in *. intros p Hp.
              apply Hbelow1. now apply Hd.
           ++ apply Forall_app. now split.
        -- destruct (Hf eq_refl) as (before & p & -> & Hall).
           split; [assumption | split; [assumption | right]].
           exists (received ++ before), p. rewrite app_assoc.
           repeat split. apply Forall_app. now split.
      * simpl. split; [assumption | split; [assumption | now left]].
    + apply IH. repeat split; assumption.
Qed.

End Delivery.

Lemma deliver_handed_over (count : Z) (pages received : list Page) :
  fold_left (deliver_step count) pages (true, received) =
    (forallb (is_fullb count) pages, received ++ handed_over count pages).
Proof.
  revert received; induction pages as [|p ps IH]; intro received.
  - simpl. now rewrite app_nil_r.
  - change (fold_left (deliver_step count) (p :: ps) (true, received))
      with (fold_left (deliver_step count) ps (is_fullb count p, received ++ [p])).
    cbn [forallb handed_over].
    destruct (is_fullb count p); cbn [andb].
    + rewrite IH, <- app_assoc. reflexivity.
    + now rewrite deliver_after_short.
Qed.

(** The positions of the pages of a batch. *)
Lemma indices_app (b : Z) (n m : nat) :
  indices b (n + m) = indices b n ++ indices (b + Z.of_nat n) m.
Proof.
  revert b. induction n as [|n IH]; intros b.
  - simpl. f_equal. lia.
  - cbn [Nat.add indices app]. rewrite IH. f_equal. f_equal. f_equal. lia.
Qed.

Lemma indices_snoc (b : Z) (n : nat) :
  indices b n ++ [b + Z.of_nat n] = indices b (S n).
Proof.
  replace (S n) with (n + 1)%nat by lia. rewrite indices_app. reflexivity.
Qed.

Lemma In_indices (b : Z) (n : nat) (j : Z) :
  In j (indices b n) <-> b <= j < b + Z.of_nat n.
Proof.
  revert b. induction n as [|n IH]; intros b.
  - simpl. lia.
  - cbn [indices In]. rewrite IH. lia.
Qed.

Lemma handed_over_all (count : Z) (pages : list Page) :
  forallb (is_fullb count) pages = true -> handed_over count pages = pages.
Proof.
  induction pages as [|p ps IH]; intros Hall; [reflexivity|].
  cbn [forallb] in Hall. apply andb_prop in Hall. destruct Hall as [Hp Hps].
  cbn [handed_over]. rewrite Hp, IH by exact Hps. reflexivity.
Qed.

Lemma handed_over_app (count : Z) (fulls pages : list Page) :
  forallb (is_fullb count) fulls = true ->
  handed_over count (fulls ++ pages) = fulls ++ handed_over count pages.
Proof.
  induction fulls as [|p ps IH]; intros Hall; [reflexivity|].
  cbn [forallb] in Hall. apply andb_prop in Hall. destruct Hall as [Hp Hps].
  cbn [handed_over app]. rewrite Hp, IH by exact Hps. reflexivity.
Qed.

Lemma is_batch_end_next (i concurrent : Z) :
  0 <= i -> 0 < concurrent ->
  is_batch_end i concurrent = true ->
  is_batch_end (i + concurrent) concurrent = true.
Proof.
  unfold is_batch_end. intros Hi Hc.
  destruct (Z.eqb_spec concurrent 0); [lia|].
  rewrite !Z.rem_mod_nonneg by lia.
  rewrite !Z.eqb_eq. intros Hrem.
  rewrite <- (Z.mul_1_l concurrent) at 1.
  rewrite Z.mod_add by lia. exact Hrem.
Qed.

(** [i % concurrent === 0] for a position [i >= 0]: the remainder takes the
    sign of [i], so that the sign of [concurrent] does not matter. *)
Lemma is_batch_end_mod (i concurrent : Z) :
  0 <= i -> concurrent <> 0 ->
  is_batch_end i concurrent = (i mod Z.abs concurrent =? 0).
Proof.
  intros Hi Hc. unfold is_batch_end.
  destruct (Z.eqb_spec concurrent 0); [contradiction|].
  destruct (Z.lt_ge_cases concurrent 0) as [Hneg|Hpos].
  - rewrite Z.abs_neq by lia.
    rewrite <- (Z.opp_involutive concurrent) at 1.
    rewrite Z.rem_opp_r by lia. rewrite Z.rem_mod_nonneg by lia. reflexivity.
  - rewrite Z.abs_eq by lia. rewrite Z.rem_mod_nonneg by lia. reflexivity.
Qed.

Section Batches.
Variable rq : Z -> option (list Action).
Variable startPos count concurrent : Z.

(** The rounds of the loop that only collect a position. *)
Lemma batch_loop_collect (m : nat) :
  forall (fuel : nat) (i : Z) (ranges : list Z) (received : list Page),
  (forall j, 0 <= j < Z.of_nat m -> is_batch_end (i + j) concurrent = false) ->
  batch_loop (m + fuel) rq startPos count concurrent i ranges received
  = batch_loop fuel rq startPos count concurrent (i + Z.of_nat m)
      (ranges ++ map (page_pos startPos count) (indices i m)) received.
Proof.
  induction m as [|m IH]; intros fuel i ranges received Hnone.
  - cbn [Nat.add indices map]. rewrite app_nil_r.
    replace (i + Z.of_nat 0) with i by lia. reflexivity.
  - cbn [Nat.add batch_loop].
    rewrite <- (Z.add_0_r i) at 1. rewrite (Hnone 0) by lia.
    rewrite IH.
    + cbn [indices map]. rewrite <- app_assoc.
      replace (i + 1 + Z.of_nat m) with (i + Z.of_nat (S m)) by lia.
      reflexivity.
    + intros j Hj. replace (i + 1 + j) with (i + (1 + j)) by lia.
      apply Hnone. lia.
Qed.

(** One batch of [n] pages from the page of index [b] on: it is requested
    at the round [b + n - 1]; its empty pages are dropped, and the others
    are handed over as long as those before them were full. *)
Lemma batch_loop_batch (n : nat) (fuel : nat) (b : Z) (received : list Page) :
  (forall j, 0 <= j < Z.of_nat n -> is_batch_end (b + j) concurrent = false) ->
  is_batch_end (b + Z.of_nat n) concurrent = true ->
  batch_loop (S n + fuel) rq startPos count concurrent b [] received
  = match request_all rq (map (page_pos startPos count) (indices b (S n))) with
    | None => (Running, received)
    | Some results =>
        match filter non_empty results with
        | [] => (Returned true, received)
        | first :: others =>
            if forallb (is_fullb count) (first :: others)
            then batch_loop fuel rq startPos count concurrent (b + Z.of_nat (S n)) []
                   (received ++ handed_over count (first :: others))
            else (Returned true, received ++ handed_over count (first :: others))
        end
    end.
Proof.
  intros Hnone Hend.
  replace (S n + fuel)%nat with (n + S fuel)%nat by lia.
  rewrite batch_loop_collect by exact Hnone.
  cbn [batch_loop app]. rewrite Hend.
  change (startPos + (b + Z.of_nat n) * count)
    with (page_pos startPos count (b + Z.of_nat n)).
  replace (map (page_pos startPos count) (indices b n)
           ++ [page_pos startPos count (b + Z.of_nat n)])
    with (map (page_pos startPos count) (indices b (S n)))
    by (rewrite <- indices_snoc, map_app; reflexivity).
  destruct (request_all rq (map (page_pos startPos count) (indices b (S n))))
    as [results|]; [|reflexivity].
  destruct (filter non_empty results) as [|first others] eqn:Hnon;
    [reflexivity|].
  rewrite <- Hnon, deliver_handed_over.
  replace (b + Z.of_nat n + 1) with (b + Z.of_nat (S n)) by lia.
  destruct (forallb (is_fullb count) (filter non_empty results)); reflexivity.
Qed.

Hypothesis Hconcurrent : concurrent <> 0.

(** The batches after the first one, each of [|concurrent|] pages. *)
Lemma batch_loop_batches (batches : nat) :
  forall (q : Z) (received : list Page),
  0 <= q ->
  batch_loop (batches * Z.to_nat (Z.abs concurrent)) rq startPos count concurrent
    (q * Z.abs concurrent + 1) [] received
  = scanAllBatches batches rq startPos count (Z.to_nat (Z.abs concurrent))
      (q * Z.abs concurrent + 1) (Z.to_nat (Z.abs concurrent)) received.
Proof.
  assert (Hsize : exists n, Z.to_nat (Z.abs concurrent) = S n
                            /\ Z.of_nat (S n) = Z.abs concurrent).
  { exists (Z.to_nat (Z.abs concurrent - 1)). split; lia. }
  destruct Hsize as (n & Hsize & Habs). rewrite Hsize.
  induction batches as [|batches IH]; intros q received Hq; [reflexivity|].
  cbn [Nat.mul scanAllBatches].
  rewrite batch_loop_batch.
  - destruct (request_all rq
                (map (page_pos startPos count)
                     (indices (q * Z.abs concurrent + 1) (S n))))
      as [results|]; [|reflexivity].
    destruct (filter non_empty results) as [|first others]; [reflexivity|].
    destruct (forallb (is_fullb count) (first :: others)); [|reflexivity].
    replace (q * Z.abs concurrent + 1 + Z.of_nat (S n))
      with ((q + 1) * Z.abs concurrent + 1) by lia.
    apply IH. lia.
  - intros j Hj. rewrite is_batch_end_mod by (try exact Hconcurrent; nia).
    replace (q * Z.abs concurrent + 1 + j)
      with (1 + j + q * Z.abs concurrent) by lia.
    rewrite Z.mod_add by lia. rewrite Z.mod_small by lia.
    apply Z.eqb_neq. lia.
  - rewrite is_batch_end_mod by (try exact Hconcurrent; nia).
    replace (q * Z.abs concurrent + 1 + Z.of_nat n)
      with (0 + (q + 1) * Z.abs concurrent) by lia.
    rewrite Z.mod_add by lia. reflexivity.
Qed.

(** The scan is the walk of the specification: a first batch of one page,
    then batches of [|concurrent|] pages. *)
Lemma getAllActionsBatch_batches (batches : nat) :
  getAllActionsBatch (1 + batches * Z.to_nat (Z.abs concurrent)) rq true
    startPos count concurrent
  = scanAllBatches (S batches) rq startPos count (Z.to_nat (Z.abs concurrent))
      0 1 [].
Proof.
  unfold getAllActionsBatch. cbn [negb scanAllBatches].
  rewrite (batch_loop_batch 0).
  - destruct (request_all rq (map (page_pos startPos count) (indices 0 1)))
      as [results|]; [|reflexivity].
    destruct (filter non_empty results) as [|first others]; [reflexivity|].
    destruct (forallb (is_fullb count) (first :: others)); [|reflexivity].
    exact (batch_loop_batches batches 0 _ (Z.le_refl 0)).
  - intros j Hj. simpl in Hj. lia.
  - unfold is_batch_end. destruct (Z.eqb_spec concurrent 0); [contradiction|].
    reflexivity.
Qed.

End Batches.

(** C2, as amended.  With a positive page size, the pages handed to
    [cbReceive] come in strictly increasing order of position; each of
    them is the non-empty answer of [req] at its position; no page is
    handed over after a short page that was handed over; and once a short
    page has been handed over the scan has ended.  And with a concurrency
    other than 0 the scan is the walk of the specification, batch by batch
    ([scanAllBatches]): a first batch of the one page at [startPos], then
    batches of [|concurrent|] consecutive pages; of each batch the empty
    pages are dropped, and when none is left the scan ends; each of the
    others is handed over as long as all those before it were full, and
    the scan goes on to the next batch when all of them were full.  So
    every non-empty page of a batch that is reached is handed over unless
    a short non-empty page precedes it in its batch, and an empty page
    stops neither the delivery of the pages after it nor, by itself, the
    scan. *)
Theorem getAllActionsBatch_delivery (fuel : nat) (rq : Z -> option (list Action))
    (startPos count concurrent : Z) :
  0 < count ->
  let run := getAllActionsBatch fuel rq true startPos count concurrent in
  StronglySorted Z.lt (map fst (snd run)) /\
  (forall p, In p (snd run) -> rq (fst p) = Some (snd p) /\ snd p <> []) /\
  (forall before p after,
     snd run = before ++ p :: after -> after <> [] ->
     count <= Z.of_nat (length (snd p))) /\
  (forall p, In p (snd run) -> Z.of_nat (length (snd p)) < count ->
     fst run = Returned true) /\
  (concurrent <> 0 ->
   forall batches,
     getAllActionsBatch (1 + batches * Z.to_nat (Z.abs concurrent)) rq true
       startPos count concurrent
     = scanAllBatches (S batches) rq startPos count (Z.to_nat (Z.abs concurrent))
         0 1 []).
Proof.
  intros Hcount run.
  assert (Hinv : batch_invariant rq startPos count 0 [] []).
  { repeat split; try constructor. intros p x []. }
  pose proof (batch_loop_delivers rq startPos count concurrent Hcount fuel 0 [] [] Hinv)
    as (Hsorted & Hans & Hlast).
  change (batch_loop fuel rq startPos count concurrent 0 [] []) with run in *.
  split; [now apply StronglySorted_positions | split; [|split; [|split]]].
  - intros p Hp. rewrite Forall_forall in Hans. exact (Hans p Hp).
  - intros before p after Hsplit Hafter.
    destruct Hlast as [Hall | (before' & q & Heq & Hall & _)].
    + rewrite Forall_forall in Hall. apply Hall. rewrite Hsplit.
      apply in_or_app. right. now left.
    + destruct (exists_last Hafter) as (after' & z & ->).
      rewrite Hsplit in Heq.
      change (before ++ p :: after' ++ [z]) with (before ++ (p :: after') ++ [z]) in Heq.
      rewrite app_assoc in Heq. apply app_inj_tail in Heq as [Heq _].
      rewrite Forall_forall in Hall. apply Hall. rewrite <- Heq.
      apply in_or_app. right. now left.
  - intros p Hp Hshort.
    destruct Hlast as [Hall | (before' & q & _ & _ & Hret)]; [|assumption].
    rewrite Forall_forall in Hall. specialize (Hall p Hp). unfold is_full in Hall. lia.
  - intros Hconcurrent batches.
    apply getAllActionsBatch_batches. exact Hconcurrent.
Qed.

(** The log 0, 1, ..., 9 in pages of four with two requests per batch: two
    full pages and a short one, in three batches. *)
Lemma getAllActionsBatch_delivery_witness :
  let rq := req 3 10 (sequence_reader (map entry keys_0_9) 100) 4 in
  let run := getAllActionsBatch 5 rq true 0 4 2 in
  run = (Returned true,
         [(0, [entry 0; entry 1; entry 2; entry 3]);
          (4, [entry 4; entry 5; entry 6; entry 7]);
          (8, [entry 8; entry 9])]) /\
  StronglySorted Z.lt (map fst (snd run)) /\
  (forall p, In p (snd run) -> rq (fst p) = Some (snd p) /\ snd p <> []) /\
  (forall before p after,
     snd run = before ++ p :: after -> after <> [] ->
     4 <= Z.of_nat (length (snd p))) /\
  (forall p, In p (snd run) -> Z.of_nat (length (snd p)) < 4 ->
     fst run = Returned true) /\
  (2 <> 0 ->
   forall batches,
     getAllActionsBatch (1 + batches * Z.to_nat (Z.abs 2)) rq true 0 4 2
     = scanAllBatches (S batches) rq 0 4 (Z.to_nat (Z.abs 2)) 0 1 []).
Proof.
  split; [vm_compute; reflexivity|].
  apply (getAllActionsBatch_delivery 5
           (req 3 10 (sequence_reader (map entry keys_0_9) 100) 4) 0 4 2).
  lia.
Defined.

(** C2, as stated, fails.  With pages of two and two requests per batch
    over the log 0, 1, 4, 5, the second batch asks for the positions 2 and
    4; the page at 2 is empty, hence short, and the page at 4, which is
    positioned after it, is handed over all the same; nor does the scan
    end with that batch.  And without a positive page size the order of
    delivery fails: with the page size 0 every batch asks for the same
    position, and against a remote that answers with an action whatever
    the window, the page of that position is handed over again and
    again. *)
Lemma getAllActionsBatch_delivers_after_empty_page :
  let rq := req 3 10 (sequence_reader gap_log 100) 2 in
  rq 2 = Some [] /\
  getAllActionsBatch 5 rq true 0 2 2 =
    (Returned true, [(0, [entry 0; entry 1]); (4, [entry 4; entry 5])]) /\
  getAllActionsBatch 4 rq true 0 2 2 =
    (Running, [(0, [entry 0; entry 1]); (4, [entry 4; entry 5])]) /\
  ~ nothing_after_short_page rq 0 2 2 /\
  getAllActionsBatch 3 (req 1 2 deaf_reader 0) true 0 0 1 =
    (Running, [(0, [entry 7]); (0, [entry 7]); (0, [entry 7])]).
Proof.
  intro rq.
  assert (Hempty : rq 2 = Some []) by (vm_compute; reflexivity).
  assert (Hrun : getAllActionsBatch 5 rq true 0 2 2 =
            (Returned true, [(0, [entry 0; entry 1]); (4, [entry 4; entry 5])]))
    by (vm_compute; reflexivity).
  split; [exact Hempty | split; [exact Hrun | split; [|split]]].
  - vm_compute; reflexivity.
  - intro H.
    specialize (H 5%nat 1 [] 4 [entry 4; entry 5]).
    assert (Habs : 4 <= 0 + 1 * 2); [|lia].
    apply H.
    + lia.
    + exact Hempty.
    + simpl. lia.
    + rewrite Hrun. right. now left.
  - vm_compute; reflexivity.
Qed.

(** ** checkTableMore *)

(** A truncated page with a usable cursor: the scan goes on from the key
    of the last row, asking for what is left of the limit and one row
    more, and the first row of the continuation is dropped. *)
Lemma checkTableMore_step (fuel : nat) (getTableRows : TableRemote)
    (getAbi : Settled unit) (primaryKey : string) (limit : Z)
    (lower_bound upper_bound : JsVal) (index_position : Z)
    (result : TableResult Row) (first : Row) (rest : list Row) :
  getTableRows (mkTableQuery limit lower_bound upper_bound index_position)
    = Fulfilled (Some result) ->
  rows result = Some (first :: rest) ->
  more result = true ->
  limit <= 0 \/ Z.of_nat (length (first :: rest)) < limit ->
  truthy (get_field first primaryKey) = true ->
  truthy (get_field (last_row first rest) primaryKey) = true ->
  checkTableMore (S fuel) getTableRows getAbi primaryKey limit lower_bound
                 upper_bound index_position =
    match checkTableMore fuel getTableRows getAbi primaryKey
            (limit - Z.of_nat (length (first :: rest)) + 1)
            (get_field (last_row first rest) primaryKey) upper_bound index_position
    with
    | Returned partResult => Returned ((first :: rest) ++ tl partResult)
    | Thrown e => Thrown e
    | Running => Running
    end.
Proof.
  intros Hq Hrows Hmore Hlimit Hfrom Hto.
  cbn [checkTableMore]. rewrite Hq, Hrows, Hmore, Hfrom, Hto.
  assert (Hcond : (limit <=? 0) || (Z.of_nat (length (first :: rest)) <? limit) = true).
  { apply orb_true_iff. destruct Hlimit; [left; now apply Z.leb_le | right; now apply Z.ltb_lt]. }
  rewrite Hcond. reflexivity.
Qed.

Lemma firstn_add_skipn (A : Type) (a b : nat) (l : list A) :
  firstn (a + b) l = firstn a l ++ firstn b (skipn a l).
Proof.
  revert l; induction a as [|a IH]; intro l; [reflexivity|].
  destruct l as [|x l]; simpl.
  - now rewrite firstn_nil.
  - now rewrite IH.
Qed.

Lemma In_firstn (A : Type) (n : nat) (l : list A) (x : A) :
  In x (firstn n l) -> In x l.
Proof.
  intro H. rewrite <- (firstn_skipn n l). apply in_or_app. now left.
Qed.

(** ** checkTableMore over a table in key order *)

Section CursorScan.
Variable primaryKey : string.
Variable table : list Row.
Variable truncateEvery : nat.
Variable getAbi : Settled unit.
Variable upper_bound : JsVal.
Variable index_position : Z.
Hypothesis Hsorted : StronglySorted (row_lt primaryKey) table.
Hypothesis Hkeys : Forall (has_cursor_key primaryKey) table.
Hypothesis Hpage : (2 <= truncateEvery)%nat.

Lemma cursor_key_truthy (r : Row) :
  In r table ->
  get_field r primaryKey = JNum (key_of primaryKey r) /\
  truthy (get_field r primaryKey) = true.
Proof.
  intro Hin. rewrite Forall_forall in Hkeys.
  destruct (Hkeys r Hin) as (k & Hk & Hnz).
  unfold key_of. rewrite Hk. simpl. split; [reflexivity|].
  destruct (Z.eqb_spec k 0); [contradiction | reflexivity].
Qed.

(** Of a page in key order only the last row is at or after the key of
    the last row. *)
Lemma page_from_last (p : Row) (ps : list Row) :
  StronglySorted (row_lt primaryKey) (p :: ps) ->
  filter (fun r => key_of primaryKey (last ps p) <=? key_of primaryKey r) (p :: ps)
    = [last ps p].
Proof.
  revert p; induction ps as [|y t IH]; intros p Hs.
  - simpl. now rewrite Z.leb_refl.
  - inversion Hs as [|? ? Hs' Hall]; subst.
    rewrite last_cons. cbn [filter].
    rewrite Forall_forall in Hall.
    pose proof (Hall _ (last_In _ t y)) as Hlt. unfold row_lt in Hlt.
    destruct (Z.leb_spec (key_of primaryKey (last t y)) (key_of primaryKey p)); [lia|].
    now apply IH.
Qed.

(** The continuation from the key of the last row of a page finds that
    row again, followed by the rows that the page left over. *)
Lemma cursor_hits_after_page (from : Z) (n : nat) (p : Row) (ps : list Row) :
  firstn n (cursor_hits primaryKey table from) = p :: ps ->
  cursor_hits primaryKey table (key_of primaryKey (last ps p))
    = last ps p :: skipn n (cursor_hits primaryKey table from).
Proof.
  intro Hfirst.
  set (X := cursor_hits primaryKey table from) in *.
  pose proof (firstn_skipn n X) as Hsplit. rewrite Hfirst in Hsplit.
  assert (HsX : StronglySorted (row_lt primaryKey) X)
    by now apply StronglySorted_filter.
  rewrite <- Hsplit in HsX.
  assert (Hlast : In (last ps p) X).
  { rewrite <- Hsplit. apply in_or_app. left. apply last_In. }
  assert (Hfrom : from <= key_of primaryKey (last ps p)).
  { apply filter_In in Hlast as [_ H]. now apply Z.leb_le. }
  unfold cursor_hits at 1.
  rewrite (filter_compose _ _
             (fun r => key_of primaryKey (last ps p) <=? key_of primaryKey r)
             (fun r => from <=? key_of primaryKey r)).
  - fold (cursor_hits primaryKey table from). fold X.
    rewrite <- Hsplit at 1. rewrite filter_app.
    rewrite page_from_last by exact (StronglySorted_app_l _ _ _ _ HsX).
    rewrite filter_every; [reflexivity|].
    intros y Hy. apply Z.leb_le.
    pose proof (StronglySorted_app_lt _ _ _ _ HsX _ _ (last_In _ ps p) Hy) as Hlt.
    unfold row_lt in Hlt. lia.
  - intros r _.
    destruct (Z.leb_spec (key_of primaryKey (last ps p)) (key_of primaryKey r)),
             (Z.leb_spec from (key_of primaryKey r)); simpl; try reflexivity; lia.
Qed.

(** With pages of two rows or more over a table in ascending order of a
    non-zero numeric key, [checkTableMore] returns the rows from the lower
    bound on, up to the limit. *)
Lemma checkTableMore_cursor (fuel : nat) (limit from : Z) :
  (length (cursor_hits primaryKey table from) < fuel)%nat ->
  checkTableMore fuel (cursor_reader primaryKey table truncateEvery) getAbi
                 primaryKey limit (JNum from) upper_bound index_position
    = Returned (up_to_limit limit (cursor_hits primaryKey table from)).
Proof.
  revert limit from; induction fuel as [|fuel IH]; intros limit from Hfuel; [lia|].
  cbn [checkTableMore]. unfold cursor_reader at 1.
  cbn [tq_limit tq_lower_bound BigNumber rows more].
  set (hits := cursor_hits primaryKey table from) in *.
  set (size := cursor_page_size truncateEvery limit).
  destruct (Nat.ltb_spec size (length hits)) as [Hmore|Hall].
  - (* truncated *)
    assert (Hlen : length (firstn size hits) = size)
      by (rewrite length_firstn; lia).
    rewrite Hlen. cbn [andb].
    destruct (Z.leb_spec limit 0) as [Hnolimit|Hlimit]; cbn [orb].
    + (* no limit: continue *)
      assert (Hsize : size = truncateEvery).
      { unfold size, cursor_page_size. destruct (Z.leb_spec limit 0); [reflexivity | lia]. }
      destruct (firstn size hits) as [|p ps] eqn:Hfirst; [simpl in Hlen; lia|].
      assert (Hp : In p table /\ In (last ps p) table).
      { assert (Hincl : forall r, In r (p :: ps) -> In r table).
        { intros r Hr. rewrite <- Hfirst in Hr. apply In_firstn in Hr.
          apply filter_In in Hr. tauto. }
        split; apply Hincl; [now left | apply last_In]. }
      destruct Hp as [Hp Hl].
      destruct (cursor_key_truthy p Hp) as [_ ->].
      unfold last_row.
      destruct (cursor_key_truthy (last ps p) Hl) as [-> ->]. cbn [negb orb].
      rewrite IH.
      * rewrite (cursor_hits_after_page from size p ps Hfirst).
        unfold up_to_limit.
        destruct (Z.leb_spec (limit - Z.of_nat size + 1) 0); [|lia].
        destruct (Z.leb_spec limit 0); [|lia].
        cbn [tl]. fold hits. rewrite <- Hfirst. now rewrite firstn_skipn.
      * rewrite (cursor_hits_after_page from size p ps Hfirst). fold hits.
        cbn [length]. rewrite length_skipn. lia.
    + destruct (Z.ltb_spec (Z.of_nat size) limit) as [Hroom|Hfilled].
      * (* room left under the limit: continue *)
        assert (Hsize : size = truncateEvery).
        { unfold size, cursor_page_size in *.
          destruct (Z.leb_spec limit 0); [lia | lia]. }
        destruct (firstn size hits) as [|p ps] eqn:Hfirst; [simpl in Hlen; lia|].
        assert (Hp : In p table /\ In (last ps p) table).
        { assert (Hincl : forall r, In r (p :: ps) -> In r table).
          { intros r Hr. rewrite <- Hfirst in Hr. apply In_firstn in Hr.
            apply filter_In in Hr. tauto. }
          split; apply Hincl; [now left | apply last_In]. }
        destruct Hp as [Hp Hl].
        destruct (cursor_key_truthy p Hp) as [_ ->].
        unfold last_row.
        destruct (cursor_key_truthy (last ps p) Hl) as [-> ->]. cbn [negb orb].
        rewrite IH.
        -- rewrite (cursor_hits_after_page from size p ps Hfirst).
           unfold up_to_limit.
           destruct (Z.leb_spec (limit - Z.of_nat size + 1) 0); [lia|].
           destruct (Z.leb_spec limit 0); [lia|].
           fold hits.
           replace (Z.to_nat (limit - Z.of_nat size + 1))
             with (S (Z.to_nat limit - size)) by lia.
           cbn [firstn tl].
           replace (Z.to_nat limit) with (size + (Z.to_nat limit - size))%nat at 2 by lia.
           rewrite firstn_add_skipn, Hfirst. reflexivity.
        -- rewrite (cursor_hits_after_page from size p ps Hfirst). fold hits.
           cbn [length]. rewrite length_skipn. lia.
      * (* the limit is filled *)
        assert (Hsize : size = Z.to_nat limit).
        { unfold size, cursor_page_size in *.
          destruct (Z.leb_spec limit 0); lia. }
        unfold up_to_limit. destruct (Z.leb_spec limit 0); [lia|].
        now rewrite Hsize.
  - (* the answer is complete *)
    cbn [andb]. rewrite firstn_all2 by assumption.
    unfold up_to_limit. destruct (Z.leb_spec limit 0); [reflexivity|].
    rewrite firstn_all2; [reflexivity|].
    unfold size, cursor_page_size in Hall.
    destruct (Z.leb_spec limit 0); lia.
Qed.

End CursorScan.

Lemma StronglySorted_firstn (A : Type) (lt : A -> A -> Prop) (n : nat) (l : list A) :
  StronglySorted lt l -> StronglySorted lt (firstn n l).
Proof.
  intro H. rewrite <- (firstn_skipn n l) in H.
  exact (StronglySorted_app_l _ _ _ _ H).
Qed.

Lemma row_lt_NoDup (primaryKey : string) (l : list Row) :
  StronglySorted (row_lt primaryKey) l -> NoDup (map (key_of primaryKey) l).
Proof.
  induction 1 as [|r l Hs IH Hall]; simpl; constructor; [|assumption].
  intro Hin. apply in_map_iff in Hin as (x & Hx & Hin).
  rewrite Forall_forall in Hall. specialize (Hall x Hin).
  unfold row_lt in Hall. lia.
Qed.

(** Where the cursor keys are usable, [checkTableMore] does what C4 says.
    On a truncated page that does not fill the limit and whose first and
    last row carry a truthy primary key, it continues with the last row's
    key as the lower bound and the limit [limit - ret.length + 1], and
    appends the continuation without its first row.  Consequently, against
    a reader that holds a table in ascending order of a non-zero numeric
    key and truncates every [truncateEvery >= 2] rows, it returns the rows
    from the lower bound on, up to the limit; with the limit 7 over twenty
    such rows truncated every five rows these are the first seven rows of
    the table: seven rows, no key twice. *)
Theorem checkTableMore_continues (primaryKey : string) (table : list Row)
    (truncateEvery : nat) (getAbi : Settled unit) (upper_bound : JsVal)
    (index_position : Z) :
  StronglySorted (row_lt primaryKey) table ->
  Forall (has_cursor_key primaryKey) table ->
  (2 <= truncateEvery)%nat ->
  let reader := cursor_reader primaryKey table truncateEvery in
  (forall (getTableRows : TableRemote) (fuel : nat) (limit : Z) (lower_bound : JsVal)
          (result : TableResult Row) (first : Row) (rest : list Row),
     getTableRows (mkTableQuery limit lower_bound upper_bound index_position)
       = Fulfilled (Some result) ->
     rows result = Some (first :: rest) ->
     more result = true ->
     limit <= 0 \/ Z.of_nat (length (first :: rest)) < limit ->
     truthy (get_field first primaryKey) = true ->
     truthy (get_field (last_row first rest) primaryKey) = true ->
     checkTableMore (S fuel) getTableRows getAbi primaryKey limit lower_bound
                    upper_bound index_position =
       match checkTableMore fuel getTableRows getAbi primaryKey
               (limit - Z.of_nat (length (first :: rest)) + 1)
               (get_field (last_row first rest) primaryKey) upper_bound index_position
       with
       | Returned partResult => Returned ((first :: rest) ++ tl partResult)
       | Thrown e => Thrown e
       | Running => Running
       end) /\
  (forall (fuel : nat) (limit from : Z),
     (length table < fuel)%nat ->
     checkTableMore fuel reader getAbi primaryKey limit (JNum from) upper_bound
                    index_position
       = Returned (up_to_limit limit (cursor_hits primaryKey table from))) /\
  (length table = 20%nat -> truncateEvery = 5%nat ->
   Forall (fun r => 0 <= key_of primaryKey r) table ->
   forall fuel, (20 < fuel)%nat ->
     exists found,
       checkTableMore fuel reader getAbi primaryKey 7 (JNum 0) upper_bound
                      index_position = Returned found /\
       found = firstn 7 table /\
       length found = 7%nat /\
       NoDup (map (key_of primaryKey) found)).
Proof.
  intros Hsorted Hkeys Hpage reader.
  assert (Hscan : forall (fuel : nat) (limit from : Z),
            (length table < fuel)%nat ->
            checkTableMore fuel reader getAbi primaryKey limit (JNum from) upper_bound
                           index_position
              = Returned (up_to_limit limit (cursor_hits primaryKey table from))).
  { intros fuel limit from Hfuel.
    apply (checkTableMore_cursor primaryKey table truncateEvery getAbi upper_bound
             index_position Hsorted Hkeys Hpage).
    pose proof (filter_length_le (fun r => from <=? key_of primaryKey r) table) as Hle.
    unfold cursor_hits. lia. }
  split; [|split].
  - intros getTableRows fuel limit lower_bound result first rest.
    now apply checkTableMore_step.
  - exact Hscan.
  - intros Hlen Hcap Hpos fuel Hfuel. exists (firstn 7 table).
    rewrite Hscan by lia.
    assert (Hall : cursor_hits primaryKey table 0 = table).
    { unfold cursor_hits. apply filter_every. intros r Hr.
      rewrite Forall_forall in Hpos. apply Z.leb_le. now apply Hpos. }
    rewrite Hall. repeat split.
    + rewrite length_firstn. lia.
    + now apply row_lt_NoDup, StronglySorted_firstn.
Qed.

(** The scenario: the rows with keys 1 to 20, truncated every five rows,
    limit 7. *)
Lemma checkTableMore_continues_witness :
  exists found,
    checkTableMore 21 (cursor_reader "id" rows_1_20 5) (Fulfilled tt) "id" 7
                   (JNum 0) (JNum (-1)) 1 = Returned found /\
    found = firstn 7 rows_1_20 /\
    length found = 7%nat /\
    NoDup (map (key_of "id") found).
Proof.
  refine (proj2 (proj2 (checkTableMore_continues "id" rows_1_20 5 (Fulfilled tt)
                          (JNum (-1)) 1 _ _ _)) _ _ _ 21%nat _).
  - unfold rows_1_20, keys_1_20. simpl.
    repeat (constructor; [|repeat constructor; unfold row_lt; vm_compute; reflexivity]).
    constructor.
  - unfold rows_1_20, keys_1_20. simpl.
    repeat (constructor; [eexists; split; [reflexivity | discriminate]|]).
    constructor.
  - lia.
  - reflexivity.
  - reflexivity.
  - unfold rows_1_20, keys_1_20. simpl.
    repeat (constructor; [vm_compute; discriminate|]). constructor.
  - lia.
Defined.

(** C4 at its failing input: twenty rows with the primary keys 0 to 19,
    truncated every five rows, read with the limit 7.  The first page is
    truncated and does not fill the limit; its first row carries the key 0,
    which is present but falsy, and the guard [!from || !to] takes it for
    a missing key: [checkTableMore] throws the cursor-key error, with any
    amount of fuel, instead of returning seven rows.  The same rows with
    the keys 1 to 20 are read as the claim says. *)
Lemma checkTableMore_zero_key_throws :
  length rows_0_19 = 20%nat /\
  map (key_of "id") rows_0_19 =
    [0; 1; 2; 3; 4; 5; 6; 7; 8; 9; 10; 11; 12; 13; 14; 15; 16; 17; 18; 19] /\
  Forall (fun r => has_field r "id") rows_0_19 /\
  checkTableMore 21 (cursor_reader "id" rows_0_19 5) (Fulfilled tt) "id" 7
                 (JNum 0) (JNum (-1)) 1 = Thrown (ErrCheckMore "id") /\
  (forall fuel,
     checkTableMore (S fuel) (cursor_reader "id" rows_0_19 5) (Fulfilled tt) "id" 7
                    (JNum 0) (JNum (-1)) 1 = Thrown (ErrCheckMore "id")) /\
  checkTableMore 21 (cursor_reader "id" rows_1_20 5) (Fulfilled tt) "id" 7
                 (JNum 0) (JNum (-1)) 1 = Returned (firstn 7 rows_1_20).
Proof.
  split; [reflexivity|]. split; [reflexivity|]. split.
  - unfold rows_0_19, keys_1_20. simpl.
    repeat (constructor; [left; reflexivity|]). constructor.
  - split; [vm_compute; reflexivity|]. split; [|vm_compute; reflexivity].
    intros fuel. vm_compute. reflexivity.
Qed.




(** ** TranscalPayload *)

Lemma indexOf_from_skip (c : ascii) (a r : JsString) (i : Z) :
  free_of c a ->
  indexOf_from c (a ++ r) i = indexOf_from c r (i + Z.of_nat (length a)).
Proof.
  revert i. induction a as [|x a IH]; intros i Hfree.
  - simpl. f_equal. lia.
  - simpl. destruct (Ascii.eqb_spec x c) as [->|Hne].
    + exfalso. apply Hfree. left. reflexivity.
    + rewrite IH.
      * f_equal. lia.
      * intros Hin. apply Hfree. right. exact Hin.
Qed.

Lemma indexOf_from_range (c : ascii) (s : JsString) (i : Z) :
  indexOf_from c s i = -1 \/
  i <= indexOf_from c s i < i + Z.of_nat (length s).
Proof.
  revert i. induction s as [|x s IH]; intros i.
  - left. reflexivity.
  - simpl indexOf_from. destruct (Ascii.eqb x c).
    + right. simpl length. lia.
    + destruct (IH (i + 1)) as [H|H].
      * left. exact H.
      * right. simpl length. lia.
Qed.

Lemma indexOf_from_absent (c : ascii) (s : JsString) (i : Z) :
  free_of c s -> indexOf_from c s i = -1.
Proof.
  intros Hfree. rewrite <- (app_nil_r s), indexOf_from_skip by exact Hfree.
  reflexivity.
Qed.

Lemma indexOf_from_found (c : ascii) (s : JsString) (i : Z) :
  In c s -> 0 <= i -> 0 <= indexOf_from c s i.
Proof.
  revert i. induction s as [|x s IH]; intros i Hin Hi.
  - destruct Hin.
  - simpl. destruct (Ascii.eqb_spec x c) as [->|Hne].
    + exact Hi.
    + apply IH.
      * destruct Hin as [Hx|Hin]; [congruence|exact Hin].
      * lia.
Qed.

Lemma indexOf_at (c : ascii) (pre s : JsString) :
  indexOf c (pre ++ s) (Z.of_nat (length pre)) =
  indexOf_from c s (Z.of_nat (length pre)).
Proof.
  unfold indexOf. rewrite length_app.
  replace (Z.min (Z.max (Z.of_nat (length pre)) 0)
             (Z.of_nat (length pre + length s)))
    with (Z.of_nat (length pre)) by lia.
  rewrite Nat2Z.id, skipn_app, skipn_all, Nat.sub_diag. reflexivity.
Qed.

Lemma indexOf_0 (c : ascii) (s : JsString) :
  indexOf c s 0 = indexOf_from c s 0.
Proof. exact (indexOf_at c [] s). Qed.

Lemma substr_at (pre a r : JsString) :
  substr (pre ++ a ++ r) (Z.of_nat (length pre)) (Z.of_nat (length a)) = a.
Proof.
  unfold substr. rewrite !length_app.
  destruct (Z.ltb_spec (Z.of_nat (length pre)) 0) as [Hneg|_]; [lia|].
  replace (Z.min (Z.of_nat (length pre))
             (Z.of_nat (length pre + (length a + length r))))
    with (Z.of_nat (length pre)) by lia.
  replace (Z.min (Z.max (Z.of_nat (length a)) 0)
             (Z.of_nat (length pre + (length a + length r)) -
              Z.of_nat (length pre)))
    with (Z.of_nat (length a)) by lia.
  rewrite !Nat2Z.id, skipn_app, skipn_all, Nat.sub_diag. simpl.
  rewrite firstn_app, firstn_all, Nat.sub_diag. simpl. apply app_nil_r.
Qed.

(** Every string has a first occurrence of [c], or none. *)
Lemma first_occurrence (c : ascii) (s : JsString) :
  free_of c s \/ exists a b, s = a ++ c :: b /\ free_of c a.
Proof.
  induction s as [|x s IH].
  - left. intros [].
  - destruct (Ascii.eqb_spec x c) as [->|Hne].
    + right. exists [], s. split; [reflexivity|intros []].
    + destruct IH as [Hfree|(a & b & -> & Hfree)].
      * left. intros [Hx|Hin]; [congruence|exact (Hfree Hin)].
      * right. exists (x :: a), b. split; [reflexivity|].
        intros [Hx|Hin]; [congruence|exact (Hfree Hin)].
Qed.

Lemma split_unique (c : ascii) (a1 a2 b1 b2 : JsString) :
  free_of c a1 -> free_of c a2 ->
  a1 ++ c :: b1 = a2 ++ c :: b2 -> a1 = a2 /\ b1 = b2.
Proof.
  revert a2. induction a1 as [|x a1 IH]; intros [|y a2] H1 H2 Heq;
    simpl in Heq.
  - injection Heq as <-. split; reflexivity.
  - injection Heq as <- _. exfalso. apply H2. left. reflexivity.
  - injection Heq as -> _. exfalso. apply H1. left. reflexivity.
  - injection Heq as -> Heq.
    destruct (IH a2) as [-> ->]; try exact Heq.
    + intros Hin. apply H1. right. exact Hin.
    + intros Hin. apply H2. right. exact Hin.
    + split; reflexivity.
Qed.

Lemma join_cons (c : ascii) (a : JsString) (l : list JsString) :
  l <> [] -> join c (a :: l) = a ++ c :: join c l.
Proof. destruct l; [congruence|reflexivity]. Qed.

Lemma join_inj (c : ascii) (l1 l2 : list JsString) :
  l1 <> [] -> l2 <> [] ->
  Forall (free_of c) l1 -> Forall (free_of c) l2 ->
  join c l1 = join c l2 -> l1 = l2.
Proof.
  revert l2. induction l1 as [|a1 t1 IH]; intros [|a2 t2] Hn1 Hn2 H1 H2 Heq;
    try congruence.
  inversion H1 as [|? ? Ha1 Ht1]; inversion H2 as [|? ? Ha2 Ht2]; subst.
  destruct t1 as [|x1 t1]; destruct t2 as [|x2 t2].
  - simpl in Heq. congruence.
  - rewrite (join_cons c a2 (x2 :: t2)) in Heq by discriminate.
    simpl in Heq. subst a1. exfalso. apply Ha1, in_elt.
  - rewrite (join_cons c a1 (x1 :: t1)) in Heq by discriminate.
    simpl in Heq. subst a2. exfalso. apply Ha2, in_elt.
  - rewrite !join_cons in Heq by discriminate.
    destruct (split_unique c _ _ _ _ Ha1 Ha2 Heq) as [-> Hrest].
    f_equal. apply IH; try discriminate; assumption.
Qed.

Lemma join_free (c sep : ascii) (l : list JsString) :
  c <> sep -> Forall (free_of c) l -> free_of c (join sep l).
Proof.
  intros Hne. induction l as [|a t IH]; intros Hall.
  - intros [].
  - inversion Hall as [|? ? Ha Ht]; subst. destruct t as [|x t].
    + exact Ha.
    + rewrite join_cons by discriminate. intros Hin.
      apply in_app_or in Hin. destruct Hin as [Hin|[Hin|Hin]].
      * exact (Ha Hin).
      * congruence.
      * exact (IH Ht Hin).
Qed.

(** The loop cuts the segment between [pre] and [posEnd] at its commas. *)
Lemma parseMemo_loop_pieces (fuel : nat) :
  forall (seg pre rest : JsString) (acc : list JsString),
  (length seg < fuel)%nat ->
  exists pieces,
    parseMemo_loop fuel (pre ++ seg ++ rest)
      (Z.of_nat (length pre) + Z.of_nat (length seg))
      (Z.of_nat (length pre)) (Z.of_nat (length pre)) acc
    = Some (acc ++ pieces) /\
    join ","%char pieces = seg /\ pieces <> [] /\
    Forall (free_of ","%char) pieces /\
    Forall (fun p => incl p seg) pieces.
Proof.
  induction fuel as [|fuel IH]; intros seg pre rest acc Hfuel; [lia|].
  simpl parseMemo_loop. rewrite indexOf_at.
  destruct (first_occurrence ","%char seg) as [Hfree|(a & b & -> & Hfree)].
  - exists [seg]. rewrite indexOf_from_skip by exact Hfree.
    replace (Z.of_nat (length pre) + Z.of_nat (length seg) - Z.of_nat (length pre))
      with (Z.of_nat (length seg)) by lia.
    rewrite substr_at.
    destruct (indexOf_from_range ","%char rest
                (Z.of_nat (length pre) + Z.of_nat (length seg))) as [H|H].
    + rewrite H. rewrite orb_true_r. repeat split; try discriminate.
      * constructor; [exact Hfree|constructor].
      * constructor; [apply incl_refl|constructor].
    + destruct (Z.leb_spec (Z.of_nat (length pre) + Z.of_nat (length seg))
                  (indexOf_from ","%char rest
                     (Z.of_nat (length pre) + Z.of_nat (length seg))));
        [|lia].
      simpl. repeat split; try discriminate.
      * constructor; [exact Hfree|constructor].
      * constructor; [apply incl_refl|constructor].
  - rewrite <- app_assoc. rewrite indexOf_from_skip by exact Hfree.
    rewrite <- app_comm_cons. cbn [indexOf_from]. rewrite Ascii.eqb_refl.
    rewrite length_app in *. simpl length in *.
    destruct (Z.leb_spec
                (Z.of_nat (length pre) + Z.of_nat (length a + S (length b)))
                (Z.of_nat (length pre) + Z.of_nat (length a))); [lia|].
    destruct (Z.ltb_spec (Z.of_nat (length pre) + Z.of_nat (length a)) 0);
      [lia|].
    simpl orb. cbv iota.
    replace (Z.of_nat (length pre) + Z.of_nat (length a) - Z.of_nat (length pre))
      with (Z.of_nat (length a)) by lia.
    rewrite substr_at.
    destruct (IH b (pre ++ a ++ [","%char]) rest (acc ++ [a]))
      as (pieces & Hrun & Hjoin & Hne & Hcommas & Hincl); [lia|].
    exists (a :: pieces).
    replace (pre ++ a ++ ","%char :: b ++ rest)
      with ((pre ++ a ++ [","%char]) ++ b ++ rest)
      by (rewrite <- !app_assoc; reflexivity).
    replace (Z.of_nat (length pre) + Z.of_nat (length a) + 1)
      with (Z.of_nat (length (pre ++ a ++ [","%char])))
      by (rewrite !length_app; simpl; lia).
    replace (Z.of_nat (length pre) + Z.of_nat (length a + S (length b)))
      with (Z.of_nat (length (pre ++ a ++ [","%char])) + Z.of_nat (length b))
      by (rewrite !length_app; simpl; lia).
    split; [rewrite <- (app_assoc acc [a] pieces) in Hrun; exact Hrun|].
    split; [rewrite join_cons, Hjoin by exact Hne; reflexivity|].
    split; [discriminate|]. split.
    + constructor; assumption.
    + constructor.
      * apply incl_appl, incl_refl.
      * eapply Forall_impl; [|exact Hincl]. intros p Hp.
        apply incl_tran with b; [exact Hp|].
        apply incl_appr, incl_tl, incl_refl.
Qed.

Lemma indexOf_first (c : ascii) (a b : JsString) :
  free_of c a -> indexOf c (a ++ c :: b) 0 = Z.of_nat (length a).
Proof.
  intros Hfree. rewrite indexOf_0, indexOf_from_skip by exact Hfree.
  cbn [indexOf_from]. rewrite Ascii.eqb_refl. lia.
Qed.

Lemma indexOf_range (c : ascii) (s : JsString) (p : Z) :
  indexOf c s p = -1 \/
  (Z.max p 0 <= indexOf c s p < Z.of_nat (length s)).
Proof.
  unfold indexOf.
  set (q := Z.min (Z.max p 0) (Z.of_nat (length s))).
  destruct (indexOf_from_range c (skipn (Z.to_nat q) s) q) as [H|H].
  - left. exact H.
  - right. rewrite length_skipn in H. unfold q in *. lia.
Qed.

Lemma free_of_cons (c x : ascii) (s : JsString) :
  x <> c -> free_of c s -> free_of c (x :: s).
Proof. intros Hx Hs [H|H]; [congruence|exact (Hs H)]. Qed.

Lemma free_of_app (c : ascii) (a b : JsString) :
  free_of c a -> free_of c b -> free_of c (a ++ b).
Proof.
  intros Ha Hb Hin. apply in_app_or in Hin. destruct Hin; [exact (Ha H)|exact (Hb H)].
Qed.

Lemma char_at_head (x c : ascii) (f rest : JsString) :
  x <> c -> free_of c f ->
  match nth_error (f ++ x :: rest) 0 with
  | Some y => Ascii.eqb y c
  | None => false
  end = false.
Proof.
  intros Hx Hf. destruct f as [|y f]; simpl.
  - apply Ascii.eqb_neq. exact Hx.
  - apply Ascii.eqb_neq. intros ->. apply Hf. left. reflexivity.
Qed.

(** A memo [mark[f:seg]rest]: the function name is [f], and the arguments
    are the pieces of [seg] between its commas. *)
Lemma parseMemo_colon_first (fuel : nat) (mark : ascii)
    (f seg rest : JsString) :
  mark = "@"%char \/ mark = "#"%char ->
  free_of ":"%char f -> free_of "]"%char f -> free_of "]"%char seg ->
  (length seg < fuel)%nat ->
  exists pieces,
    parseMemo fuel (mark :: "["%char :: f ++ ":"%char :: seg ++ "]"%char :: rest)
    = Normal (mkPayload f pieces) /\
    join ","%char pieces = seg /\ pieces <> [] /\
    Forall (free_of ","%char) pieces /\
    Forall (fun p => incl p seg) pieces.
Proof.
  intros Hmark Hcol Hend Hseg Hfuel.
  set (m := mark :: "["%char :: f ++ ":"%char :: seg ++ "]"%char :: rest).
  assert (Hlen : (Z.of_nat (length m) <? 4) = false).
  { apply Z.ltb_ge. unfold m. simpl length.
    rewrite !length_app. simpl length. rewrite length_app. simpl length. lia. }
  assert (H1 : char_at_is m 1 "["%char = true) by reflexivity.
  assert (H2 : char_at_is m 2 "]"%char = false).
  { unfold char_at_is, m. simpl nth_error.
    apply (char_at_head ":"%char "]"%char f); [discriminate|exact Hend]. }
  assert (H0 : negb (char_at_is m 0 "@"%char) && negb (char_at_is m 0 "#"%char)
               = false).
  { destruct Hmark as [-> | ->]; reflexivity. }
  assert (Hm1 : mark <> ":"%char) by (destruct Hmark as [-> | ->]; discriminate).
  assert (Hm2 : mark <> "]"%char) by (destruct Hmark as [-> | ->]; discriminate).
  assert (HposCol : indexOf ":"%char m 0 = 2 + Z.of_nat (length f)).
  { change m with ((mark :: "["%char :: f) ++
                   ":"%char :: seg ++ "]"%char :: rest).
    rewrite indexOf_first.
    - simpl length. lia.
    - apply free_of_cons; [exact Hm1|].
      apply free_of_cons; [discriminate|exact Hcol]. }
  assert (HposEnd : indexOf "]"%char m 0
                    = 3 + Z.of_nat (length f) + Z.of_nat (length seg)).
  { replace m with ((mark :: "["%char :: f ++ ":"%char :: seg) ++
                    "]"%char :: rest)
      by (unfold m; simpl; rewrite <- app_assoc; reflexivity).
    rewrite indexOf_first.
    - simpl length. rewrite length_app. simpl length. lia.
    - apply free_of_cons; [exact Hm2|].
      apply free_of_cons; [discriminate|].
      apply free_of_app; [exact Hend|].
      apply free_of_cons; [discriminate|exact Hseg]. }
  destruct (parseMemo_loop_pieces fuel seg (mark :: "["%char :: f ++ [":"%char])
              ("]"%char :: rest) [] Hfuel)
    as (pieces & Hrun & Hjoin & Hne & Hcommas & Hincl).
  rewrite (app_nil_l pieces) in Hrun.
  exists pieces. split; [|repeat split; assumption].
  unfold parseMemo. fold m. rewrite Hlen, H1, H2, H0, HposCol, HposEnd.
  cbn [negb orb andb].
  destruct (Z.ltb_spec (3 + Z.of_nat (length f) + Z.of_nat (length seg)) 0);
    [lia|].
  destruct (Z.ltb_spec (2 + Z.of_nat (length f)) 0); [lia|].
  replace (parseMemo_loop fuel m
             (3 + Z.of_nat (length f) + Z.of_nat (length seg))
             (2 + Z.of_nat (length f) + 1) (2 + Z.of_nat (length f) + 1) [])
    with (Some pieces).
  - replace (2 + Z.of_nat (length f) - 2) with (Z.of_nat (length f)) by lia.
    f_equal. f_equal.
    exact (substr_at [mark; "["%char] f (":"%char :: seg ++ "]"%char :: rest)).
  - rewrite <- Hrun. simpl length. rewrite length_app. simpl length.
    f_equal.
    + unfold m. simpl. rewrite <- app_assoc. reflexivity.
    + lia.
    + lia.
    + lia.
Qed.

(** The loop stops at the latest when the search position has passed the
    end of the memo. *)
Lemma parseMemo_loop_returns (fuel : nat) :
  forall (m : JsString) (posEnd pos posPrev : Z) (acc : list JsString),
  0 <= pos -> (0 < fuel)%nat ->
  Z.of_nat (length m) - pos < Z.of_nat fuel ->
  exists r, parseMemo_loop fuel m posEnd pos posPrev acc = Some r.
Proof.
  induction fuel as [|fuel IH]; intros m posEnd pos posPrev acc Hpos Hsome Hfuel.
  - lia.
  - simpl parseMemo_loop.
    destruct (indexOf_range ","%char m pos) as [H|H].
    + rewrite H, orb_true_r. eexists. reflexivity.
    + destruct ((posEnd <=? indexOf ","%char m pos)
                || (indexOf ","%char m pos <? 0)).
      * eexists. reflexivity.
      * apply IH; lia.
Qed.

Lemma char_at_is_spec (m : JsString) (i : nat) (c : ascii) :
  char_at_is m i c = true <-> nth_error m i = Some c.
Proof.
  unfold char_at_is. destruct (nth_error m i) as [x|].
  - rewrite Ascii.eqb_eq. split; congruence.
  - split; discriminate.
Qed.

Lemma indexOf_found (c : ascii) (m : JsString) :
  0 <= indexOf c m 0 <-> In c m.
Proof.
  rewrite indexOf_0. split.
  - intros H. destruct (in_dec ascii_dec c m) as [Hin|Hout]; [exact Hin|].
    rewrite (indexOf_from_absent c m 0 Hout) in H. lia.
  - intros Hin. apply indexOf_from_found; [exact Hin|lia].
Qed.

Lemma substr_nothing (s : JsString) (start len : Z) :
  len <= 0 -> substr s start len = [].
Proof.
  intros Hlen. unfold substr.
  set (from := if start <? 0 then _ else _).
  replace (Z.to_nat (Z.min (Z.max len 0) (Z.of_nat (length s) - from)))
    with O; [reflexivity|].
  assert (Hfrom : from <= Z.of_nat (length s)).
  { unfold from. destruct (Z.ltb_spec start 0); lia. }
  lia.
Qed.

Ltac free_of_string := unfold free_of; simpl; intuition discriminate.

(** Parsing what [memo()] wrote gives the payload back, for a payload that
    has an argument and keeps the marks [:], [,] and the closing bracket
    out of its fields. *)
Theorem parse_memo_round_trip (fuel : nat) (p : TranscalPayload) :
  plain_payload p -> (length (memo p) <= fuel)%nat ->
  parseMemo fuel (memo p) = Normal p.
Proof.
  destruct p as [f l]. unfold plain_payload, memo. cbn [func args].
  intros (Hcol & Hend & Hne & Hall) Hfuel.
  assert (Hcommas : Forall (free_of ","%char) l).
  { eapply Forall_impl; [|exact Hall]. intros a [Ha _]. exact Ha. }
  assert (Hends : Forall (free_of "]"%char) l).
  { eapply Forall_impl; [|exact Hall]. intros a [_ Ha]. exact Ha. }
  destruct (parseMemo_colon_first fuel "@"%char f (join ","%char l) [])
    as (pieces & Hrun & Hjoin & Hpieces & Hfree & _).
  - left. reflexivity.
  - exact Hcol.
  - exact Hend.
  - apply join_free; [discriminate|exact Hends].
  - simpl length in Hfuel. rewrite !length_app in Hfuel.
    simpl length in Hfuel. rewrite length_app in Hfuel. lia.
  - rewrite Hrun. f_equal. f_equal.
    apply (join_inj ","%char); assumption.
Qed.

Lemma parse_memo_round_trip_witness :
  parseMemo 32 (list_ascii_of_string "@[transfer:alice,bob,10]")
  = Normal (mkPayload (list_ascii_of_string "transfer")
              [list_ascii_of_string "alice"; list_ascii_of_string "bob";
               list_ascii_of_string "10"]).
Proof.
  refine (parse_memo_round_trip 32
            (mkPayload (list_ascii_of_string "transfer")
               [list_ascii_of_string "alice"; list_ascii_of_string "bob";
                list_ascii_of_string "10"]) _ _).
  - unfold plain_payload. cbn [func args].
    split; [free_of_string|]. split; [free_of_string|].
    split; [discriminate|].
    repeat (constructor; [split; free_of_string|]). constructor.
  - simpl. lia.
Defined.

(** A payload without arguments does not survive [memo()] and [parse]: it
    is written as [@[f:]], which is read back with one argument, the empty
    string. *)
Theorem memo_without_arguments (fuel : nat) (f : JsString) :
  free_of ":"%char f -> free_of "]"%char f -> (0 < fuel)%nat ->
  memo (mkPayload f []) = memo (mkPayload f [[]]) /\
  parseMemo fuel (memo (mkPayload f [])) = Normal (mkPayload f [[]]).
Proof.
  intros Hcol Hend Hfuel. split; [reflexivity|].
  destruct (parseMemo_colon_first fuel "@"%char f [] [])
    as (pieces & Hrun & Hjoin & Hpieces & Hfree & _).
  - left. reflexivity.
  - exact Hcol.
  - exact Hend.
  - intros [].
  - exact Hfuel.
  - transitivity (@Normal ParseError _ (mkPayload f pieces)); [exact Hrun|].
    f_equal. f_equal.
    apply (join_inj ","%char); try assumption; try discriminate.
    constructor; [intros []|constructor].
Qed.

Lemma memo_without_arguments_witness :
  memo (mkPayload (list_ascii_of_string "ping") [])
  = memo (mkPayload (list_ascii_of_string "ping") [[]]) /\
  parseMemo 1 (memo (mkPayload (list_ascii_of_string "ping") []))
  = Normal (mkPayload (list_ascii_of_string "ping") [[]]).
Proof.
  refine (memo_without_arguments 1 (list_ascii_of_string "ping") _ _ _).
  - free_of_string.
  - free_of_string.
  - lia.
Defined.

(** [parseMemo] accepts exactly the well-marked memos, rejects every other
    one with an error, and its loop ends within [length memo] rounds. *)
Theorem parseMemo_accepts (fuel : nat) (m : JsString) :
  (length m < fuel)%nat ->
  match parseMemo fuel m with
  | Normal _ => well_marked m
  | Abrupt _ => ~ well_marked m
  | Unfinished => False
  end.
Proof.
  intros Hfuel. unfold parseMemo.
  destruct (Z.ltb_spec (Z.of_nat (length m)) 4) as [Hshort|Hlong].
  { intros (Hlen & _). lia. }
  destruct (char_at_is m 1 "["%char) eqn:H1; cbn [negb orb];
    [|intros (_ & _ & Hopen & _); apply char_at_is_spec in Hopen; congruence].
  destruct (char_at_is m 2 "]"%char) eqn:H2;
    [intros (_ & _ & _ & Hclose & _); apply char_at_is_spec in H2; congruence|].
  assert (Hmarked : forall c, char_at_is m 0 c = true -> In "]"%char m ->
                    c = "@"%char \/ c = "#"%char -> well_marked m).
  { intros c Hc Hin Hor. unfold well_marked. split; [lia|]. split.
    - apply char_at_is_spec in Hc. destruct Hor as [-> | ->]; [left|right]; exact Hc.
    - split; [apply char_at_is_spec; exact H1|]. split; [|exact Hin].
      intros Hclose. apply char_at_is_spec in Hclose. congruence. }
  assert (Hmark : negb (char_at_is m 0 "@"%char) && negb (char_at_is m 0 "#"%char)
                  = false -> In "]"%char m -> well_marked m).
  { intros Hb Hin. destruct (char_at_is m 0 "@"%char) eqn:Ha.
    - apply (Hmarked "@"%char); [exact Ha|exact Hin|left; reflexivity].
    - destruct (char_at_is m 0 "#"%char) eqn:Hh; [|discriminate].
      apply (Hmarked "#"%char); [exact Hh|exact Hin|right; reflexivity]. }
  destruct (negb (char_at_is m 0 "@"%char) && negb (char_at_is m 0 "#"%char))
    eqn:Hb.
  { intros (_ & [Hm|Hm] & _); apply char_at_is_spec in Hm; rewrite Hm in Hb.
    - discriminate.
    - rewrite andb_false_r in Hb. discriminate. }
  destruct (Z.ltb_spec (indexOf "]"%char m 0) 0) as [Hnone|Hsome].
  { intros (_ & _ & _ & _ & Hin). apply indexOf_found in Hin. lia. }
  apply indexOf_found in Hsome.
  destruct (Z.ltb_spec (indexOf ":"%char m 0) 0) as [Hnocol|Hcol].
  { apply Hmark; [reflexivity|exact Hsome]. }
  destruct (parseMemo_loop_returns fuel m (indexOf "]"%char m 0)
              (indexOf ":"%char m 0 + 1) (indexOf ":"%char m 0 + 1) [])
    as [r Hr]; [lia|lia|lia|].
  rewrite Hr. apply Hmark; [reflexivity|exact Hsome].
Qed.

Lemma parseMemo_accepts_witness :
  match parseMemo 8 (list_ascii_of_string "#[a:b]") with
  | Normal _ => well_marked (list_ascii_of_string "#[a:b]")
  | Abrupt _ => ~ well_marked (list_ascii_of_string "#[a:b]")
  | Unfinished => False
  end.
Proof.
  refine (parseMemo_accepts 8 (list_ascii_of_string "#[a:b]") _).
  simpl. lia.
Defined.

(** [parse] followed by [memo()] normalises a memo whose first colon
    stands before its first closing bracket: the type mark becomes [@],
    what follows the closing bracket is dropped, and the payload read is
    one that [memo()] writes unambiguously. *)
Theorem parseMemo_normalises (fuel : nat) (mark : ascii)
    (f seg rest : JsString) :
  mark = "@"%char \/ mark = "#"%char ->
  free_of ":"%char f -> free_of "]"%char f -> free_of "]"%char seg ->
  (length seg < fuel)%nat ->
  exists p,
    parseMemo fuel (mark :: "["%char :: f ++ ":"%char :: seg ++ "]"%char :: rest)
    = Normal p /\
    func p = f /\ join ","%char (args p) = seg /\
    memo p = "@"%char :: "["%char :: f ++ ":"%char :: seg ++ ["]"%char] /\
    plain_payload p.
Proof.
  intros Hmark Hcol Hend Hseg Hfuel.
  destruct (parseMemo_colon_first fuel mark f seg rest Hmark Hcol Hend Hseg Hfuel)
    as (pieces & Hrun & Hjoin & Hne & Hcommas & Hincl).
  exists (mkPayload f pieces). split; [exact Hrun|]. split; [reflexivity|].
  split; [exact Hjoin|]. split.
  - unfold memo. cbn [func args]. rewrite Hjoin. reflexivity.
  - unfold plain_payload. cbn [func args]. repeat split; try assumption.
    apply Forall_forall. intros a Ha. split.
    + rewrite Forall_forall in Hcommas. exact (Hcommas a Ha).
    + rewrite Forall_forall in Hincl. intros Hin.
      exact (Hseg (Hincl a Ha _ Hin)).
Qed.

Lemma parseMemo_normalises_witness :
  exists p,
    parseMemo 8 (list_ascii_of_string "#[f:a,b]trailing") = Normal p /\
    func p = list_ascii_of_string "f" /\
    join ","%char (args p) = list_ascii_of_string "a,b" /\
    memo p = list_ascii_of_string "@[f:a,b]" /\
    plain_payload p.
Proof.
  refine (parseMemo_normalises 8 "#"%char (list_ascii_of_string "f")
            (list_ascii_of_string "a,b") (list_ascii_of_string "trailing")
            _ _ _ _ _).
  - right. reflexivity.
  - free_of_string.
  - free_of_string.
  - free_of_string.
  - simpl. lia.
Defined.

(** A memo whose first colon stands after its first closing bracket is
    accepted, and the function name read from it runs over the end mark up
    to the colon; the one argument is the empty string. *)
Theorem parseMemo_name_over_end_mark (fuel : nat) (mark : ascii)
    (f g rest : JsString) :
  mark = "@"%char \/ mark = "#"%char ->
  f <> [] -> free_of ":"%char f -> free_of "]"%char f -> free_of ":"%char g ->
  (0 < fuel)%nat ->
  parseMemo fuel (mark :: "["%char :: f ++ "]"%char :: g ++ ":"%char :: rest)
  = Normal (mkPayload (f ++ "]"%char :: g) [[]]).
Proof.
  intros Hmark Hf Hcol Hend Hg Hfuel.
  set (m := mark :: "["%char :: f ++ "]"%char :: g ++ ":"%char :: rest).
  assert (Hlen : (Z.of_nat (length m) <? 4) = false).
  { apply Z.ltb_ge. unfold m. simpl length.
    rewrite !length_app. simpl length. rewrite length_app. simpl length. lia. }
  assert (H1 : char_at_is m 1 "["%char = true) by reflexivity.
  assert (H2 : char_at_is m 2 "]"%char = false).
  { unfold char_at_is, m. simpl nth_error. destruct f as [|x f]; [congruence|].
    simpl. apply Ascii.eqb_neq. intros ->. apply Hend. left. reflexivity. }
  assert (H0 : negb (char_at_is m 0 "@"%char) && negb (char_at_is m 0 "#"%char)
               = false).
  { destruct Hmark as [-> | ->]; reflexivity. }
  assert (Hm1 : mark <> ":"%char) by (destruct Hmark as [-> | ->]; discriminate).
  assert (Hm2 : mark <> "]"%char) by (destruct Hmark as [-> | ->]; discriminate).
  assert (HposEnd : indexOf "]"%char m 0 = 2 + Z.of_nat (length f)).
  { change m with ((mark :: "["%char :: f) ++
                   "]"%char :: g ++ ":"%char :: rest).
    rewrite indexOf_first.
    - simpl length. lia.
    - apply free_of_cons; [exact Hm2|].
      apply free_of_cons; [discriminate|exact Hend]. }
  assert (HposCol : indexOf ":"%char m 0
                    = 3 + Z.of_nat (length f) + Z.of_nat (length g)).
  { replace m with ((mark :: "["%char :: f ++ "]"%char :: g) ++
                    ":"%char :: rest)
      by (unfold m; simpl; rewrite <- app_assoc; reflexivity).
    rewrite indexOf_first.
    - simpl length. rewrite length_app. simpl length. lia.
    - apply free_of_cons; [exact Hm1|].
      apply free_of_cons; [discriminate|].
      apply free_of_app; [exact Hcol|].
      apply free_of_cons; [discriminate|exact Hg]. }
  unfold parseMemo. fold m. rewrite Hlen, H1, H2, H0, HposCol, HposEnd.
  cbn [negb orb andb].
  destruct (Z.ltb_spec (2 + Z.of_nat (length f)) 0); [lia|].
  destruct (Z.ltb_spec (3 + Z.of_nat (length f) + Z.of_nat (length g)) 0);
    [lia|].
  destruct fuel as [|fuel]; [lia|]. cbn [parseMemo_loop].
  set (pos := 3 + Z.of_nat (length f) + Z.of_nat (length g) + 1).
  assert (Hstop : (2 + Z.of_nat (length f) <=? indexOf ","%char m pos)
                  || (indexOf ","%char m pos <? 0) = true).
  { destruct (indexOf_range ","%char m pos) as [Hno|Hlate].
    - rewrite Hno. apply orb_true_r.
    - apply orb_true_iff. left. apply Z.leb_le. unfold pos in *. lia. }
  rewrite Hstop. rewrite (substr_nothing m pos) by (unfold pos; lia).
  f_equal. f_equal.
  replace (3 + Z.of_nat (length f) + Z.of_nat (length g) - 2)
    with (Z.of_nat (length (f ++ "]"%char :: g)))
    by (rewrite length_app; simpl length; lia).
  pose proof (substr_at [mark; "["%char] (f ++ "]"%char :: g)
                (":"%char :: rest)) as Hname.
  rewrite <- (app_assoc f ("]"%char :: g) (":"%char :: rest)) in Hname.
  exact Hname.
Qed.

Lemma parseMemo_name_over_end_mark_witness :
  parseMemo 1 (list_ascii_of_string "@[f]x:y")
  = Normal (mkPayload (list_ascii_of_string "f]x") [[]]).
Proof.
  refine (parseMemo_name_over_end_mark 1 "@"%char (list_ascii_of_string "f")
            (list_ascii_of_string "x") (list_ascii_of_string "y") _ _ _ _ _ _).
  - left. reflexivity.
  - discriminate.
  - free_of_string.
  - free_of_string.
  - free_of_string.
  - lia.
Defined.

(** ** Numbers beyond 2^53 *)

Lemma round_double_exact (x : Z) :
  Z.abs x <= 2 ^ 53 -> round_double x = x.
Proof.
  intros Hx. destruct (Z.eq_dec (Z.abs x) (2 ^ 53)) as [Heq|Hne].
  - destruct (Z.abs_eq_or_opp x) as [Habs|Habs]; rewrite Habs in Heq.
    + subst x. vm_compute. reflexivity.
    + assert (x = - 2 ^ 53) as -> by lia. vm_compute. reflexivity.
  - unfold round_double.
    assert (Hlog : Z.log2 (Z.abs x) < 53).
    { destruct (Z.eq_dec (Z.abs x) 0) as [->|Hpos]; [reflexivity|].
      apply Z.log2_lt_pow2; lia. }
    destruct (Z.leb_spec (Z.log2 (Z.abs x) - 52) 0); [reflexivity|lia].
Qed.

(** ** waitTx *)

(** [checkTx] entered at [round] makes at most [maxRound - round + 1]
    requests.  It stops at the first one that yields a transaction, throws
    at the first one rejected without a reason, and gives up with [null]
    after the last one. *)
Lemma checkTx_attempts (T : Type) (getTransaction : nat -> TxAnswer T)
    (maxRound : Z) (k : nat) :
  maxRound <= 2 ^ 53 ->
  forall (round : Z) (calls : nat),
  0 <= round ->
  k = Z.to_nat (maxRound - round) ->
  exists r n,
    checkTx (S k) getTransaction maxRound round calls = (r, n) /\
    (calls < n <= calls + S k)%nat /\
    (forall j, (calls <= j)%nat -> (S j < n)%nat ->
               no_transaction (getTransaction j)) /\
    match r with
    | Normal (Some tx) => getTransaction (pred n) = TxFulfilled (Some tx)
    | Normal None =>
        n = (calls + S k)%nat /\ no_transaction (getTransaction (pred n))
    | Abrupt e => e = TypeFailure /\ getTransaction (pred n) = TxRejected None
    | Unfinished => False
    end.
Proof.
  intros Hmax. induction k as [|k IH]; intros round calls Hround Hk.
  - cbn [checkTx].
    destruct (Z.leb_spec maxRound round); [|lia].
    destruct (getTransaction calls) as [[tx|]|[msg|]] eqn:Hcall.
    + exists (Normal (Some tx)), (S calls). split; [reflexivity|]. split; [lia|].
      split; [intros j H1 H2; lia|exact Hcall].
    + exists (Normal None), (S calls). split; [reflexivity|]. split; [lia|].
      split; [intros j H1 H2; lia|]. split; [lia|].
      cbn [pred]. rewrite Hcall. exact I.
    + exists (Normal None), (S calls). split; [reflexivity|]. split; [lia|].
      split; [intros j H1 H2; lia|]. split; [lia|].
      cbn [pred]. rewrite Hcall. exact I.
    + exists (Abrupt TypeFailure), (S calls). split; [reflexivity|].
      split; [lia|]. split; [intros j H1 H2; lia|].
      split; [reflexivity|exact Hcall].
  - destruct (IH (round + 1) (S calls)) as (r & n & Hrun & Hn & Hbefore & Hlast);
      [lia|lia|].
    assert (Hgo : no_transaction (getTransaction calls) ->
      exists r n,
        (if maxRound <=? round then (@Normal Failure _ (@None T), S calls)
         else checkTx (S k) getTransaction maxRound (round_double (round + 1))
                (S calls))
        = (r, n) /\
        (calls < n <= calls + S (S k))%nat /\
        (forall j, (calls <= j)%nat -> (S j < n)%nat ->
                   no_transaction (getTransaction j)) /\
        match r with
        | Normal (Some tx) => getTransaction (pred n) = TxFulfilled (Some tx)
        | Normal None =>
            n = (calls + S (S k))%nat /\ no_transaction (getTransaction (pred n))
        | Abrupt e => e = TypeFailure /\ getTransaction (pred n) = TxRejected None
        | Unfinished => False
        end).
    { intros Hmiss. destruct (Z.leb_spec maxRound round); [lia|].
      rewrite round_double_exact by lia.
      exists r, n. split; [exact Hrun|]. split; [lia|]. split.
      - intros j H1 H2. destruct (Nat.eq_dec j calls) as [->|Hne].
        + exact Hmiss.
        + apply Hbefore; lia.
      - destruct r as [[tx|]|e|]; try exact Hlast.
        destruct Hlast as [Hlast1 Hlast2]. split; [lia|exact Hlast2]. }
    change (checkTx (S (S k)) getTransaction maxRound round calls)
      with (match getTransaction calls with
            | TxFulfilled (Some tx) => (@Normal Failure _ (Some tx), S calls)
            | TxRejected None => (Abrupt TypeFailure, S calls)
            | TxFulfilled None | TxRejected (Some _) =>
                if maxRound <=? round then (Normal None, S calls)
                else checkTx (S k) getTransaction maxRound
                       (round_double (round + 1)) (S calls)
            end).
    destruct (getTransaction calls) as [[tx|]|[msg|]] eqn:Hcall.
    + exists (Normal (Some tx)), (S calls). split; [reflexivity|]. split; [lia|].
      split; [intros j H1 H2; lia|exact Hcall].
    + apply Hgo. exact I.
    + apply Hgo. exact I.
    + exists (Abrupt TypeFailure), (S calls). split; [reflexivity|].
      split; [lia|]. split; [intros j H1 H2; lia|].
      split; [reflexivity|exact Hcall].
Qed.

(** [waitTx] settles after at most [maxRound + 1] requests (one, when
    [maxRound] is not positive).  It returns the transaction of the first
    request that yields one, a falsy answer and a rejection with a reason
    counting as misses; it returns [null] when all [maxRound + 1] requests
    are misses; and it throws a [TypeError] at the first request that is
    rejected without a reason, the [catch] block reading [err.message]. *)
Theorem waitTx_attempts (T : Type) (getTransaction : nat -> TxAnswer T)
    (maxRound : Z) :
  maxRound <= 2 ^ 53 ->
  exists r n,
    waitTx (S (Z.to_nat maxRound)) getTransaction maxRound = (r, n) /\
    (1 <= n <= S (Z.to_nat maxRound))%nat /\
    (forall j, (S j < n)%nat -> no_transaction (getTransaction j)) /\
    match r with
    | Normal (Some tx) => getTransaction (pred n) = TxFulfilled (Some tx)
    | Normal None =>
        n = S (Z.to_nat maxRound) /\ no_transaction (getTransaction (pred n))
    | Abrupt e => e = TypeFailure /\ getTransaction (pred n) = TxRejected None
    | Unfinished => False
    end.
Proof.
  intros Hmax.
  destruct (checkTx_attempts T getTransaction maxRound (Z.to_nat maxRound) Hmax 0 0)
    as (r & n & Hrun & Hn & Hbefore & Hlast).
  - lia.
  - f_equal. lia.
  - exists r, n. split; [exact Hrun|]. split; [lia|]. split.
    + intros j Hj. apply Hbefore; lia.
    + exact Hlast.
Qed.

(** Three requests at most: the first is rejected with a reason, the
    second without one. *)
Lemma waitTx_attempts_witness :
  waitTx 3 reasonless_node 2 = (Abrupt TypeFailure, 2%nat) /\
  exists r n,
    waitTx (S (Z.to_nat 2)) reasonless_node 2 = (r, n) /\
    (1 <= n <= S (Z.to_nat 2))%nat /\
    (forall j, (S j < n)%nat -> no_transaction (reasonless_node j)) /\
    match r with
    | Normal (Some tx) => reasonless_node (pred n) = TxFulfilled (Some tx)
    | Normal None =>
        n = S (Z.to_nat 2) /\ no_transaction (reasonless_node (pred n))
    | Abrupt e => e = TypeFailure /\ reasonless_node (pred n) = TxRejected None
    | Unfinished => False
    end.
Proof.
  split; [reflexivity|].
  refine (waitTx_attempts nat reasonless_node 2 _). vm_compute. discriminate.
Defined.

(** When none of the first [maxRound + 1] requests yields a transaction,
    and none is rejected without a reason, [waitTx] returns [null] after
    exactly [maxRound + 1] requests, whatever the node answers later. *)
Theorem waitTx_gives_up (T : Type) (getTransaction : nat -> TxAnswer T)
    (maxRound : Z) (fuel : nat) :
  maxRound <= 2 ^ 53 ->
  (forall j, (j <= Z.to_nat maxRound)%nat -> no_transaction (getTransaction j)) ->
  (Z.to_nat maxRound < fuel)%nat ->
  waitTx fuel getTransaction maxRound = (Normal None, S (Z.to_nat maxRound)).
Proof.
  intros Hmax Hmiss Hfuel. unfold waitTx.
  assert (Hgen : forall k round calls f,
            0 <= round ->
            k = Z.to_nat (maxRound - round) ->
            (calls + k <= Z.to_nat maxRound)%nat -> (k < f)%nat ->
            checkTx f getTransaction maxRound round calls
            = (Normal None, S (calls + k))).
  { induction k as [|k IH]; intros round calls f Hround Hk Hcalls Hf.
    - destruct f as [|f]; [lia|]. cbn [checkTx].
      pose proof (Hmiss calls ltac:(lia)) as Hc.
      destruct (Z.leb_spec maxRound round); [|lia].
      rewrite Nat.add_0_r.
      destruct (getTransaction calls) as [[tx|]|[msg|]];
        [destruct Hc|reflexivity|reflexivity|destruct Hc].
    - destruct f as [|f]; [lia|]. cbn [checkTx].
      pose proof (Hmiss calls ltac:(lia)) as Hc.
      destruct (Z.leb_spec maxRound round); [lia|].
      rewrite round_double_exact by lia.
      rewrite (IH (round + 1) (S calls) f) by lia.
      replace (S (S calls + k)) with (S (calls + S k)) by lia.
      destruct (getTransaction calls) as [[tx|]|[msg|]];
        [destruct Hc|reflexivity|reflexivity|destruct Hc]. }
  rewrite (Hgen (Z.to_nat maxRound) 0 0%nat fuel); try lia.
  reflexivity.
Qed.

Lemma waitTx_gives_up_witness :
  waitTx 13 (fun n => if (n <? 20)%nat then TxRejected (Some "not found"%string)
                      else TxFulfilled (Some n)) 12
  = (Normal None, 13%nat).
Proof.
  refine (waitTx_gives_up nat _ 12 13 _ _ _).
  - vm_compute. discriminate.
  - intros j Hj. change (Z.to_nat 12) with 12%nat in Hj.
    destruct (Nat.ltb_spec j 20); [exact I|lia].
  - change (Z.to_nat 12) with 12%nat. lia.
Defined.

(** ** validateSign *)

Lemma find_key (recoverKey : string) (ks : list string) :
  match find (fun k => (k =? recoverKey)%string) ks with
  | Some key => key = recoverKey /\ In recoverKey ks
  | None => ~ In recoverKey ks
  end.
Proof.
  destruct (find (fun k => (k =? recoverKey)%string) ks) as [key|] eqn:Hfind.
  - apply find_some in Hfind. destruct Hfind as [Hin Heq].
    apply String.eqb_eq in Heq. subst key. split; [reflexivity|exact Hin].
  - intros Hin. apply (find_none _ _ Hfind) in Hin.
    rewrite String.eqb_refl in Hin. discriminate.
Qed.

(** The inner loop ends with [true] exactly when a validator of the plugin
    accepts for one of the accounts. *)
Lemma try_accounts_decides (provider : string -> option Validator)
    (account_name recoverKey : string) (iPlg : nat) (accs : list PermissionLevel) :
  (forall acc validator msg,
     In acc accs -> provider (accStr acc) = Some validator ->
     validator account_name recoverKey <> Rejected msg) ->
  forall invoked,
  exists b invoked1,
    try_accounts provider account_name recoverKey iPlg (map accStr accs) invoked
    = Normal (b, invoked1) /\
    (b = true <->
     exists acc validator,
       In acc accs /\ provider (accStr acc) = Some validator /\
       validator account_name recoverKey = Fulfilled true).
Proof.
  induction accs as [|acc accs IH]; intros Hanswer invoked.
  - exists false, invoked. split; [reflexivity|]. split; [discriminate|].
    intros (acc & v & [] & _).
  - assert (Hrest : forall acc0 validator msg,
              In acc0 accs -> provider (accStr acc0) = Some validator ->
              validator account_name recoverKey <> Rejected msg).
    { intros acc0 v msg Hin. apply Hanswer. right. exact Hin. }
    cbn [map try_accounts].
    destruct (provider (accStr acc)) as [validator|] eqn:Hprov.
    + destruct (validator account_name recoverKey) as [[|]|msg] eqn:Hrun.
      * exists true, (invoked ++ [(iPlg, accStr acc)]).
        split; [reflexivity|]. split; [|reflexivity].
        intros _. exists acc, validator.
        split; [left; reflexivity|]. split; [exact Hprov|exact Hrun].
      * destruct (IH Hrest (invoked ++ [(iPlg, accStr acc)]))
          as (b & invoked1 & Hloop & Hiff).
        exists b, invoked1. split; [exact Hloop|].
        rewrite Hiff. split.
        -- intros (acc0 & v & Hin & Hp & Hv). exists acc0, v.
           split; [right; exact Hin|]. split; assumption.
        -- intros (acc0 & v & [<-|Hin] & Hp & Hv).
           ++ rewrite Hprov in Hp. injection Hp as <-. congruence.
           ++ exists acc0, v. split; [exact Hin|]. split; assumption.
      * exfalso. apply (Hanswer acc validator msg); [left; reflexivity| |];
          assumption.
    + destruct (IH Hrest invoked) as (b & invoked1 & Hloop & Hiff).
      exists b, invoked1. split; [exact Hloop|].
      rewrite Hiff. split.
      * intros (acc0 & v & Hin & Hp & Hv). exists acc0, v.
        split; [right; exact Hin|]. split; assumption.
      * intros (acc0 & v & [<-|Hin] & Hp & Hv).
        -- congruence.
        -- exists acc0, v. split; [exact Hin|]. split; assumption.
Qed.

(** The outer loop returns the recovered key exactly when a validator of
    one of the plugins accepts, and [undefined] otherwise. *)
Lemma try_plugins_decides (account_name recoverKey : string)
    (accs : list PermissionLevel) (signPlugins : list ISignPlugin) :
  (forall signPlugin acc validator msg,
     In signPlugin signPlugins -> In acc accs ->
     validatorProvider signPlugin (accStr acc) = Some validator ->
     validator account_name recoverKey <> Rejected msg) ->
  forall iPlg invoked,
  exists r invoked1,
    try_plugins signPlugins account_name recoverKey iPlg (map accStr accs) invoked
    = Normal (r, invoked1) /\
    let accepted :=
      exists signPlugin acc validator,
        In signPlugin signPlugins /\ In acc accs /\
        validatorProvider signPlugin (accStr acc) = Some validator /\
        validator account_name recoverKey = Fulfilled true in
    (r = Some recoverKey /\ accepted) \/ (r = None /\ ~ accepted).
Proof.
  induction signPlugins as [|plg rest IH]; intros Hanswer iPlg invoked.
  - exists None, invoked. split; [reflexivity|]. right.
    split; [reflexivity|]. intros (plg & _ & _ & [] & _).
  - cbn [try_plugins].
    destruct (try_accounts_decides (validatorProvider plg) account_name
                recoverKey iPlg accs) with (invoked := invoked)
      as (b & invoked1 & Hloop & Hiff).
    { intros acc v msg Hin. apply (Hanswer plg). left. reflexivity. exact Hin. }
    rewrite Hloop. destruct b.
    + exists (Some recoverKey), invoked1. split; [reflexivity|]. left.
      split; [reflexivity|].
      destruct (proj1 Hiff eq_refl) as (acc & v & Hin & Hp & Hv).
      exists plg, acc, v. split; [left; reflexivity|]. repeat split; assumption.
    + destruct (IH ltac:(intros p acc v msg Hin; apply Hanswer; right; exact Hin)
                  (S iPlg) invoked1) as (r & invoked2 & Hrun & Hcases).
      exists r, invoked2. split; [exact Hrun|].
      destruct Hcases as [[Hr Hacc]|[Hr Hnone]].
      * left. split; [exact Hr|].
        destruct Hacc as (p & acc & v & Hin & Hrest).
        exists p, acc, v. split; [right; exact Hin|exact Hrest].
      * right. split; [exact Hr|].
        intros (p & acc & v & [<-|Hin] & Hacc & Hp & Hv).
        -- assert (false = true) as Habs; [|discriminate].
           apply Hiff. exists acc, v. repeat split; assumption.
        -- apply Hnone. exists p, acc, v. repeat split; assumption.
Qed.

(** For an account that has the authority, and validators that do not
    fail, [validateSign] returns the recovered key when the account is
    entitled to it (the authority lists the key, or a plugin's validator
    for one of the authority's accounts accepts) and [undefined] when it is
    not; it returns no other key, and no validator is invoked when the
    authority lists the key or no plugin is given. *)
Theorem validateSign_decides (recoverSign : string -> string -> Settled string)
    (getAccountInfo : AccountRemote)
    (signature message account_name authority recoverKey : string)
    (signPlugins : list ISignPlugin) (ps : list Permission) (perm : Permission) :
  recoverSign signature message = Fulfilled recoverKey ->
  getAccountInfo O account_name = Fulfilled (mkAccountInfo (Some ps)) ->
  find_permission authority ps = Some perm ->
  validators_answer perm signPlugins account_name recoverKey ->
  exists r invoked,
    validateSign recoverSign getAccountInfo signature message account_name
      authority signPlugins = Normal (r, invoked) /\
    ((r = Some recoverKey /\ entitled perm signPlugins account_name recoverKey) \/
     (r = None /\ ~ entitled perm signPlugins account_name recoverKey)) /\
    (In recoverKey (keys (required_auth perm)) \/ signPlugins = [] ->
     invoked = []).
Proof.
  intros Hrecover Hinfo Hperm Hanswer.
  unfold validateSign. rewrite Hrecover, Hinfo. cbn [permissions]. rewrite Hperm.
  pose proof (find_key recoverKey (keys (required_auth perm))) as Hkey.
  destruct (find (fun k => (k =? recoverKey)%string) (keys (required_auth perm)))
    as [key|].
  - destruct Hkey as [-> Hin]. exists (Some recoverKey), [].
    split; [reflexivity|]. split; [|reflexivity].
    left. split; [reflexivity|]. left. exact Hin.
  - destruct signPlugins as [|plg rest].
    + exists None, []. split; [reflexivity|]. split; [|reflexivity].
      right. split; [reflexivity|].
      intros [Hin|(p & _ & _ & [] & _)]. exact (Hkey Hin).
    + destruct (try_plugins_decides account_name recoverKey
                  (accounts (required_auth perm)) (plg :: rest) Hanswer O [])
        as (r & invoked & Hrun & Hcases).
      exists r, invoked. split; [exact Hrun|]. split.
      * destruct Hcases as [[Hr Hacc]|[Hr Hnone]].
        -- left. split; [exact Hr|]. right. exact Hacc.
        -- right. split; [exact Hr|].
           intros [Hin|Hacc]; [exact (Hkey Hin)|exact (Hnone Hacc)].
      * intros [Hin|Hnil]; [destruct (Hkey Hin)|discriminate].
Qed.

(** For an authority that the account does not have, [validateSign] fails
    with a [TypeError]: its second guard tests [permissions] once more, not
    the permission found, so [undefined] is not returned; [getPubKeys]
    reports the missing permission. *)
Theorem validateSign_unknown_authority
    (recoverSign : string -> string -> Settled string)
    (getAccountInfo : AccountRemote)
    (signature message account_name authority recoverKey : string)
    (signPlugins : list ISignPlugin) (ps : list Permission) :
  recoverSign signature message = Fulfilled recoverKey ->
  getAccountInfo O account_name = Fulfilled (mkAccountInfo (Some ps)) ->
  (forall p, In p ps -> perm_name p <> authority) ->
  validateSign recoverSign getAccountInfo signature message account_name
    authority signPlugins = Abrupt TypeFailure /\
  getPubKeys getAccountInfo O account_name authority
    = Abrupt (PermissionNotFound account_name).
Proof.
  intros Hrecover Hinfo Hnone.
  assert (Hfind : find_permission authority ps = None).
  { unfold find_permission.
    destruct (find (fun p => (perm_name p =? authority)%string) ps) as [p|] eqn:Hf;
      [|reflexivity].
    apply find_some in Hf. destruct Hf as [Hin Heq].
    apply String.eqb_eq in Heq. destruct (Hnone p Hin Heq). }
  unfold validateSign, getPubKeys. rewrite Hrecover, Hinfo. cbn [permissions].
  rewrite Hfind. split; reflexivity.
Qed.

Lemma validateSign_decides_witness :
  exists r invoked,
    validateSign recover_session_key account_reader "SIG_K1" "login" "alice"
      "active" [dapp_plugin] = Normal (r, invoked) /\
    ((r = Some "EOS7session"%string /\
      entitled active_permission [dapp_plugin] "alice" "EOS7session") \/
     (r = None /\
      ~ entitled active_permission [dapp_plugin] "alice" "EOS7session")) /\
    (In "EOS7session"%string (keys (required_auth active_permission)) \/
     [dapp_plugin] = [] -> invoked = []).
Proof.
  refine (validateSign_decides recover_session_key account_reader "SIG_K1"
            "login" "alice" "active" "EOS7session" [dapp_plugin]
            [active_permission] active_permission _ _ _ _).
  - reflexivity.
  - reflexivity.
  - reflexivity.
  - intros plg acc v msg [<-|[]] [<-|[]] Hprov.
    vm_compute in Hprov. injection Hprov as <-. discriminate.
Defined.

Lemma validateSign_unknown_authority_witness :
  validateSign recover_session_key account_reader "SIG_K1" "login" "alice"
    "owner" [dapp_plugin] = Abrupt TypeFailure /\
  getPubKeys account_reader O "alice" "owner"
    = Abrupt (PermissionNotFound "alice").
Proof.
  refine (validateSign_unknown_authority recover_session_key account_reader
            "SIG_K1" "login" "alice" "owner" "EOS7session" [dapp_plugin]
            [active_permission] _ _ _).
  - reflexivity.
  - reflexivity.
  - intros p [<-|[]]. discriminate.
Defined.

(** ** getActionCount and getActions *)

(** The scan that the documentation of [getActions] recommends, from 0
    with [offset = getActionCount - 1], returns the whole log: against a
    sequence reader in ascending order with sequence numbers from 0 on,
    when the recent actions that the count is taken from end with the last
    action of the log. *)
Theorem getActions_up_to_count (log acts : list Action) (maxPageSize : nat) :
  StronglySorted seq_lt log ->
  (1 <= maxPageSize)%nat ->
  (forall a, In a log -> 0 <= account_action_seq a) ->
  last_action acts = last_action log ->
  exists count,
    getActionCount (Fulfilled (Actions acts)) = Normal count /\
    (forall a, In a log -> account_action_seq a < count) /\
    forall fuel, (length log < fuel)%nat ->
      fst (getActions fuel (sequence_reader log maxPageSize) 0 (count - 1))
      = Returned log.
Proof.
  intros Hsorted Hpage Hseq Hlast.
  exists (match last_action log with
          | None => -1
          | Some a => account_action_seq a
          end + 1).
  assert (Hbelow : forall a, In a log ->
            account_action_seq a <
            match last_action log with
            | None => -1
            | Some a => account_action_seq a
            end + 1).
  { intros a Hin. destruct log as [|h t]; [destruct Hin|].
    cbn [last_action].
    pose proof (last_is_greatest t h a Hsorted Hin). lia. }
  split; [|split].
  - unfold getActionCount, getActionMaxSeq. rewrite Hlast. reflexivity.
  - exact Hbelow.
  - intros fuel Hfuel. unfold getActions.
    rewrite (getActions_loop_window log maxPageSize Hsorted Hpage).
    + cbn [app]. f_equal. apply filter_every. intros a Hin.
      unfold in_window. apply andb_true_intro. split; apply Z.leb_le.
      * apply Hseq. exact Hin.
      * pose proof (Hbelow a Hin). lia.
    + eapply Nat.le_lt_trans; [apply filter_length_le|exact Hfuel].
Qed.

Lemma getActions_up_to_count_witness :
  exists count,
    getActionCount (Fulfilled (Actions [entry 9])) = Normal count /\
    (forall a, In a (map entry keys_0_9) -> account_action_seq a < count) /\
    forall fuel, (length (map entry keys_0_9) < fuel)%nat ->
      fst (getActions fuel (sequence_reader (map entry keys_0_9) 3) 0 (count - 1))
      = Returned (map entry keys_0_9).
Proof.
  refine (getActions_up_to_count (map entry keys_0_9) [entry 9] 3 _ _ _ _).
  - unfold keys_0_9; simpl.
    repeat (constructor; [|repeat constructor; unfold seq_lt; simpl; lia]).
    constructor.
  - lia.
  - intros a Hin. unfold keys_0_9 in Hin. simpl in Hin.
    repeat (destruct Hin as [<-|Hin]; [simpl; lia|]). destruct Hin.
  - reflexivity.
Defined.

(** ** getTableByScope *)

(** [getTableByScope] sends the same request each time: against a remote
    whose answer depends on the request only, it returns the one page when
    its [more] is the empty string, and otherwise never returns, sending
    the request again and again. *)
Theorem getTableByScope_same_request (post : ScopeRemote) (code table : string)
    (lower_bound upper_bound : JsVal) (limit : Z) (data : ScopeData) :
  let params := mkScopeParams code table lower_bound upper_bound limit in
  (forall n, post n params = Fulfilled (Some data)) ->
  (no_more data = true ->
   forall fuel, (0 < fuel)%nat ->
     getTableByScope fuel post code table lower_bound upper_bound limit
     = (Returned [data], [params])) /\
  (no_more data = false ->
   forall fuel,
     getTableByScope fuel post code table lower_bound upper_bound limit
     = (Running, repeat params fuel)).
Proof.
  intros params Hsame. unfold getTableByScope. fold params. split.
  - intros Hend fuel Hfuel. destruct fuel as [|fuel]; [lia|].
    cbn [getTableByScope_loop]. rewrite Hsame, Hend. reflexivity.
  - intros Hmore fuel. generalize 0%nat as n. generalize (@nil ScopeData) as ret.
    induction fuel as [|fuel IH]; intros ret n; [reflexivity|].
    cbn [getTableByScope_loop]. rewrite Hsame, Hmore, IH. reflexivity.
Qed.

Lemma getTableByScope_same_request_witness :
  getTableByScope 100
    (fun _ _ => Fulfilled (Some (mkScopeData [] (JStr "eosio.token"))))
    "eosio.token" "accounts" (JStr "") (JStr "") 1000
  = (Running,
     repeat (mkScopeParams "eosio.token" "accounts" (JStr "") (JStr "") 1000)
            100).
Proof.
  refine (proj2 (getTableByScope_same_request
                   (fun _ _ => Fulfilled (Some (mkScopeData [] (JStr "eosio.token"))))
                   "eosio.token" "accounts" (JStr "") (JStr "") 1000
                   (mkScopeData [] (JStr "eosio.token")) _) _ 100%nat).
  - intros n. reflexivity.
  - reflexivity.
Defined.

(** ** checkTable and checkTableMore *)

Lemma firstn_min_length (A : Type) (n : nat) (l : list A) :
  firstn (Nat.min n (length l)) l = firstn n l.
Proof.
  destruct (Nat.le_gt_cases n (length l)) as [Hle|Hgt].
  - rewrite Nat.min_l by exact Hle. reflexivity.
  - rewrite Nat.min_r by lia. rewrite firstn_all, firstn_all2 by lia.
    reflexivity.
Qed.

(** Against the reader of [checkTableMore], [checkTable] returns the first
    page only, a prefix of what [checkTableMore] returns for the same
    arguments, and it warns exactly when it has returned fewer rows. *)
Theorem checkTable_first_page (primaryKey : string) (table : list Row)
    (truncateEvery : nat) (getAbi : Settled unit) (upper_bound : JsVal)
    (index_position limit from : Z) :
  StronglySorted (row_lt primaryKey) table ->
  Forall (has_cursor_key primaryKey) table ->
  (2 <= truncateEvery)%nat ->
  let reader := cursor_reader primaryKey table truncateEvery in
  exists page warned every,
    checkTable reader limit (JNum from) upper_bound index_position
    = Returned (page, warned) /\
    (forall fuel, (length table < fuel)%nat ->
       checkTableMore fuel reader getAbi primaryKey limit (JNum from) upper_bound
         index_position = Returned every) /\
    page = firstn (length page) every /\
    (warned = true <-> (length page < length every)%nat).
Proof.
  intros Hsorted Hkeys Hpage reader.
  set (hits := cursor_hits primaryKey table from).
  set (size := cursor_page_size truncateEvery limit).
  exists (firstn size hits),
         (Nat.ltb size (length hits) &&
          ((limit <=? 0) || (Z.of_nat (length (firstn size hits)) <? limit))),
         (up_to_limit limit hits).
  split; [reflexivity|]. split.
  - intros fuel Hfuel.
    apply (checkTableMore_cursor primaryKey table truncateEvery getAbi upper_bound
             index_position Hsorted Hkeys Hpage).
    eapply Nat.le_lt_trans; [apply filter_length_le|exact Hfuel].
  - rewrite length_firstn. unfold up_to_limit, size, cursor_page_size.
    destruct (Z.leb_spec limit 0) as [Hnolimit|Hlimit].
    + split; [symmetry; apply firstn_min_length|].
      cbn [orb]. rewrite andb_true_r, Nat.ltb_lt. lia.
    + split.
      * rewrite firstn_firstn.
        replace (Nat.min (Nat.min (Nat.min (Z.to_nat limit) truncateEvery)
                            (length hits)) (Z.to_nat limit))
          with (Nat.min (Nat.min (Z.to_nat limit) truncateEvery) (length hits))
          by lia.
        symmetry. apply firstn_min_length.
      * rewrite length_firstn. cbn [orb].
        rewrite andb_true_iff, Nat.ltb_lt, Z.ltb_lt. lia.
Qed.

Lemma checkTable_first_page_witness :
  exists page warned every,
    checkTable (cursor_reader "id" rows_1_20 5) 7 (JNum 1) (JNum (-1)) 1
    = Returned (page, warned) /\
    (forall fuel, (length rows_1_20 < fuel)%nat ->
       checkTableMore fuel (cursor_reader "id" rows_1_20 5) (Fulfilled tt) "id" 7
         (JNum 1) (JNum (-1)) 1 = Returned every) /\
    page = firstn (length page) every /\
    (warned = true <-> (length page < length every)%nat).
Proof.
  refine (checkTable_first_page "id" rows_1_20 5 (Fulfilled tt) (JNum (-1)) 1 7 1
            _ _ _).
  - unfold rows_1_20, keys_1_20; simpl.
    repeat (constructor; [|repeat constructor; unfold row_lt; vm_compute; reflexivity]).
    constructor.
  - unfold rows_1_20, keys_1_20; simpl.
    repeat (constructor; [eexists; split; [reflexivity|discriminate]|]).
    constructor.
  - lia.
Defined.

(** ** getAllActionsBatch: completeness *)

Section BatchScan.
Variable rq : Z -> option (list Action).
Variable startPos count concurrent : Z.
Variable L : Z -> list Action.
Variable K : Z.
Hypothesis Hcount : 0 < count.
Hypothesis Hconcurrent : 0 < concurrent.
Hypothesis HK : 0 <= K.
Hypothesis Hrq : forall j, 0 <= j -> rq (page_pos startPos count j) = Some (L j).
Hypothesis Hfull : forall j, 0 <= j < K -> count <= Z.of_nat (length (L j)).
Hypothesis Hempty : forall j, K < j -> L j = [].

Lemma request_all_pages (b : Z) (n : nat) :
  0 <= b ->
  request_all rq (map (page_pos startPos count) (indices b n))
  = Some (batch_pages startPos count L b n).
Proof.
  revert b. induction n as [|n IH]; intros b Hb; [reflexivity|].
  cbn [indices map request_all]. rewrite Hrq by exact Hb.
  rewrite IH by lia. reflexivity.
Qed.

Lemma page_non_empty (j : Z) :
  non_empty (batch_page startPos count L j) = true -> j <= K.
Proof.
  intros Hne. destruct (Z.le_gt_cases j K) as [Hle|Hgt]; [exact Hle|].
  unfold non_empty, batch_page in Hne. cbn [snd] in Hne.
  rewrite (Hempty j Hgt) in Hne. discriminate.
Qed.

Lemma page_before_K (j : Z) :
  0 <= j < K ->
  non_empty (batch_page startPos count L j) = true /\
  is_fullb count (batch_page startPos count L j) = true.
Proof.
  intros Hj. pose proof (Hfull j Hj) as Hlen.
  unfold non_empty, is_fullb, batch_page. cbn [snd]. split.
  - destruct (L j); [simpl in Hlen; lia|reflexivity].
  - apply Z.leb_le. exact Hlen.
Qed.

Lemma pages_app (b : Z) (n m : nat) :
  batch_pages startPos count L b (n + m)
  = batch_pages startPos count L b n ++
    batch_pages startPos count L (b + Z.of_nat n) m.
Proof. unfold batch_pages. rewrite indices_app, map_app. reflexivity. Qed.

Lemma pages_after_K (b : Z) (n : nat) :
  K < b -> filter non_empty (batch_pages startPos count L b n) = [].
Proof.
  intros Hb. apply filter_none. intros p Hp. unfold batch_pages in Hp.
  apply in_map_iff in Hp. destruct Hp as (j & <- & Hj).
  apply In_indices in Hj.
  destruct (non_empty (batch_page startPos count L j)) eqn:Hne; [|reflexivity].
  apply page_non_empty in Hne. lia.
Qed.

Lemma pages_before_K (b : Z) (n : nat) :
  0 <= b -> b + Z.of_nat n <= K ->
  filter non_empty (batch_pages startPos count L b n)
  = batch_pages startPos count L b n /\
  forallb (is_fullb count) (batch_pages startPos count L b n) = true.
Proof.
  intros Hb Hn. split.
  - apply filter_every. intros p Hp. unfold batch_pages in Hp.
    apply in_map_iff in Hp. destruct Hp as (j & <- & Hj).
    apply In_indices in Hj. apply page_before_K. lia.
  - apply forallb_forall. intros p Hp. unfold batch_pages in Hp.
    apply in_map_iff in Hp. destruct Hp as (j & <- & Hj).
    apply In_indices in Hj. apply page_before_K. lia.
Qed.

(** The non-empty pages up to any index past [K] are the expected ones. *)
Lemma expected_stable (m : Z) :
  K < m ->
  filter non_empty (batch_pages startPos count L 0 (Z.to_nat m))
  = expected_pages startPos count L K.
Proof.
  intros Hm. unfold expected_pages.
  replace (Z.to_nat m) with (Z.to_nat (K + 1) + Z.to_nat (m - K - 1))%nat by lia.
  rewrite pages_app, filter_app.
  rewrite (pages_after_K (0 + Z.of_nat (Z.to_nat (K + 1)))) by lia.
  apply app_nil_r.
Qed.

Lemma batch_loop_complete (fuel : nat) :
  forall (i : Z) (ranges : list Z) (received : list Page),
  scanning startPos count concurrent L K i ranges received ->
  K + 2 * concurrent - i < Z.of_nat fuel ->
  batch_loop fuel rq startPos count concurrent i ranges received
  = (Returned true, expected_pages startPos count L K).
Proof.
  induction fuel as [|fuel IH]; intros i ranges received Hscan Hfuel.
  - destruct Hscan as (b & n & e & Hb & Hi & _ & _ & He & _ & HbK). lia.
  - destruct Hscan as (b & n & e & Hb & Hi & Hranges & Hreceived & He & Hend & HbK).
    cbn [batch_loop].
    assert (Hranges1 : ranges ++ [startPos + i * count]
                       = map (page_pos startPos count) (indices b (S n))).
    { rewrite <- indices_snoc, map_app, Hranges, Hi. reflexivity. }
    rewrite Hranges1.
    destruct (is_batch_end i concurrent) eqn:Hbatch.
    + rewrite request_all_pages by exact Hb.
      assert (Hsplit : filter non_empty (batch_pages startPos count L 0 (Z.to_nat (i + 1)))
                       = received ++
                         filter non_empty (batch_pages startPos count L b (S n))).
      { replace (Z.to_nat (i + 1)) with (Z.to_nat b + S n)%nat by lia.
        rewrite pages_app, filter_app, Hreceived.
        replace (0 + Z.of_nat (Z.to_nat b)) with b by lia. reflexivity. }
      destruct (filter non_empty (batch_pages startPos count L b (S n)))
        as [|p0 ps0] eqn:Hnon.
      * (* every page of the batch is empty *)
        f_equal. rewrite app_nil_r in Hsplit. rewrite <- Hsplit.
        apply expected_stable.
        destruct (Z.le_gt_cases K i) as [Hle|Hgt]; [lia|].
        assert (Hin : In (batch_page startPos count L b)
                        (filter non_empty (batch_pages startPos count L b (S n)))).
        { apply filter_In. split.
          - unfold batch_pages. apply in_map, In_indices. lia.
          - apply page_before_K. lia. }
        rewrite Hnon in Hin. destruct Hin.
      * rewrite <- Hnon. rewrite deliver_handed_over.
        assert (Hfirst : b <= K).
        { assert (Hin : In p0 (filter non_empty (batch_pages startPos count L b (S n))))
            by (rewrite Hnon; left; reflexivity).
          apply filter_In in Hin. destruct Hin as [Hin Hne].
          unfold batch_pages in Hin. apply in_map_iff in Hin.
          destruct Hin as (j & <- & Hj). apply In_indices in Hj.
          apply page_non_empty in Hne. lia. }
        destruct (forallb (is_fullb count)
                    (filter non_empty (batch_pages startPos count L b (S n))))
          eqn:Hall; cbn [negb].
        -- (* all full: the next batch *)
           rewrite handed_over_all by exact Hall. rewrite Hnon.
           apply IH; [|lia].
           exists (i + 1), 0%nat, (i + concurrent).
           split; [lia|]. split; [lia|]. split; [reflexivity|].
           split; [rewrite Hsplit; reflexivity|].
           split; [lia|]. split; [|lia].
           apply is_batch_end_next; [lia|exact Hconcurrent|exact Hbatch].
        -- (* a short page: the scan ends *)
           f_equal.
           assert (HKi : K <= i).
           { destruct (Z.le_gt_cases K i) as [Hle|Hgt]; [exact Hle|].
             rewrite (proj1 (pages_before_K b (S n) Hb ltac:(lia))) in Hall.
             rewrite (proj2 (pages_before_K b (S n) Hb ltac:(lia))) in Hall.
             discriminate. }
           replace (S n) with (Z.to_nat (K - b) + (1 + Z.to_nat (i - K)))%nat
             by lia.
           rewrite !pages_app, !filter_app.
           rewrite (pages_after_K (b + Z.of_nat (Z.to_nat (K - b)) + Z.of_nat 1))
             by lia.
           rewrite app_nil_r.
           destruct (pages_before_K b (Z.to_nat (K - b)) Hb ltac:(lia))
             as [Hsame Hfulls].
           rewrite Hsame, handed_over_app by exact Hfulls.
           replace (b + Z.of_nat (Z.to_nat (K - b))) with K by lia.
           assert (Hlast : handed_over count
                             (filter non_empty (batch_pages startPos count L K 1))
                           = filter non_empty (batch_pages startPos count L K 1)).
           { unfold batch_pages. cbn [indices map filter].
             destruct (non_empty (batch_page startPos count L K)); [|reflexivity].
             cbn [handed_over].
             destruct (is_fullb count (batch_page startPos count L K)); reflexivity. }
           rewrite Hlast, Hreceived. unfold expected_pages.
           replace (Z.to_nat (K + 1))
             with (Z.to_nat b + (Z.to_nat (K - b) + 1))%nat by lia.
           rewrite !pages_app, !filter_app.
           replace (0 + Z.of_nat (Z.to_nat b)) with b by lia.
           replace (b + Z.of_nat (Z.to_nat (K - b))) with K by lia.
           rewrite Hsame. reflexivity.
    + apply IH; [|lia].
      exists b, (S n), e.
      split; [exact Hb|]. split; [lia|]. split; [reflexivity|].
      split; [exact Hreceived|]. split; [|split; [exact Hend|exact HbK]].
      assert (e <> i) by (intros ->; congruence). lia.
Qed.

(** The scan returns, having handed over the non-empty pages up to the
    page of index [K], and nothing else. *)
Lemma getAllActionsBatch_expected (fuel : nat) :
  K + 2 * concurrent < Z.of_nat fuel ->
  getAllActionsBatch fuel rq true startPos count concurrent
  = (Returned true, expected_pages startPos count L K).
Proof.
  intros Hfuel. unfold getAllActionsBatch. cbn [negb].
  apply batch_loop_complete; [|lia].
  exists 0, 0%nat, 0. repeat split; try lia; try reflexivity.
  unfold is_batch_end. destruct (Z.eqb_spec concurrent 0); [lia|reflexivity].
Qed.

Lemma expected_concat :
  concat (map snd (expected_pages startPos count L K))
  = concat (map L (indices 0 (Z.to_nat (K + 1)))).
Proof.
  unfold expected_pages, batch_pages. generalize (indices 0 (Z.to_nat (K + 1))) as js.
  induction js as [|j js IH]; [reflexivity|].
  cbn [map filter]. unfold non_empty at 1, batch_page at 1. cbn [snd].
  destruct (L j) as [|a acts] eqn:HL.
  - cbn [length Nat.eqb negb concat app]. exact IH.
  - cbn [length Nat.eqb negb map concat]. unfold batch_page at 1. cbn [snd].
    rewrite HL, IH. reflexivity.
Qed.

End BatchScan.

(** *** Over a dense log *)

Lemma dense_from_seq (log : list Action) (s n : nat) :
  map account_action_seq log = map Z.of_nat (seq s n) ->
  forall a, In a log -> Z.of_nat s <= account_action_seq a < Z.of_nat (s + n).
Proof.
  intros Hdense a Hin.
  apply (in_map account_action_seq) in Hin. rewrite Hdense in Hin.
  apply in_map_iff in Hin. destruct Hin as (k & <- & Hk).
  apply in_seq in Hk. lia.
Qed.

Lemma dense_from_sorted (log : list Action) :
  forall s n, map account_action_seq log = map Z.of_nat (seq s n) ->
  StronglySorted seq_lt log.
Proof.
  induction log as [|a log IH]; intros s n Hdense; [constructor|].
  destruct n as [|n]; [discriminate|].
  cbn [seq map] in Hdense. injection Hdense as Ha Hrest.
  constructor.
  - exact (IH (S s) n Hrest).
  - apply Forall_forall. intros x Hx.
    pose proof (dense_from_seq log (S s) n Hrest x Hx). unfold seq_lt. lia.
Qed.

(** The number of entries of a dense log in a window. *)
Lemma dense_window_length (log : list Action) :
  forall s n p off,
  map account_action_seq log = map Z.of_nat (seq s n) ->
  length (filter (in_window p off) log)
  = Z.to_nat (Z.min (Z.of_nat (s + n)) (p + off + 1) - Z.max (Z.of_nat s) p).
Proof.
  induction log as [|a log IH]; intros s n p off Hdense.
  - destruct n as [|n]; [|discriminate]. simpl. lia.
  - destruct n as [|n]; [discriminate|].
    cbn [seq map] in Hdense. injection Hdense as Ha Hrest.
    cbn [filter]. unfold in_window at 1. rewrite Ha.
    destruct (Z.leb_spec p (Z.of_nat s)); destruct (Z.leb_spec (Z.of_nat s) (p + off));
      cbn [andb length]; rewrite (IH (S s) n p off Hrest); lia.
Qed.

(** Two adjacent windows of a log in ascending order make one window. *)
Lemma window_split (log : list Action) (a off1 m off2 off : Z) :
  StronglySorted seq_lt log ->
  m = a + off1 + 1 -> off = off1 + 1 + off2 -> -1 <= off1 -> -1 <= off2 ->
  filter (in_window a off1) log ++ filter (in_window m off2) log
  = filter (in_window a off) log.
Proof.
  intros Hsorted -> -> H1 H2.
  induction Hsorted as [|x log Hs IH Hall]; [reflexivity|].
  assert (Hor : in_window a (off1 + 1 + off2) x
                = in_window a off1 x || in_window (a + off1 + 1) off2 x).
  { unfold in_window.
    destruct (Z.leb_spec a (account_action_seq x));
      destruct (Z.leb_spec (account_action_seq x) (a + off1));
      destruct (Z.leb_spec (a + off1 + 1) (account_action_seq x));
      destruct (Z.leb_spec (account_action_seq x) (a + off1 + 1 + off2));
      destruct (Z.leb_spec (account_action_seq x) (a + (off1 + 1 + off2)));
      cbn [andb orb]; try reflexivity; lia. }
  assert (Hdisjoint : in_window a off1 x = true ->
                      in_window (a + off1 + 1) off2 x = false).
  { unfold in_window. intros Hin. apply andb_prop in Hin.
    destruct Hin as [_ Hin]. apply Z.leb_le in Hin.
    apply andb_false_iff. left. apply Z.leb_gt. lia. }
  assert (Hafter : in_window (a + off1 + 1) off2 x = true ->
                   filter (in_window a off1) log = []).
  { unfold in_window at 1. intros Hin. apply andb_prop in Hin.
    destruct Hin as [Hin _]. apply Z.leb_le in Hin.
    apply filter_none. intros y Hy. rewrite Forall_forall in Hall.
    pose proof (Hall y Hy) as Hlt. unfold seq_lt in Hlt.
    unfold in_window. apply andb_false_iff. right. apply Z.leb_gt. lia. }
  cbn [filter]. rewrite Hor.
  destruct (in_window a off1 x) eqn:E1;
    destruct (in_window (a + off1 + 1) off2 x) eqn:E2; cbn [orb app].
  - discriminate (Hdisjoint eq_refl).
  - rewrite IH. reflexivity.
  - rewrite <- IH, (Hafter eq_refl). reflexivity.
  - exact IH.
Qed.

(** The pages of [n] consecutive positions make the window they span. *)
Lemma windows_concat (log : list Action) (startPos count : Z) :
  StronglySorted seq_lt log -> 0 < count ->
  forall n b,
  concat (map (fun j => filter (in_window (page_pos startPos count j) (count - 1)) log)
              (indices b n))
  = filter (in_window (page_pos startPos count b) (Z.of_nat n * count - 1)) log.
Proof.
  intros Hsorted Hcount. induction n as [|n IH]; intros b.
  - cbn [indices map concat]. symmetry. apply filter_none.
    intros x _. unfold in_window.
    destruct (Z.leb_spec (page_pos startPos count b) (account_action_seq x));
      destruct (Z.leb_spec (account_action_seq x)
                  (page_pos startPos count b + (Z.of_nat 0 * count - 1)));
      cbn [andb]; try reflexivity; lia.
  - cbn [indices map concat]. rewrite IH.
    apply window_split; try exact Hsorted; unfold page_pos; nia.
Qed.

(** The closure [req] against a sequence reader resolves to the window of
    the page. *)
Lemma req_sequence_reader (log : list Action) (maxPageSize retries fuel : nat)
    (count pos : Z) :
  StronglySorted seq_lt log -> (1 <= maxPageSize)%nat ->
  (1 <= retries)%nat -> (length log < fuel)%nat ->
  req retries fuel (sequence_reader log maxPageSize) count pos
  = Some (filter (in_window pos (count - 1)) log).
Proof.
  intros Hsorted Hpage Hretries Hfuel. unfold req.
  destruct retries as [|retries]; [lia|]. cbn [req_loop].
  rewrite (getActions_loop_window log maxPageSize Hsorted Hpage).
  - cbn [app]. replace (pos + (count - 1) - pos) with (count - 1) by lia.
    reflexivity.
  - eapply Nat.le_lt_trans; [apply filter_length_le|exact Hfuel].
Qed.

(** Over a dense log served by a sequence reader, [getAllActionsBatch]
    returns, and the pages it has handed to [cbReceive], put end to end,
    are the actions of the log from [startPos] on: none is missed and none
    is handed over twice. *)
Theorem getAllActionsBatch_complete (log : list Action)
    (maxPageSize retries fuelPage : nat) (startPos count concurrent : Z) :
  dense log ->
  (1 <= maxPageSize)%nat -> (1 <= retries)%nat -> (length log < fuelPage)%nat ->
  0 <= startPos -> 0 < count -> 0 < concurrent ->
  let rq := req retries fuelPage (sequence_reader log maxPageSize) count in
  forall fuel,
    Z.of_nat (length log) / count + 2 * concurrent < Z.of_nat fuel ->
    exists received,
      getAllActionsBatch fuel rq true startPos count concurrent
      = (Returned true, received) /\
      concat (map snd received) = actions_from startPos log.
Proof.
  intros Hdense Hpage Hretries HfuelPage Hstart Hcount Hconcurrent rq fuel Hfuel.
  unfold dense in Hdense.
  pose proof (dense_from_sorted log 0 (length log) Hdense) as Hsorted.
  set (N := Z.of_nat (length log)) in *.
  set (L := fun j => filter (in_window (page_pos startPos count j) (count - 1)) log).
  set (K := Z.max 0 ((N - startPos) / count)).
  assert (HK : 0 <= K) by (unfold K; lia).
  assert (Hlen : forall j,
            length (L j)
            = Z.to_nat (Z.min N (page_pos startPos count j + count)
                        - Z.max 0 (page_pos startPos count j))).
  { intros j. unfold L.
    rewrite (dense_window_length log 0 (length log) _ _ Hdense).
    cbn [Nat.add]. fold N. f_equal. change (Z.of_nat 0) with 0. lia. }
  assert (Hdiv1 : count * ((N - startPos) / count) <= N - startPos \/ N - startPos < 0).
  { destruct (Z.le_gt_cases 0 (N - startPos)); [left|right; lia].
    apply Z.mul_div_le. exact Hcount. }
  assert (Hdiv2 : N - startPos < count * Z.succ ((N - startPos) / count)).
  { apply Z.mul_succ_div_gt. exact Hcount. }
  assert (Hdiv3 : (N - startPos) / count <= N / count).
  { apply Z.div_le_mono; lia. }
  assert (Hdiv4 : N - startPos < 0 -> (N - startPos) / count < 0).
  { intros Hneg. apply Z.div_lt_upper_bound; lia. }
  assert (Hdiv5 : 0 <= N / count) by (apply Z.div_pos; lia).
  exists (expected_pages startPos count L K). split.
  - apply (getAllActionsBatch_expected rq startPos count concurrent L K);
      try assumption.
    + intros j Hj. unfold rq. apply req_sequence_reader; assumption.
    + intros j Hj. rewrite Hlen. unfold page_pos, K in *. nia.
    + intros j Hj. apply length_zero_iff_nil. rewrite Hlen.
      unfold page_pos, K in *. nia.
    + unfold K. lia.
  - rewrite (expected_concat startPos count L K). unfold L.
    rewrite (windows_concat log startPos count Hsorted Hcount).
    unfold actions_from. apply filter_ext_in. intros a Hin.
    pose proof (dense_from_seq log 0 (length log) Hdense a Hin) as Hseq.
    cbn [Nat.add] in Hseq. fold N in Hseq.
    unfold in_window, page_pos.
    destruct (Z.leb_spec (startPos + 0 * count) (account_action_seq a));
      destruct (Z.leb_spec startPos (account_action_seq a));
      cbn [andb]; try lia.
    apply Z.leb_le. unfold K. nia.
Qed.

(** The log 0, 1, ..., 9 read from position 2 in pages of four, two
    requests per batch, the reader serving three entries at a time. *)
Lemma getAllActionsBatch_complete_witness :
  exists received,
    getAllActionsBatch 7 (req 1 11 (sequence_reader (map entry keys_0_9) 3) 4)
      true 2 4 2 = (Returned true, received) /\
    concat (map snd received) = actions_from 2 (map entry keys_0_9).
Proof.
  refine (getAllActionsBatch_complete (map entry keys_0_9) 3 1 11 2 4 2
            _ _ _ _ _ _ _ 7%nat _).
  - reflexivity.
  - lia.
  - lia.
  - simpl. lia.
  - lia.
  - lia.
  - lia.
  - vm_compute. reflexivity.
Defined.

(** ** checkTableRange and checkTableItem *)

(** In a table in ascending key order, the rows with keys in [[l, u)] are
    at most [u - l]. *)
Lemma rows_between_count (primaryKey : string) (table : list Row) :
  StronglySorted (row_lt primaryKey) table ->
  forall l u,
  Z.of_nat (length (rows_between false (key_of primaryKey) table l u))
  <= Z.max 0 (u - l).
Proof.
  induction 1 as [|x table Hs IH Hall]; intros l u; [simpl; lia|].
  unfold rows_between. cbn [filter]. unfold in_bounds at 1.
  destruct (Z.leb_spec l (key_of primaryKey x)) as [Hl|Hl];
    destruct (Z.ltb_spec (key_of primaryKey x) u) as [Hu|Hu]; cbn [andb].
  - cbn [length].
    assert (Hrest : filter (fun r => in_bounds false l u (key_of primaryKey r)) table
                    = rows_between false (key_of primaryKey) table
                        (key_of primaryKey x + 1) u).
    { unfold rows_between. apply filter_ext_in. intros y Hy.
      rewrite Forall_forall in Hall. pose proof (Hall y Hy) as Hlt.
      unfold row_lt in Hlt. unfold in_bounds.
      destruct (Z.leb_spec l (key_of primaryKey y));
        destruct (Z.leb_spec (key_of primaryKey x + 1) (key_of primaryKey y));
        cbn [andb]; try reflexivity; lia. }
    rewrite Hrest. pose proof (IH (key_of primaryKey x + 1) u). lia.
  - exact (IH l u).
  - exact (IH l u).
  - exact (IH l u).
Qed.

(** The first row of a range of a table in ascending key order is the row
    of the range with the least key. *)
Lemma rows_between_first (inclusive : bool) (primaryKey : string)
    (table : list Row) (l u : Z) (r : Row) :
  StronglySorted (row_lt primaryKey) table ->
  In r table ->
  in_bounds inclusive l u (key_of primaryKey r) = true ->
  (forall x, In x table -> in_bounds inclusive l u (key_of primaryKey x) = true ->
             key_of primaryKey r <= key_of primaryKey x) ->
  hd_error (rows_between inclusive (key_of primaryKey) table l u) = Some r.
Proof.
  induction 1 as [|x table Hs IH Hall]; intros Hin Hr Hleast; [destruct Hin|].
  unfold rows_between. cbn [filter].
  destruct (in_bounds inclusive l u (key_of primaryKey x)) eqn:Hx.
  - cbn [hd_error]. f_equal. destruct Hin as [Heq|Hin]; [exact Heq|].
    rewrite Forall_forall in Hall. pose proof (Hall r Hin) as Hlt.
    unfold row_lt in Hlt.
    pose proof (Hleast x (or_introl eq_refl) Hx). lia.
  - apply IH.
    + destruct Hin as [->|Hin]; [congruence|exact Hin].
    + exact Hr.
    + intros y Hy. apply Hleast. right. exact Hy.
Qed.

Lemma hd_error_firstn (A : Type) (n : nat) (l : list A) :
  (1 <= n)%nat -> hd_error (firstn n l) = hd_error l.
Proof. destruct n as [|n]; [lia|]. destruct l; reflexivity. Qed.

(** [checkTableItem] reads the range from [key] to [key + 1] with the
    limit 1, for a key whose successor is a double. *)
Lemma checkTableItem_bounded (encodeName : JsVal -> Settled Z) (inclusive : bool)
    (primaryKey : string) (table : list Row) (truncateEvery : nat) (k : Z) :
  (1 <= truncateEvery)%nat ->
  - 2 ^ 53 <= k < 2 ^ 53 ->
  checkTableItem encodeName (bounded_reader inclusive primaryKey table truncateEvery)
    (JNum k)
  = Some (Normal (hd_error (rows_between inclusive (key_of primaryKey) table
                              k (k + 1)))).
Proof.
  intros Hpage Hk. unfold checkTableItem, checkTableRange, range_upper.
  rewrite round_double_exact by lia.
  unfold checkTable, bounded_reader.
  cbn [Z.ltb Z.compare tq_lower_bound tq_upper_bound tq_limit BigNumber rows more].
  f_equal. f_equal. apply hd_error_firstn.
  unfold cursor_page_size. cbn [Z.leb Z.compare]. change (Z.to_nat 1) with 1%nat.
  lia.
Qed.

(** Against a reader whose upper bound is excluded, [checkTableRange] with
    a number [from] returns exactly the rows with keys from [from] up to,
    but not including, [from + length], when the table is in ascending key
    order, a page holds [length] rows, and [from] and [from + length] lie
    within 2^53 in magnitude, where the addition of numbers is exact; a
    negative [length] is refused whatever [from] and the remote. *)
Theorem checkTableRange_window (encodeName : JsVal -> Settled Z)
    (primaryKey : string) (table : list Row) (truncateEvery : nat)
    (from length index_position : Z) :
  StronglySorted (row_lt primaryKey) table ->
  0 <= length -> (Z.to_nat length <= truncateEvery)%nat ->
  - 2 ^ 53 <= from -> from + length <= 2 ^ 53 ->
  checkTableRange encodeName (bounded_reader false primaryKey table truncateEvery)
    (JNum from) length index_position
  = Some (Normal (rows_between false (key_of primaryKey) table from (from + length)))
  /\
  forall (getTableRows : TableRemote) (start : JsVal) (n : Z),
    n < 0 ->
    checkTableRange encodeName getTableRows start n index_position
    = Some (Abrupt (InvalidRange n)).
Proof.
  intros Hsorted Hlength Hpage Hfrom Hupper. split.
  - unfold checkTableRange, range_upper.
    rewrite round_double_exact by lia.
    unfold checkTable, bounded_reader.
    destruct (Z.ltb_spec length 0); [lia|].
    cbn [tq_lower_bound tq_upper_bound tq_limit BigNumber rows more].
    f_equal. f_equal. apply firstn_all2.
    pose proof (rows_between_count primaryKey table Hsorted from (from + length))
      as Hcount.
    unfold cursor_page_size. destruct (Z.leb_spec length 0); lia.
  - intros getTableRows start n Hn. unfold checkTableRange.
    destruct (Z.ltb_spec n 0); [reflexivity|lia].
Qed.

Lemma checkTableRange_window_witness :
  checkTableRange (fun _ => Rejected "not a name")
    (bounded_reader false "id" rows_1_20 5) (JNum 3) 4 1
  = Some (Normal (rows_between false (key_of "id") rows_1_20 3 (3 + 4))) /\
  forall (getTableRows : TableRemote) (start : JsVal) (n : Z),
    n < 0 ->
    checkTableRange (fun _ => Rejected "not a name") getTableRows start n 1
    = Some (Abrupt (InvalidRange n)).
Proof.
  refine (checkTableRange_window (fun _ => Rejected "not a name") "id" rows_1_20 5
            3 4 1 _ _ _ _ _).
  - unfold rows_1_20, keys_1_20; simpl.
    repeat (constructor; [|repeat constructor; unfold row_lt; vm_compute; reflexivity]).
    constructor.
  - lia.
  - simpl. lia.
  - vm_compute. discriminate.
  - vm_compute. discriminate.
Defined.

(** [checkTableItem] returns the row of the given key when the table, in
    ascending key order, holds one and the key lies between -2^53 and
    2^53 - 1, whether or not the reader counts the upper bound in.  For the
    key 2^53 the upper bound [key + 1] is rounded back to the key, and a
    reader that excludes the upper bound returns no row at all. *)
Theorem checkTableItem_finds (encodeName : JsVal -> Settled Z) (inclusive : bool)
    (primaryKey : string) (table : list Row) (truncateEvery : nat) (r : Row) :
  StronglySorted (row_lt primaryKey) table ->
  (1 <= truncateEvery)%nat ->
  In r table ->
  - 2 ^ 53 <= key_of primaryKey r < 2 ^ 53 ->
  checkTableItem encodeName (bounded_reader inclusive primaryKey table truncateEvery)
    (JNum (key_of primaryKey r))
  = Some (Normal (Some r)) /\
  checkTableItem encodeName (bounded_reader false primaryKey table truncateEvery)
    (JNum (2 ^ 53))
  = Some (Normal None).
Proof.
  intros Hsorted Hpage Hin Hkey. split.
  - rewrite checkTableItem_bounded by assumption.
    f_equal. f_equal. apply rows_between_first; try assumption.
    + unfold in_bounds. destruct inclusive.
      * apply andb_true_intro. split; apply Z.leb_le; lia.
      * apply andb_true_intro. split; [apply Z.leb_le|apply Z.ltb_lt]; lia.
    + intros x _ Hx. unfold in_bounds in Hx. apply andb_prop in Hx.
      destruct Hx as [Hx _]. apply Z.leb_le in Hx. exact Hx.
  - unfold checkTableItem, checkTableRange, range_upper.
    change (round_double (2 ^ 53 + 1)) with (2 ^ 53).
    unfold checkTable, bounded_reader.
    cbn [Z.ltb Z.compare tq_lower_bound tq_upper_bound tq_limit BigNumber rows more].
    unfold rows_between. rewrite filter_none; [destruct (cursor_page_size truncateEvery 1); reflexivity|].
    intros x _. unfold in_bounds.
    destruct (Z.leb_spec (2 ^ 53) (key_of primaryKey x));
      destruct (Z.ltb_spec (key_of primaryKey x) (2 ^ 53));
      cbn [andb]; try reflexivity; lia.
Qed.

Lemma checkTableItem_finds_witness :
  checkTableItem (fun _ => Rejected "not a name")
    (bounded_reader true "id" rows_1_20 5) (JNum (key_of "id" (row_of_key 7)))
  = Some (Normal (Some (row_of_key 7))) /\
  checkTableItem (fun _ => Rejected "not a name")
    (bounded_reader false "id" rows_1_20 5) (JNum (2 ^ 53))
  = Some (Normal None).
Proof.
  refine (checkTableItem_finds (fun _ => Rejected "not a name") true "id"
            rows_1_20 5 (row_of_key 7) _ _ _ _).
  - unfold rows_1_20, keys_1_20; simpl.
    repeat (constructor; [|repeat constructor; unfold row_lt; vm_compute; reflexivity]).
    constructor.
  - lia.
  - unfold rows_1_20, keys_1_20. simpl. intuition.
  - split; [vm_compute; discriminate|vm_compute; reflexivity].
Defined.

(** When the table holds no row of the given key, a key between -2^53 and
    2^53 - 1, [checkTableItem] returns [undefined] against a reader whose
    upper bound is excluded; against a reader that counts the upper bound
    in, it returns the row of the next key when there is one. *)
Theorem checkTableItem_absent (encodeName : JsVal -> Settled Z)
    (primaryKey : string) (table : list Row) (truncateEvery : nat) (k : Z) :
  StronglySorted (row_lt primaryKey) table ->
  (1 <= truncateEvery)%nat ->
  - 2 ^ 53 <= k < 2 ^ 53 ->
  (forall x, In x table -> key_of primaryKey x <> k) ->
  checkTableItem encodeName (bounded_reader false primaryKey table truncateEvery)
    (JNum k) = Some (Normal None) /\
  forall r, In r table -> key_of primaryKey r = k + 1 ->
    checkTableItem encodeName (bounded_reader true primaryKey table truncateEvery)
      (JNum k) = Some (Normal (Some r)).
Proof.
  intros Hsorted Hpage Hk Habsent. split.
  - rewrite checkTableItem_bounded by assumption. f_equal. f_equal.
    unfold rows_between. rewrite filter_none; [reflexivity|].
    intros x Hx. pose proof (Habsent x Hx) as Hne. unfold in_bounds.
    destruct (Z.leb_spec k (key_of primaryKey x));
      destruct (Z.ltb_spec (key_of primaryKey x) (k + 1));
      cbn [andb]; try reflexivity; lia.
  - intros r Hin Hkey. rewrite checkTableItem_bounded by assumption.
    f_equal. f_equal. apply rows_between_first; try assumption.
    + unfold in_bounds. apply andb_true_intro. split; apply Z.leb_le; lia.
    + intros x Hx Hb. pose proof (Habsent x Hx) as Hne.
      unfold in_bounds in Hb. apply andb_prop in Hb.
      destruct Hb as [Hb _]. apply Z.leb_le in Hb. lia.
Qed.

Lemma checkTableItem_absent_witness :
  checkTableItem (fun _ => Rejected "not a name")
    (bounded_reader false "id" rows_1_20 5) (JNum 0) = Some (Normal None) /\
  forall r, In r rows_1_20 -> key_of "id" r = 0 + 1 ->
    checkTableItem (fun _ => Rejected "not a name")
      (bounded_reader true "id" rows_1_20 5) (JNum 0) = Some (Normal (Some r)).
Proof.
  refine (checkTableItem_absent (fun _ => Rejected "not a name") "id" rows_1_20 5 0
            _ _ _ _).
  - unfold rows_1_20, keys_1_20; simpl.
    repeat (constructor; [|repeat constructor; unfold row_lt; vm_compute; reflexivity]).
    constructor.
  - lia.
  - split; [vm_compute; discriminate|vm_compute; reflexivity].
  - intros x Hx. unfold rows_1_20, keys_1_20 in Hx. simpl in Hx.
    repeat (destruct Hx as [<-|Hx]; [vm_compute; discriminate|]). destruct Hx.
Defined.

(** ** Further edge cases *)

(** A memo without a colon, [mark[f]rest], is read as the function [f]
    with no arguments, without entering the loop; what follows the closing
    bracket is dropped. *)
Theorem parseMemo_without_colon (fuel : nat) (mark : ascii) (f rest : JsString) :
  mark = "@"%char \/ mark = "#"%char ->
  f <> [] -> free_of ":"%char f -> free_of "]"%char f -> free_of ":"%char rest ->
  parseMemo fuel (mark :: "["%char :: f ++ "]"%char :: rest)
  = Normal (mkPayload f []).
Proof.
  intros Hmark Hf Hcol Hend Hrest.
  set (m := mark :: "["%char :: f ++ "]"%char :: rest).
  assert (Hlen : (Z.of_nat (length m) <? 4) = false).
  { apply Z.ltb_ge. unfold m. simpl length. rewrite length_app. simpl length.
    destruct f as [|x f]; [congruence|]. simpl length. lia. }
  assert (H1 : char_at_is m 1 "["%char = true) by reflexivity.
  assert (H2 : char_at_is m 2 "]"%char = false).
  { unfold char_at_is, m. simpl nth_error. destruct f as [|x f]; [congruence|].
    simpl. apply Ascii.eqb_neq. intros ->. apply Hend. left. reflexivity. }
  assert (H0 : negb (char_at_is m 0 "@"%char) && negb (char_at_is m 0 "#"%char)
               = false).
  { destruct Hmark as [-> | ->]; reflexivity. }
  assert (Hm1 : mark <> ":"%char) by (destruct Hmark as [-> | ->]; discriminate).
  assert (Hm2 : mark <> "]"%char) by (destruct Hmark as [-> | ->]; discriminate).
  assert (HposEnd : indexOf "]"%char m 0 = 2 + Z.of_nat (length f)).
  { change m with ((mark :: "["%char :: f) ++ "]"%char :: rest).
    rewrite indexOf_first.
    - simpl length. lia.
    - apply free_of_cons; [exact Hm2|].
      apply free_of_cons; [discriminate|exact Hend]. }
  assert (HposCol : indexOf ":"%char m 0 = -1).
  { rewrite indexOf_0. apply indexOf_from_absent. unfold m.
    apply free_of_cons; [exact Hm1|].
    apply free_of_cons; [discriminate|].
    apply free_of_app; [exact Hcol|].
    apply free_of_cons; [discriminate|exact Hrest]. }
  unfold parseMemo. fold m. rewrite Hlen, H1, H2, H0, HposCol, HposEnd.
  cbn [negb orb andb].
  destruct (Z.ltb_spec (2 + Z.of_nat (length f)) 0); [lia|].
  cbn [Z.ltb Z.compare]. f_equal. f_equal.
  replace (2 + Z.of_nat (length f) - 2) with (Z.of_nat (length f)) by lia.
  exact (substr_at [mark; "["%char] f ("]"%char :: rest)).
Qed.

Lemma parseMemo_without_colon_witness :
  parseMemo 0 (list_ascii_of_string "#[ping]pong")
  = Normal (mkPayload (list_ascii_of_string "ping") []).
Proof.
  refine (parseMemo_without_colon 0 "#"%char (list_ascii_of_string "ping")
            (list_ascii_of_string "pong") _ _ _ _ _).
  - right. reflexivity.
  - discriminate.
  - free_of_string.
  - free_of_string.
  - free_of_string.
Defined.

(** ** getAllActionsBatch: application errors *)




